(** * vibechess: the match execution engine

    A shallow embedding of the match loop ([backend/game_engine.py]), the
    response parser and the oracle call ([backend/llm_service.py]), the event
    bus ([sse_manager.py]), the event schema ([schemas.py]) and the request
    handlers ([backend/main.py]), with the properties of the engine proved
    about it.

    Python [str] values are modelled as strings of 8-bit characters (code
    points below 256); the third-party libraries the code calls (python-chess,
    pydantic, [json], [re]) are modelled by the part of their documented
    behaviour the code relies on. *)

From Stdlib Require Import Ascii String NArith List Bool Arith Lia.
From stdpp Require Import gmap strings list sorting.

(** ** Python values and the [str] methods the code uses *)

Definition chars := list ascii.

Definition code (c : ascii) : N := N_of_ascii c.

Definition in_range (lo hi : N) (c : ascii) : bool :=
  ((lo <=? code c) && (code c <=? hi))%N.

(** [str.isspace] and the [\s] class of [re] on code points below 256. *)
Definition isspace (c : ascii) : bool :=
  in_range 9 13 c || in_range 28 31 c || in_range 32 32 c
  || in_range 133 133 c || in_range 160 160 c.

(** The [\w] class of [re] on code points below 256: alphanumerics and [_]. *)
Definition isword (c : ascii) : bool :=
  in_range 48 57 c || in_range 65 90 c || in_range 95 95 c || in_range 97 122 c
  || in_range 170 170 c || in_range 178 179 c || in_range 181 181 c
  || in_range 185 186 c || in_range 188 190 c || in_range 192 214 c
  || in_range 216 246 c || in_range 248 255 c.

Definition ascii_lower (c : ascii) : ascii :=
  if in_range 65 90 c then ascii_of_N (code c + 32) else c.

Fixpoint lstrip (s : chars) : chars :=
  match s with
  | c :: s' => if isspace c then lstrip s' else s
  | [] => []
  end.

(** [s.strip()] *)
Definition strip (s : chars) : chars := rev (lstrip (rev (lstrip s))).

(** Truth value of a [str | None]: [None] and the empty string are false. *)
Definition truthy (o : option string) : bool :=
  match o with
  | Some s => negb (String.eqb s "")
  | None => false
  end.

(** ** The fragment of [re] used by the parsers

    A backtracking matcher in continuation-passing style. The continuation
    receives the character before the current position (for [\b]), the rest of
    the text and the content of group 1; returning [None] makes the matcher
    backtrack. Quantifiers range over single-character classes, which is all
    the patterns of this repository need. *)

Inductive regex : Type :=
| Eps
| Chr (p : ascii → bool)
| Cat (r1 r2 : regex)
| Alt (r1 r2 : regex)
| Opt (r : regex)
| Star (p : ascii → bool)
| Plus (p : ascii → bool)
| PlusLazy (p : ascii → bool)
| Group (r : regex)
| Dollar
| WordB.

Declare Scope regex_scope.
Delimit Scope regex_scope with re.
Bind Scope regex_scope with regex.
Infix "+>" := Cat (at level 60, right associativity) : regex_scope.
Infix "<|>" := Alt (at level 65, right associativity) : regex_scope.

(** [p*], greedy: the longest run first, then shorter ones. *)
Fixpoint star_greedy {A : Type} (p : ascii → bool) (g : option chars)
    (k : option ascii → chars → option chars → option A)
    (prev : option ascii) (s : chars) : option A :=
  match s with
  | c :: s' =>
      if p c then
        match star_greedy p g k (Some c) s' with
        | Some a => Some a
        | None => k prev s g
        end
      else k prev s g
  | [] => k prev s g
  end.

(** [p+?], lazy: one character, then the continuation before any more. *)
Fixpoint plus_lazy {A : Type} (p : ascii → bool) (g : option chars)
    (k : option ascii → chars → option chars → option A)
    (s : chars) : option A :=
  match s with
  | c :: s' =>
      if p c then
        match k (Some c) s' g with
        | Some a => Some a
        | None => plus_lazy p g k s'
        end
      else None
  | [] => None
  end.

(** [$] without [re.MULTILINE]: the end, or just before a final newline. *)
Definition at_dollar (s : chars) : bool :=
  match s with
  | [] => true
  | [c] => in_range 10 10 c
  | _ => false
  end.

Definition word_before (prev : option ascii) : bool :=
  match prev with Some c => isword c | None => false end.

Definition word_after (s : chars) : bool :=
  match s with c :: _ => isword c | [] => false end.

(** [\b]: exactly one side of the position is a word character. *)
Definition at_boundary (prev : option ascii) (s : chars) : bool :=
  xorb (word_before prev) (word_after s).

Fixpoint rmatch {A : Type} (r : regex) (prev : option ascii) (s : chars)
    (g : option chars) (k : option ascii → chars → option chars → option A)
    : option A :=
  match r with
  | Eps => k prev s g
  | Chr p =>
      match s with
      | c :: s' => if p c then k (Some c) s' g else None
      | [] => None
      end
  | Cat r1 r2 => rmatch r1 prev s g (λ prev' s' g', rmatch r2 prev' s' g' k)
  | Alt r1 r2 =>
      match rmatch r1 prev s g k with
      | Some a => Some a
      | None => rmatch r2 prev s g k
      end
  | Opt r1 =>
      match rmatch r1 prev s g k with
      | Some a => Some a
      | None => k prev s g
      end
  | Star p => star_greedy p g k prev s
  | Plus p =>
      match s with
      | c :: s' => if p c then star_greedy p g k (Some c) s' else None
      | [] => None
      end
  | PlusLazy p => plus_lazy p g k s
  | Group r1 =>
      rmatch r1 prev s g
        (λ prev' s' _, k prev' s' (Some (take (length s - length s') s)))
  | Dollar => if at_dollar s then k prev s g else None
  | WordB => if at_boundary prev s then k prev s g else None
  end.

(** A match object: the content of group 1 and where the match ended. *)
Record rmatch_obj := MatchObj {
  group1 : option chars;
  end_prev : option ascii;
  end_rest : chars
}.

(** [re.search]: the match at the leftmost position that has one. *)
Fixpoint search_from (r : regex) (prev : option ascii) (s : chars)
    : option rmatch_obj :=
  match rmatch r prev s None (λ prev' s' g, Some (MatchObj g prev' s')) with
  | Some m => Some m
  | None =>
      match s with
      | c :: s' => search_from r (Some c) s'
      | [] => None
      end
  end.

Definition search (r : regex) (s : chars) : option rmatch_obj :=
  search_from r None s.

(** [re.findall] for a pattern with one group that never matches the empty
    string: group 1 of the successive non-overlapping matches. *)
Fixpoint findall_from (fuel : nat) (r : regex) (prev : option ascii) (s : chars)
    : list chars :=
  match fuel with
  | 0 => []
  | S fuel' =>
      match search_from r prev s with
      | Some m =>
          default [] (group1 m) :: findall_from fuel' r (end_prev m) (end_rest m)
      | None => []
      end
  end.

Definition findall (r : regex) (s : chars) : list chars :=
  findall_from (S (length s)) r None s.

(** Character classes and literals. *)
Definition is_char (c : ascii) : ascii → bool := Ascii.eqb c.
Definition is_char_ci (c : ascii) : ascii → bool :=
  λ d, Ascii.eqb (ascii_lower c) (ascii_lower d).
Definition one_of (cs : string) : ascii → bool :=
  λ d, existsb (Ascii.eqb d) (list_ascii_of_string cs).
Definition newline : ascii := ascii_of_N 10.
Definition dot : ascii → bool := λ d, negb (Ascii.eqb d newline).
Definition dot_all : ascii → bool := λ _, true.
Definition not_space : ascii → bool := λ d, negb (isspace d).

(** A literal string; [ci] is [re.IGNORECASE]. *)
Fixpoint lit_chars (ci : bool) (cs : chars) : regex :=
  match cs with
  | [] => Eps
  | c :: cs' => Cat (Chr (if ci then is_char_ci c else is_char c)) (lit_chars ci cs')
  end.

Definition lit (s : string) : regex := lit_chars false (list_ascii_of_string s).
Definition lit_ci (s : string) : regex := lit_chars true (list_ascii_of_string s).

(** ** [backend/llm_service.py]: the response parser *)

Definition VALID_EMOTIONS : list string :=
  [ "grandmaster_trance"; "instant_regret"; "smug_trap_setter";
    "bewildered_analyst"; "stone_wall"; "predator"; "resigned_king";
    "impatient_speedster"; "eureka_moment" ].

Module LLMResponse.
Record t := {
  text : string;
  session_id : option string;
  error : option string
}.
End LLMResponse.

Module ChessMoveResponse.
Record t := {
  move : option string;
  comment : option string;
  commentary : option string;
  my_emotion : option string;
  opponent_emotion : option string
}.
End ChessMoveResponse.

Inductive log_level := INFO | WARNING | ERROR.
Definition log_record : Type := log_level * string.

(** [match.group(1).strip() if match else None] *)
Definition extract_field (pattern : regex) (txt : string) : option string :=
  match search pattern (list_ascii_of_string txt) with
  | Some m => Some (string_of_list_ascii (strip (default [] (group1 m))))
  | None => None
  end.

(** [r"MOVE:\s*(.+?)(?:\n|$)"] *)
Definition MOVE_re : regex :=
  (lit_ci "MOVE:" +> Star isspace +> Group (PlusLazy dot)
   +> (Chr (is_char newline) <|> Dollar))%re.

(** [r"COMMENT:\s*(.+?)(?:\n(?:COMMENTARY|MY_EMOTION|OPPONENT_EMOTION):|$)"] *)
Definition COMMENT_re : regex :=
  (lit_ci "COMMENT:" +> Star isspace +> Group (PlusLazy dot)
   +> ((Chr (is_char newline)
        +> (lit_ci "COMMENTARY" <|> lit_ci "MY_EMOTION" <|> lit_ci "OPPONENT_EMOTION")
        +> lit_ci ":")
       <|> Dollar))%re.

(** [r"COMMENTARY:\s*(.+?)(?:\n(?:MY_EMOTION|OPPONENT_EMOTION):|$)"] *)
Definition COMMENTARY_re : regex :=
  (lit_ci "COMMENTARY:" +> Star isspace +> Group (PlusLazy dot)
   +> ((Chr (is_char newline)
        +> (lit_ci "MY_EMOTION" <|> lit_ci "OPPONENT_EMOTION")
        +> lit_ci ":")
       <|> Dollar))%re.

(** [r"MY_EMOTION:\s*(\S+)"] *)
Definition MY_EMOTION_re : regex :=
  (lit_ci "MY_EMOTION:" +> Star isspace +> Group (Plus not_space))%re.

(** [r"OPPONENT_EMOTION:\s*(\S+)"] *)
Definition OPPONENT_EMOTION_re : regex :=
  (lit_ci "OPPONENT_EMOTION:" +> Star isspace +> Group (Plus not_space))%re.

Definition is_valid_emotion (s : string) : bool :=
  existsb (String.eqb s) VALID_EMOTIONS.

(** The test [e and e not in VALID_EMOTIONS]. *)
Definition invalid_emotion (e : option string) : bool :=
  match e with
  | Some s => truthy e && negb (is_valid_emotion s)
  | None => false
  end.

(** One of the two emotion checks: the value kept and what is logged. *)
Definition validate_emotion (field : string) (e : option string)
    : option string * list log_record :=
  if invalid_emotion e then
    (Some "stone_wall",
     [(WARNING, "Invalid " +:+ field +:+ ": " +:+ default "" e
                +:+ ", defaulting to stone_wall")])
  else (e, []).

(** [parse_chess_response], with the records it writes to the logger. *)
Definition parse_chess_response_logged (txt : string)
    : ChessMoveResponse.t * list log_record :=
  let move := extract_field MOVE_re txt in
  let comment := extract_field COMMENT_re txt in
  let commentary := extract_field COMMENTARY_re txt in
  let my_emotion := extract_field MY_EMOTION_re txt in
  let opponent_emotion := extract_field OPPONENT_EMOTION_re txt in
  let '(my_emotion, log1) := validate_emotion "my_emotion" my_emotion in
  let '(opponent_emotion, log2) :=
    validate_emotion "opponent_emotion" opponent_emotion in
  ({| ChessMoveResponse.move := move;
      ChessMoveResponse.comment := comment;
      ChessMoveResponse.commentary := commentary;
      ChessMoveResponse.my_emotion := my_emotion;
      ChessMoveResponse.opponent_emotion := opponent_emotion |},
   log1 ++ log2).

Definition parse_chess_response (txt : string) : ChessMoveResponse.t :=
  fst (parse_chess_response_logged txt).

(** ** [backend/game_engine.py]: the two-field parser [parse_llm_response]

    Kept in the module, but [run_game] calls [parse_chess_response]. *)

(** [r'MOVE:\s*([A-Za-z0-9\-+#=xO]+)'] *)
Definition move_token_char (c : ascii) : bool :=
  in_range 65 90 c || in_range 97 122 c || in_range 48 57 c || one_of "-+#=xO" c.

Definition LEGACY_MOVE_re : regex :=
  (lit_ci "MOVE:" +> Star isspace +> Group (Plus move_token_char))%re.

(** [r'COMMENT:\s*(.+?)(?:\n|$)'] with [re.DOTALL] *)
Definition LEGACY_COMMENT_re : regex :=
  (lit_ci "COMMENT:" +> Star isspace +> Group (PlusLazy dot_all)
   +> (Chr (is_char newline) <|> Dollar))%re.

(** [r'\b([KQRBN]?[a-h]?[1-8]?x?[a-h][1-8](?:=[QRBN])?[+#]?|O-O(?:-O)?)\b'] *)
Definition POTENTIAL_MOVE_re : regex :=
  (WordB
   +> Group ((Opt (Chr (one_of "KQRBN")) +> Opt (Chr (one_of "abcdefgh"))
              +> Opt (Chr (one_of "12345678")) +> Opt (Chr (is_char "x"))
              +> Chr (one_of "abcdefgh") +> Chr (one_of "12345678")
              +> Opt (Chr (is_char "=") +> Chr (one_of "QRBN"))
              +> Opt (Chr (one_of "+#")))
             <|> (lit "O-O" +> Opt (lit "-O")))
   +> WordB)%re.

Definition parse_llm_response (response_text : string)
    : option string * option string :=
  let move :=
    match search LEGACY_MOVE_re (list_ascii_of_string response_text) with
    | Some m => Some (string_of_list_ascii (strip (default [] (group1 m))))
    | None => None
    end in
  let comment :=
    match search LEGACY_COMMENT_re (list_ascii_of_string response_text) with
    | Some m => Some (string_of_list_ascii (strip (default [] (group1 m))))
    | None => None
    end in
  let move :=
    if negb (truthy move) then
      match findall POTENTIAL_MOVE_re (list_ascii_of_string response_text) with
      | first :: _ => Some (string_of_list_ascii first)
      | [] => move
      end
    else move in
  (move, comment).


(** ** [backend/llm_service.py]: the oracle call

    The external process is the environment: an [oracle] maps the command line
    to what running it does. [CliExit] carries, with the decoded output, what
    [json.loads] makes of it. Fields of the payload have the types
    [LLMResponse] declares ([text: str], [session_id: str | None]). *)

Inductive json_payload :=
| JSONDecodeError
| JSONNotObject (type_name : string)
| JSONObject (result : option string) (session_id : option (option string)).

Inductive cli_outcome :=
| CliNotFound
| CliException (message : string)
| CliExit (returncode : Z) (stdout stderr : string) (payload : json_payload).

Definition oracle : Type := list string → cli_outcome.

(** [" ".join(l)] and [", ".join(l)] *)
Fixpoint join (sep : string) (l : list string) : string :=
  match l with
  | [] => ""
  | [x] => x
  | x :: l' => x +:+ sep +:+ join sep l'
  end.

(** The command line [cmd] of [call_claude_cli]. *)
Definition claude_cmd (prompt : string) (session_id system_prompt : option string)
    : list string :=
  ["claude"; "-p"; prompt; "--output-format"; "json"; "--model"; "haiku"]
  ++ (if truthy session_id then ["--resume"; default "" session_id]
      else if truthy system_prompt then ["--system-prompt"; default "" system_prompt]
      else []).

Definition call_claude_cli_logged (run : oracle) (prompt : string)
    (session_id system_prompt : option string)
    : LLMResponse.t * list log_record :=
  let cmd := claude_cmd prompt session_id system_prompt in
  let called := (INFO, "Calling Claude CLI: " +:+ join " " (take 4 cmd) +:+ "...") in
  match run cmd with
  | CliExit returncode stdout stderr payload =>
      if negb (returncode =? 0)%Z then
        let error_msg :=
          if String.eqb stderr "" then "Unknown error" else stderr in
        ({| LLMResponse.text := ""; LLMResponse.session_id := session_id;
            LLMResponse.error := Some error_msg |},
         [called; (ERROR, "Claude CLI error: " +:+ error_msg)])
      else
        match payload with
        | JSONObject result sid =>
            ({| LLMResponse.text := default "" result;
                LLMResponse.session_id := default session_id sid;
                LLMResponse.error := None |},
             [called])
        | JSONDecodeError =>
            ({| LLMResponse.text := stdout; LLMResponse.session_id := session_id;
                LLMResponse.error := None |},
             [called;
              (WARNING, "Failed to parse Claude CLI JSON response, using raw text")])
        | JSONNotObject type_name =>
            let error_msg :=
              "Error calling Claude CLI: '" +:+ type_name
              +:+ "' object has no attribute 'get'" in
            ({| LLMResponse.text := ""; LLMResponse.session_id := session_id;
                LLMResponse.error := Some error_msg |},
             [called; (ERROR, error_msg)])
        end
  | CliNotFound =>
      let error_msg := "Claude CLI not found. Please install claude-code." in
      ({| LLMResponse.text := ""; LLMResponse.session_id := None;
          LLMResponse.error := Some error_msg |},
       [called; (ERROR, error_msg)])
  | CliException message =>
      let error_msg := "Error calling Claude CLI: " +:+ message in
      ({| LLMResponse.text := ""; LLMResponse.session_id := session_id;
          LLMResponse.error := Some error_msg |},
       [called; (ERROR, error_msg)])
  end.

Definition call_claude_cli (run : oracle) (prompt : string)
    (session_id system_prompt : option string) : LLMResponse.t :=
  fst (call_claude_cli_logged run prompt session_id system_prompt).

Definition dq : string := String (ascii_of_N 34) "".
Definition lf : string := String newline "".

Definition EMOTION_LIST : string :=
  "grandmaster_trance, instant_regret, smug_trap_setter, bewildered_analyst, stone_wall, predator, resigned_king, impatient_speedster, eureka_moment".

Definition build_chess_prompt (color user_strategy board_ascii : string)
    (legal_moves : list string) : string :=
  "You are playing chess as " +:+ color +:+ "." +:+ lf
  +:+ "Your strategy: " +:+ user_strategy +:+ lf
  +:+ lf
  +:+ "Current board position:" +:+ lf
  +:+ board_ascii +:+ lf
  +:+ lf
  +:+ "Legal moves available: " +:+ join ", " legal_moves +:+ lf
  +:+ lf
  +:+ "Respond with your move in this exact format:" +:+ lf
  +:+ "MOVE: <move in SAN notation like e4, Nf3, O-O>" +:+ lf
  +:+ "COMMENT: <your dramatic internal thoughts as the player, be expressive and in-character>" +:+ lf
  +:+ "COMMENTARY: <neutral sports announcer, 1-2 sentences, very dramatic like "
  +:+ dq +:+ "Wow! White sacrifices the queen! Unbelievable!" +:+ dq
  +:+ " - describe what happened without technical notation>" +:+ lf
  +:+ "MY_EMOTION: <one of: " +:+ EMOTION_LIST +:+ ">" +:+ lf
  +:+ "OPPONENT_EMOTION: <same options - your guess of how your opponent is feeling>" +:+ lf
  +:+ lf
  +:+ "IMPORTANT: Your MOVE must be one of the legal moves listed above.".

Definition build_system_prompt (color : string) : string :=
  "You are a chess AI playing as " +:+ color
  +:+ ". You will be given the current board state and asked to make moves." +:+ lf
  +:+ lf
  +:+ "Rules:" +:+ lf
  +:+ "1. Always respond with a legal move in SAN notation (e.g., e4, Nf3, Bxc6, O-O)" +:+ lf
  +:+ "2. Format your response as:" +:+ lf
  +:+ "   MOVE: <your move>" +:+ lf
  +:+ "   COMMENT: <your dramatic internal thoughts - be expressive!>" +:+ lf
  +:+ "   COMMENTARY: <neutral sports announcer style, 1-2 sentences, very dramatic>" +:+ lf
  +:+ "   MY_EMOTION: <one of the 9 emotion keys>" +:+ lf
  +:+ "   OPPONENT_EMOTION: <your guess of opponent's emotion>" +:+ lf
  +:+ "3. Play according to the strategy provided by your player" +:+ lf
  +:+ "4. Be dramatic and entertaining in your comments!" +:+ lf
  +:+ lf
  +:+ "Emotion options: " +:+ EMOTION_LIST +:+ lf
  +:+ lf
  +:+ "You will receive the board as ASCII art where:" +:+ lf
  +:+ "- Uppercase letters = White pieces (K=King, Q=Queen, R=Rook, B=Bishop, N=Knight, P=Pawn)" +:+ lf
  +:+ "- Lowercase letters = Black pieces" +:+ lf
  +:+ "- Dots (.) = Empty squares".

(** ** [backend/models.py] *)

Inductive GameStatus := WAITING_FOR_PROMPTS | IN_PROGRESS | COMPLETED.
Inductive Color := WHITE | BLACK.

(** [Color.value] *)
Definition Color_value (c : Color) : string :=
  match c with WHITE => "white" | BLACK => "black" end.

Definition STARTING_FEN : string :=
  "rnbqkbnr/pppppppp/8/8/8/8/PPPPPPPP/RNBQKBNR w KQkq - 0 1".

Module Game.
Record t := {
  game_code : string;
  status : GameStatus;
  white_prompt : option string;
  black_prompt : option string;
  white_session_id : option string;
  black_session_id : option string;
  board_fen : string;
  current_turn : Color;
  result : option string;
  is_paused : bool
}.

(** [Game(game_code=code)]: the column defaults. *)
Definition new (code : string) : t :=
  {| game_code := code; status := WAITING_FOR_PROMPTS;
     white_prompt := None; black_prompt := None;
     white_session_id := None; black_session_id := None;
     board_fen := STARTING_FEN; current_turn := WHITE;
     result := None; is_paused := false |}.

Definition set_status (v : GameStatus) (g : t) : t :=
  {| game_code := game_code g; status := v;
     white_prompt := white_prompt g; black_prompt := black_prompt g;
     white_session_id := white_session_id g;
     black_session_id := black_session_id g;
     board_fen := board_fen g; current_turn := current_turn g;
     result := result g; is_paused := is_paused g |}.

Definition set_is_paused (v : bool) (g : t) : t :=
  {| game_code := game_code g; status := status g;
     white_prompt := white_prompt g; black_prompt := black_prompt g;
     white_session_id := white_session_id g;
     black_session_id := black_session_id g;
     board_fen := board_fen g; current_turn := current_turn g;
     result := result g; is_paused := v |}.

Definition set_white_session_id (v : option string) (g : t) : t :=
  {| game_code := game_code g; status := status g;
     white_prompt := white_prompt g; black_prompt := black_prompt g;
     white_session_id := v; black_session_id := black_session_id g;
     board_fen := board_fen g; current_turn := current_turn g;
     result := result g; is_paused := is_paused g |}.

Definition set_black_session_id (v : option string) (g : t) : t :=
  {| game_code := game_code g; status := status g;
     white_prompt := white_prompt g; black_prompt := black_prompt g;
     white_session_id := white_session_id g; black_session_id := v;
     board_fen := board_fen g; current_turn := current_turn g;
     result := result g; is_paused := is_paused g |}.

Definition set_position (fen : string) (turn : Color) (g : t) : t :=
  {| game_code := game_code g; status := status g;
     white_prompt := white_prompt g; black_prompt := black_prompt g;
     white_session_id := white_session_id g;
     black_session_id := black_session_id g;
     board_fen := fen; current_turn := turn;
     result := result g; is_paused := is_paused g |}.

Definition set_result (v : option string) (g : t) : t :=
  {| game_code := game_code g; status := status g;
     white_prompt := white_prompt g; black_prompt := black_prompt g;
     white_session_id := white_session_id g;
     black_session_id := black_session_id g;
     board_fen := board_fen g; current_turn := current_turn g;
     result := v; is_paused := is_paused g |}.
End Game.

(** A row of the [moves] table ([id] and [created_at] are generated). *)
Module Move.
Record t := {
  game_code : string;
  move_number : nat;
  color : Color;
  move_uci : string;
  move_san : string;
  comment : option string;
  was_fallback : bool
}.
End Move.

(** The two tables, as the session sees them after a commit. *)
Record Database := {
  games : gmap string Game.t;
  moves : list Move.t
}.

(** ** [schemas.py]: the event models

    A pydantic model is built from keyword arguments: each declared field takes
    its argument, or its default; a required field without argument is a
    [ValidationError]; keyword arguments that name no declared field are
    ignored (pydantic's default [extra] setting). [model_dump_json] writes the
    declared fields. *)

Inductive pyval :=
| VNone
| VStr (s : string)
| VInt (n : nat)
| VBool (b : bool).

Definition of_optional (o : option string) : pyval :=
  match o with Some s => VStr s | None => VNone end.

Definition kwargs : Type := list (string * pyval).

Fixpoint kwargs_get (kw : kwargs) (name : string) : option pyval :=
  match kw with
  | [] => None
  | (k, v) :: kw' => if String.eqb k name then Some v else kwargs_get kw' name
  end.

(** A declared field: its name and its default, if it has one. *)
Definition schema : Type := list (string * option pyval).

Fixpoint model_init (fields : schema) (kw : kwargs) : option kwargs :=
  match fields with
  | [] => Some []
  | (name, dflt) :: fields' =>
      match (match kwargs_get kw name with Some v => Some v | None => dflt end),
            model_init fields' kw with
      | Some v, Some rest => Some ((name, v) :: rest)
      | _, _ => None
      end
  end.

Definition MoveEvent : schema :=
  [ ("type", Some (VStr "move")); ("move_number", None); ("color", None);
    ("move_uci", None); ("move_san", None); ("comment", None);
    ("was_fallback", None); ("board_fen", None); ("board_ascii", None) ].

Definition GameOverEvent : schema :=
  [ ("type", Some (VStr "game_over")); ("result", None); ("termination", None) ].

Definition PromptSubmittedEvent : schema :=
  [ ("type", Some (VStr "prompt_submitted")); ("color", None) ].

Definition GameStartedEvent : schema :=
  [ ("type", Some (VStr "game_started")) ].

(** ** Exceptions that can leave the modelled functions *)

Inductive MoveError := InvalidMoveError | IllegalMoveError | AmbiguousMoveError.

Inductive exn :=
| ChessError (e : MoveError)
| IndexError
| ValueError
| ValidationError.

(** ** [sse_manager.py]: the event bus

    An [asyncio.Queue] is an object on the heap, named here by a number; the
    lists of [_connections] hold these names, so that [list.remove] takes a
    queue out by identity. An item of a queue is an SSE message, or [None], the
    shutdown signal. A message ["data: {json}\n\n"] is represented by the
    fields its JSON text is written from. *)

Definition sse_message : Type := kwargs.

Module SSEManager.
Record t := {
  _connections : gmap string (list nat);
  queues : gmap nat (list (option sse_message));
  allocated : nat
}.

(** [SSEManager()] *)
Definition init : t :=
  {| _connections := ∅; queues := ∅; allocated := 0 |}.

(** [await queue.put(item)] on an unbounded queue. *)
Definition put (item : option sse_message) (m : t) (q : nat) : t :=
  {| _connections := _connections m;
     queues := alter (λ items, items ++ [item]) q (queues m);
     allocated := allocated m |}.

(** [l.remove(x)]: the list without the first occurrence of [x]. *)
Fixpoint list_remove (x : nat) (l : list nat) : list nat :=
  match l with
  | [] => []
  | y :: l' => if Nat.eqb x y then l' else y :: list_remove x l'
  end.

(** The first two statements of [subscribe]: a new queue, appended to the list
    of the game (a [defaultdict] starts a missing list at []). Returns the
    queue with the new state. *)
Definition subscribe_enter (m : t) (game_code : string) : nat * t :=
  let queue := allocated m in
  (queue,
   {| _connections :=
        <[game_code := default [] (_connections m !! game_code) ++ [queue]]>
          (_connections m);
      queues := <[queue := []]> (queues m);
      allocated := S (allocated m) |}).

(** [await queue.get()] when the queue has an item; [None] when it would
    wait. *)
Definition queue_get (m : t) (queue : nat) : option (option sse_message * t) :=
  match queues m !! queue with
  | Some (item :: items) =>
      Some (item,
            {| _connections := _connections m;
               queues := <[queue := items]> (queues m);
               allocated := allocated m |})
  | _ => None
  end.

(** The [finally] clause of [subscribe]. Indexing the [defaultdict] creates a
    missing entry, and [remove] raises [ValueError] for an absent queue. *)
Definition subscribe_exit (m : t) (game_code : string) (queue : nat)
    : t * option exn :=
  let l := default [] (_connections m !! game_code) in
  if existsb (Nat.eqb queue) l then
    let l' := list_remove queue l in
    ({| _connections :=
          match l' with
          | [] => delete game_code (_connections m)
          | _ => <[game_code := l']> (_connections m)
          end;
        queues := queues m;
        allocated := allocated m |}, None)
  else
    ({| _connections := <[game_code := l]> (_connections m);
        queues := queues m;
        allocated := allocated m |}, Some ValueError).

Definition broadcast (m : t) (game_code : string) (event : kwargs) : t :=
  match _connections m !! game_code with
  | None => m
  | Some l => foldl (put (Some event)) m l
  end.

Definition close_game (m : t) (game_code : string) : t :=
  match _connections m !! game_code with
  | None => m
  | Some l => foldl (put None) m l
  end.

Definition get_subscriber_count (m : t) (game_code : string) : nat :=
  length (default [] (_connections m !! game_code)).
End SSEManager.

(** The bus with the [subscribe] generators that are running on it: each one
    holds its game code and its queue between the [append] and the [finally]
    clause. [raised] collects exceptions that left a generator. *)
Record Bus := {
  sse_manager : SSEManager.t;
  streams : list (string * nat);
  delivered : list (nat * sse_message);
  raised : list exn
}.

Definition Bus_init : Bus :=
  {| sse_manager := SSEManager.init; streams := []; delivered := []; raised := [] |}.

(** What the tasks around the match loop do to the bus. A step runs without
    waiting (the queues are unbounded, so [put] returns at once), hence without
    another task in between. [Subscribe] starts a [subscribe] generator, up to
    its first [queue.get()]; [Receive] hands a running generator the next item
    of its queue: an event, which it yields, or the shutdown signal, on which
    it ends; [Disconnect] closes a running generator where it waits;
    [Broadcast] and [CloseGame] are the calls of the other tasks. *)
Inductive bus_action :=
| Subscribe (game_code : string)
| Receive (game_code : string) (queue : nat)
| Disconnect (game_code : string) (queue : nat)
| Broadcast (game_code : string) (event : kwargs)
| CloseGame (game_code : string).

Definition stream_eqb (x y : string * nat) : bool :=
  String.eqb (fst x) (fst y) && Nat.eqb (snd x) (snd y).

Definition is_running (b : Bus) (game_code : string) (queue : nat) : bool :=
  existsb (stream_eqb (game_code, queue)) (streams b).

(** A running generator is closed, or sees the shutdown signal: its [finally]
    clause runs and the generator is gone. *)
Definition stream_end (b : Bus) (game_code : string) (queue : nat) : Bus :=
  let '(m, e) := SSEManager.subscribe_exit (sse_manager b) game_code queue in
  {| sse_manager := m;
     streams := filter (λ x, negb (stream_eqb (game_code, queue) x)) (streams b);
     delivered := delivered b;
     raised := raised b ++ match e with Some x => [x] | None => [] end |}.

Definition bus_step (b : Bus) (a : bus_action) : Bus :=
  match a with
  | Subscribe game_code =>
      let '(queue, m) := SSEManager.subscribe_enter (sse_manager b) game_code in
      {| sse_manager := m; streams := streams b ++ [(game_code, queue)];
         delivered := delivered b; raised := raised b |}
  | Receive game_code queue =>
      if is_running b game_code queue then
        match SSEManager.queue_get (sse_manager b) queue with
        | Some (Some event, m) =>
            {| sse_manager := m; streams := streams b;
               delivered := delivered b ++ [(queue, event)]; raised := raised b |}
        | Some (None, m) =>
            stream_end
              {| sse_manager := m; streams := streams b;
                 delivered := delivered b; raised := raised b |}
              game_code queue
        | None => b
        end
      else b
  | Disconnect game_code queue =>
      if is_running b game_code queue then stream_end b game_code queue else b
  | Broadcast game_code event =>
      {| sse_manager := SSEManager.broadcast (sse_manager b) game_code event;
         streams := streams b; delivered := delivered b; raised := raised b |}
  | CloseGame game_code =>
      {| sse_manager := SSEManager.close_game (sse_manager b) game_code;
         streams := streams b; delivered := delivered b; raised := raised b |}
  end.

Definition bus_run (b : Bus) (actions : list bus_action) : Bus :=
  foldl bus_step b actions.

(** ** python-chess, as the match loop uses it

    The rules engine is a library outside the repository; the loop is modelled
    over its interface. [parse_san] and [parse_uci] return a move or raise one
    of the library's three [ValueError] subclasses: [InvalidMoveError] for a
    token that is not syntactically a move, [IllegalMoveError] for a
    well-formed token that names no legal move of the position,
    [AmbiguousMoveError] for one that names several. *)

Inductive Termination :=
| CHECKMATE | STALEMATE | INSUFFICIENT_MATERIAL | SEVENTYFIVE_MOVES
| FIVEFOLD_REPETITION | FIFTY_MOVES | THREEFOLD_REPETITION
| VARIANT_WIN | VARIANT_LOSS | VARIANT_DRAW.

Module Outcome.
Record t := {
  termination : Termination;
  winner : option bool
}.
End Outcome.

Class RulesEngine := {
  Board : Type;
  ChessMove : Type;
  board_of_fen : string → Board;
  turn : Board → bool;
  legal_moves : Board → list ChessMove;
  parse_san : Board → string → MoveError + ChessMove;
  parse_uci : Board → string → MoveError + ChessMove;
  san : Board → ChessMove → string;
  uci : ChessMove → string;
  push : Board → ChessMove → Board;
  fen : Board → string;
  board_str : Board → string;
  is_game_over : Board → bool;
  outcome : Board → option Outcome.t
}.

(** What the proofs use of the rules of chess: the sides alternate, white moves
    first, a position written to FEN and read back has the same side to move,
    and a position that is not over has a legal move. *)
Class RulesEngineLaws (E : RulesEngine) := {
  turn_push : ∀ (b : Board) (m : ChessMove), turn (push b m) = negb (turn b);
  turn_start : turn (board_of_fen STARTING_FEN) = true;
  turn_fen : ∀ b : Board, turn (board_of_fen (fen b)) = turn b;
  legal_moves_not_over : ∀ b : Board, is_game_over b = false → legal_moves b ≠ []
}.

(** The result of a call that can raise. *)
Inductive py (A : Type) :=
| Return (a : A)
| Raise (e : exn).
Arguments Return {A} a.
Arguments Raise {A} e.

(** ** [backend/game_engine.py] *)

Definition get_legal_moves_san `{RulesEngine} (board : Board) : list string :=
  map (san board) (legal_moves board).

(** Each [try] names the exceptions it swallows; any other one leaves the
    function. *)
Definition validate_and_get_move `{RulesEngine} (board : Board)
    (move_str : option string) : py (option ChessMove) :=
  if negb (truthy move_str) then Return None
  else
    match parse_san board (default "" move_str) with
    | inr m => Return (Some m)
    | inl IllegalMoveError => Raise (ChessError IllegalMoveError)
    | inl InvalidMoveError | inl AmbiguousMoveError =>
        match parse_uci board (default "" move_str) with
        | inr m => Return (Some m)
        | inl InvalidMoveError => Return None
        | inl e => Raise (ChessError e)
        end
    end.

(** [random.choice(list(board.legal_moves))]; [choice] is the number the
    generator draws, reduced to an index of the list. *)
Definition get_random_legal_move `{RulesEngine} (board : Board) (choice : nat)
    : py ChessMove :=
  match legal_moves board !! (choice mod length (legal_moves board)) with
  | Some m => Return m
  | None => Raise IndexError
  end.

Definition termination_name (t : Termination) : string :=
  match t with
  | CHECKMATE => "checkmate"
  | STALEMATE => "stalemate"
  | INSUFFICIENT_MATERIAL => "insufficient_material"
  | SEVENTYFIVE_MOVES => "seventyfive_moves"
  | FIVEFOLD_REPETITION => "fivefold_repetition"
  | FIFTY_MOVES => "fifty_moves"
  | THREEFOLD_REPETITION => "threefold_repetition"
  | _ => "unknown"
  end.

Definition get_game_result `{RulesEngine} (board : Board) : string * string :=
  match outcome board with
  | None => ("unknown", "unknown")
  | Some o =>
      (match Outcome.winner o with
       | None => "draw"
       | Some true => "white_wins"
       | Some false => "black_wins"
       end,
       termination_name (Outcome.termination o))
  end.

(** *** The world around [run_game]

    [persisted] lists the [games] row as each [db.commit()] wrote it,
    [published] the events handed to [sse_manager.broadcast], [oracle_calls]
    the command lines given to the oracle. *)
Record World := {
  db : Database;
  bus : Bus;
  persisted : list Game.t;
  published : list (string * kwargs);
  oracle_calls : list (list string);
  log : list log_record
}.

Definition add_log (records : list log_record) (w : World) : World :=
  {| db := db w; bus := bus w; persisted := persisted w;
     published := published w; oracle_calls := oracle_calls w;
     log := log w ++ records |}.

(** Other tasks run while the loop awaits. *)
Definition others (actions : list bus_action) (w : World) : World :=
  {| db := db w; bus := bus_run (bus w) actions; persisted := persisted w;
     published := published w; oracle_calls := oracle_calls w; log := log w |}.

(** [await sse_manager.broadcast(game_code, event)] *)
Definition publish (game_code : string) (event : kwargs) (w : World) : World :=
  {| db := db w; bus := bus_step (bus w) (Broadcast game_code event);
     persisted := persisted w;
     published := published w ++ [(game_code, event)];
     oracle_calls := oracle_calls w; log := log w |}.

(** [await db.commit()]: the game row and the rows added since the last
    commit reach the tables. *)
Definition commit (game : Game.t) (added : list Move.t) (w : World) : World :=
  {| db := {| games := <[Game.game_code game := game]> (games (db w));
              moves := moves (db w) ++ added |};
     bus := bus w; persisted := persisted w ++ [game];
     published := published w; oracle_calls := oracle_calls w; log := log w |}.

Definition record_call (cmd : list string) (w : World) : World :=
  {| db := db w; bus := bus w; persisted := persisted w;
     published := published w; oracle_calls := oracle_calls w ++ [cmd];
     log := log w |}.

(** What the environment does during one iteration of the loop. *)
Record TurnEnv := {
  before_turn : list bus_action;
  run_oracle : oracle;
  random_choice : nat;
  generate_audio : string → option string;
  before_publish : list bus_action
}.

(** What the environment does during one run: the bus activity during each
    0.1 s sleep of the initial wait, then the iterations. *)
Record Env := {
  sleeps : list (list bus_action);
  turns : list TurnEnv
}.

(** The local variables of the loop. *)
Record Loop `{RulesEngine} := {
  game : Game.t;
  board : Board;
  move_number : nat
}.

Inductive Exit :=
| GameNotFound
| NoViewersAtStart
| NoViewers
| Finished
| Failed (e : exn)
| StillRunning.

Definition Color_eqb (a b : Color) : bool :=
  match a, b with
  | WHITE, WHITE | BLACK, BLACK => true
  | _, _ => false
  end.

(** [f"{x}"] of a [str | None]. *)
Definition fmt (o : option string) : string := default "None" o.

(** The keyword arguments of the [MoveEvent(...)] call. *)
Definition move_event_kwargs (move_number : nat) (color : Color)
    (move_uci move_san : string) (comment : option string) (was_fallback : bool)
    (board_fen board_ascii : string)
    (commentary commentary_audio my_emotion opponent_emotion : option string)
    : kwargs :=
  [ ("move_number", VInt move_number); ("color", VStr (Color_value color));
    ("move_uci", VStr move_uci); ("move_san", VStr move_san);
    ("comment", of_optional comment); ("was_fallback", VBool was_fallback);
    ("board_fen", VStr board_fen); ("board_ascii", VStr board_ascii);
    ("commentary", of_optional commentary);
    ("commentary_audio", of_optional commentary_audio);
    ("my_emotion", of_optional my_emotion);
    ("opponent_emotion", of_optional opponent_emotion) ].

(** The rationale recorded with a fallback move: the notice, then the
    rationale of the response if it has one. *)
Definition fallback_comment (move_str comment : option string) : string :=
  if truthy comment then
    "[FALLBACK - LLM suggested invalid move '" +:+ fmt move_str +:+ "'] "
    +:+ fmt comment
  else "[FALLBACK - LLM suggested invalid move '" +:+ fmt move_str +:+ "']".

(** The move played and the rationale recorded, once the token is resolved
    or found unresolvable. *)
Definition resolve_or_fallback `{RulesEngine} (board : Board) (choice : nat)
    (resolved : option ChessMove) (move_str comment : option string)
    : py (ChessMove * bool * option string) * list log_record :=
  match resolved with
  | Some m => (Return (m, false, comment), [])
  | None =>
      let warned :=
        [(WARNING, "Invalid move from LLM: '" +:+ fmt move_str
                   +:+ "', using random fallback")] in
      match get_random_legal_move board choice with
      | Raise e => (Raise e, warned)
      | Return m =>
          (Return (m, true, Some (fallback_comment move_str comment)), warned)
      end
  end.

(** The first statements of an iteration: the side to move, its stored
    session, and the request to the oracle. A stored session is passed as
    [session_id]; without one the system prompt is passed. *)
Definition current_color `{RulesEngine} (st : Loop) : Color :=
  if turn (board st) then WHITE else BLACK.

Definition stored_session `{RulesEngine} (st : Loop) : option string :=
  if Color_eqb (current_color st) WHITE then Game.white_session_id (game st)
  else Game.black_session_id (game st).

Definition turn_prompt `{RulesEngine} (st : Loop) : string :=
  let user_strategy :=
    if Color_eqb (current_color st) WHITE then Game.white_prompt (game st)
    else Game.black_prompt (game st) in
  build_chess_prompt (Color_value (current_color st)) (fmt user_strategy)
    (board_str (board st)) (get_legal_moves_san (board st)).

Definition session_arg `{RulesEngine} (st : Loop) : option string :=
  if truthy (stored_session st) then stored_session st else None.

Definition system_prompt_arg `{RulesEngine} (st : Loop) : option string :=
  if truthy (stored_session st) then None
  else Some (build_system_prompt (Color_value (current_color st))).

Definition turn_cmd `{RulesEngine} (st : Loop) : list string :=
  claude_cmd (turn_prompt st) (session_arg st) (system_prompt_arg st).

Definition turn_response `{RulesEngine} (e : TurnEnv) (st : Loop) : LLMResponse.t :=
  call_claude_cli (run_oracle e) (turn_prompt st) (session_arg st)
    (system_prompt_arg st).

(** One iteration of the [while] loop, after the viewer check. *)
Definition play_turn `{RulesEngine} (game_code : string) (e : TurnEnv)
    (st : Loop) (w : World) : World * py Loop :=
  let current_color := current_color st in
  let is_white := Color_eqb current_color WHITE in
  let '(llm_response, cli_log) :=
    call_claude_cli_logged (run_oracle e) (turn_prompt st) (session_arg st)
      (system_prompt_arg st) in
  let w := record_call (turn_cmd st) w in
  let w := add_log cli_log w in
  let game :=
    if truthy (LLMResponse.session_id llm_response) then
      if is_white then
        Game.set_white_session_id (LLMResponse.session_id llm_response) (game st)
      else
        Game.set_black_session_id (LLMResponse.session_id llm_response) (game st)
    else game st in
  let '(parsed, parse_log) :=
    parse_chess_response_logged (LLMResponse.text llm_response) in
  let w := add_log parse_log w in
  let move_str := ChessMoveResponse.move parsed in
  let commentary := ChessMoveResponse.commentary parsed in
  match validate_and_get_move (board st) move_str with
  | Raise x => (w, Raise x)
  | Return resolved =>
      let '(chosen, fallback_log) :=
        resolve_or_fallback (board st) (random_choice e) resolved move_str
          (ChessMoveResponse.comment parsed) in
      let w := add_log fallback_log w in
      match chosen with
      | Raise x => (w, Raise x)
      | Return (move, was_fallback, comment) =>
          let move_san := san (board st) move in
          let move_uci := uci move in
          let board := push (board st) move in
          let game :=
            Game.set_position (fen board) (if is_white then BLACK else WHITE) game in
          let db_move :=
            {| Move.game_code := game_code; Move.move_number := move_number st;
               Move.color := current_color; Move.move_uci := move_uci;
               Move.move_san := move_san; Move.comment := comment;
               Move.was_fallback := was_fallback |} in
          let w := commit game [db_move] w in
          let commentary_audio :=
            if truthy commentary then generate_audio e (fmt commentary) else None in
          let w := others (before_publish e) w in
          match
            model_init MoveEvent
              (move_event_kwargs (move_number st) current_color move_uci move_san
                 comment was_fallback (fen board) (board_str board) commentary
                 commentary_audio (ChessMoveResponse.my_emotion parsed)
                 (ChessMoveResponse.opponent_emotion parsed))
          with
          | None => (w, Raise ValidationError)
          | Some move_event =>
              let w := publish game_code move_event w in
              let move_number :=
                if negb is_white then move_number st + 1 else move_number st in
              let w :=
                add_log
                  [(INFO, "Game " +:+ game_code +:+ ": " +:+ Color_value current_color
                          +:+ " played " +:+ move_san)] w in
              (w, Return {| game := game; board := board;
                            move_number := move_number |})
          end
      end
  end.

(** The end of [run_game], after the loop. *)
Definition finish_game `{RulesEngine} (game_code : string) (st : Loop)
    (w : World) : World * Exit :=
  let '(result, termination) := get_game_result (board st) in
  let game := Game.set_result (Some result) (Game.set_status COMPLETED (game st)) in
  let w := commit game [] w in
  match
    model_init GameOverEvent
      [("result", VStr result); ("termination", VStr termination)]
  with
  | None => (w, Failed ValidationError)
  | Some game_over_event =>
      let w := publish game_code game_over_event w in
      (add_log
         [(INFO, "Game " +:+ game_code +:+ " completed: " +:+ result +:+ " by "
                 +:+ termination)] w,
       Finished)
  end.

(** [while not board.is_game_over(): ...] over the iterations the environment
    describes; [StillRunning] when they are used up with the loop still live. *)
Fixpoint game_loop `{RulesEngine} (game_code : string) (turns : list TurnEnv)
    (st : Loop) (w : World) : World * Exit :=
  if is_game_over (board st) then finish_game game_code st w
  else
    match turns with
    | [] => (w, StillRunning)
    | e :: turns' =>
        let w := others (before_turn e) w in
        if Nat.eqb (SSEManager.get_subscriber_count (sse_manager (bus w)) game_code) 0
        then
          let w :=
            add_log
              [(INFO, "Game " +:+ game_code
                      +:+ ": All viewers disconnected, pausing game loop")] w in
          (commit (Game.set_is_paused true (game st)) [] w, NoViewers)
        else
          match play_turn game_code e st w with
          | (w, Raise x) => (w, Failed x)
          | (w, Return st') => game_loop game_code turns' st' w
          end
    end.

(** [for _ in range(max_wait): ...]: [true] on [break], [false] when the
    [else] clause runs. *)
Fixpoint wait_for_subscriber (max_wait : nat) (game_code : string)
    (sleeps : list (list bus_action)) (w : World) : bool * World :=
  match max_wait with
  | 0 => (false, w)
  | S n =>
      if Nat.ltb 0 (SSEManager.get_subscriber_count (sse_manager (bus w)) game_code)
      then (true, w)
      else wait_for_subscriber n game_code (tail sleeps) (others (hd [] sleeps) w)
  end.

(** The rows [select ... where Move.game_code == game_code] ranges over. *)
Definition rows_of (game_code : string) (rows : list Move.t) : list Move.t :=
  filter (λ m, String.eqb (Move.game_code m) game_code) rows.

Definition run_game `{RulesEngine} (game_code : string) (env : Env) (w : World)
    : World * Exit :=
  let w := add_log [(INFO, "Starting game loop for game " +:+ game_code)] w in
  match games (db w) !! game_code with
  | None => (add_log [(ERROR, "Game " +:+ game_code +:+ " not found")] w, GameNotFound)
  | Some game =>
      let board := board_of_fen (Game.board_fen game) in
      match model_init GameStartedEvent [] with
      | None => (w, Failed ValidationError)
      | Some game_started_event =>
          let w := publish game_code game_started_event w in
          let game := Game.set_is_paused false (Game.set_status IN_PROGRESS game) in
          let w := commit game [] w in
          let existing_moves := length (rows_of game_code (moves (db w))) in
          let move_number := existing_moves / 2 + 1 in
          match wait_for_subscriber 100 game_code (sleeps env) w with
          | (false, w) =>
              let w :=
                add_log
                  [(INFO, "Game " +:+ game_code
                          +:+ ": No viewers connected after 10s wait, pausing game loop")]
                  w in
              (commit (Game.set_is_paused true game) [] w, NoViewersAtStart)
          | (true, w) =>
              game_loop game_code (turns env)
                {| game := game; board := board; move_number := move_number |} w
          end
      end
  end.

(** ** [backend/main.py]: the request handlers

    Handlers are modelled one request at a time on the world of the match
    loop. A handler returns its response or the [HTTPException] it raises,
    and the match codes it adds a [run_game] background task for. The
    timestamps of the rows are not modelled. *)

(** [raise HTTPException(status_code=..., detail=...)] *)
Record HTTPException := {
  status_code : nat;
  detail : string
}.

(** [string.ascii_uppercase + string.digits] *)
Definition ALPHABET : string := "ABCDEFGHIJKLMNOPQRSTUVWXYZ0123456789".

(** The source of randomness: the [k]-th number it hands out. *)
Definition Rng : Type := nat → nat.

(** [secrets.choice(seq)]: the element at the index drawn below [len(seq)];
    [IndexError] for an empty sequence. *)
Definition secrets_choice (seq : chars) (n : nat) : option ascii :=
  seq !! (n mod length seq).

(** [''.join(secrets.choice(alphabet) for _ in range(length))], drawing from
    position [pos] of the source on. [None] stands for the [IndexError]. *)
Definition generate_game_code (rng : Rng) (pos : nat) (length : nat)
    : option string :=
  let alphabet := list_ascii_of_string ALPHABET in
  string_of_list_ascii
    <$> mapM (λ i, secrets_choice alphabet (rng (pos + i))) (seq 0 length).

(** What [create_game] comes to: a game, an exception, or a loop that has not
    ended within the attempts looked at. *)
Inductive Created :=
| Created_game (game_code : string) (pos : nat) (w : World)
| Create_raised (e : exn)
| Create_looping.

(** [create_game]: codes are drawn until one is free. *)
Fixpoint create_game (attempts : nat) (rng : Rng) (pos : nat) (w : World)
    : Created :=
  match attempts with
  | 0 => Create_looping
  | S attempts' =>
      match generate_game_code rng pos 6 with
      | None => Create_raised IndexError
      | Some game_code =>
          match games (db w) !! game_code with
          | Some _ => create_game attempts' rng (pos + 6) w
          | None =>
              let w := commit (Game.new game_code) [] w in
              Created_game game_code (pos + 6)
                (add_log [(INFO, "Created new game: " +:+ game_code)] w)
          end
      end
  end.

(** The body of a request to [submit_prompt], once validated. *)
Module SubmitPromptRequest.
Record t := {
  color : Color;
  prompt : string
}.
End SubmitPromptRequest.

Module SubmitPromptResponse.
Record t := {
  message : string;
  game_started : bool
}.
End SubmitPromptResponse.

Module GameResponse.
Record t := {
  game_code : string;
  status : GameStatus;
  white_prompt : option string;
  black_prompt : option string;
  board_fen : string;
  current_turn : Color;
  result : option string;
  moves : list Move.t
}.
End GameResponse.

(** What a handler leaves: the world, its response or the error it raised,
    and the match codes it added a [run_game] background task for. *)
Definition handled (A : Type) : Type := World * (HTTPException + A) * list string.

Definition set_white_prompt (v : option string) (g : Game.t) : Game.t :=
  {| Game.game_code := Game.game_code g; Game.status := Game.status g;
     Game.white_prompt := v; Game.black_prompt := Game.black_prompt g;
     Game.white_session_id := Game.white_session_id g;
     Game.black_session_id := Game.black_session_id g;
     Game.board_fen := Game.board_fen g; Game.current_turn := Game.current_turn g;
     Game.result := Game.result g; Game.is_paused := Game.is_paused g |}.

Definition set_black_prompt (v : option string) (g : Game.t) : Game.t :=
  {| Game.game_code := Game.game_code g; Game.status := Game.status g;
     Game.white_prompt := Game.white_prompt g; Game.black_prompt := v;
     Game.white_session_id := Game.white_session_id g;
     Game.black_session_id := Game.black_session_id g;
     Game.board_fen := Game.board_fen g; Game.current_turn := Game.current_turn g;
     Game.result := Game.result g; Game.is_paused := Game.is_paused g |}.

Definition GameStatus_eqb (a b : GameStatus) : bool :=
  match a, b with
  | WAITING_FOR_PROMPTS, WAITING_FOR_PROMPTS | IN_PROGRESS, IN_PROGRESS
  | COMPLETED, COMPLETED => true
  | _, _ => false
  end.

Definition ascii_upper (c : ascii) : ascii :=
  if in_range 97 122 c then ascii_of_N (code c - 32) else c.

(** [s.capitalize()] on ASCII letters. *)
Definition capitalize (s : string) : string :=
  match s with
  | EmptyString => ""
  | String c s' =>
      String (ascii_upper c)
        (string_of_list_ascii (map ascii_lower (list_ascii_of_string s')))
  end.

(** [x is not None] *)
Definition is_not_None {A : Type} (o : option A) : bool :=
  match o with Some _ => true | None => false end.

Definition internal_server_error : HTTPException :=
  {| status_code := 500; detail := "Internal Server Error" |}.

(** [submit_prompt] *)
Definition submit_prompt (game_code : string) (request : SubmitPromptRequest.t)
    (w : World) : handled SubmitPromptResponse.t :=
  match games (db w) !! game_code with
  | None => (w, inl {| status_code := 404; detail := "Game not found" |}, [])
  | Some game =>
      if negb (GameStatus_eqb (Game.status game) WAITING_FOR_PROMPTS) then
        (w, inl {| status_code := 400; detail := "Game has already started" |}, [])
      else
        let color := SubmitPromptRequest.color request in
        let stored :=
          if Color_eqb color WHITE then
            if is_not_None (Game.white_prompt game) then
              inl {| status_code := 400;
                     detail := "White prompt already submitted" |}
            else
              inr (set_white_prompt (Some (SubmitPromptRequest.prompt request)) game)
          else
            if is_not_None (Game.black_prompt game) then
              inl {| status_code := 400;
                     detail := "Black prompt already submitted" |}
            else
              inr (set_black_prompt (Some (SubmitPromptRequest.prompt request)) game)
        in
        match stored with
        | inl e => (w, inl e, [])
        | inr game =>
            let w := commit game [] w in
            match
              model_init PromptSubmittedEvent [("color", VStr (Color_value color))]
            with
            | None => (w, inl internal_server_error, [])
            | Some event =>
                let w := publish game_code event w in
                let w :=
                  add_log
                    [(INFO, "Game " +:+ game_code +:+ ": " +:+ Color_value color
                            +:+ " prompt submitted")] w in
                let game_started :=
                  is_not_None (Game.white_prompt game)
                  && is_not_None (Game.black_prompt game) in
                let w :=
                  if game_started then
                    add_log
                      [(INFO, "Game " +:+ game_code
                              +:+ ": Both prompts submitted, starting game")] w
                  else w in
                (w,
                 inr {| SubmitPromptResponse.message :=
                          capitalize (Color_value color)
                          +:+ " prompt submitted successfully";
                        SubmitPromptResponse.game_started := game_started |},
                 if game_started then [game_code] else [])
            end
        end
  end.

(** [sorted(l, key=lambda m: (m.move_number, m.color != Color.WHITE))]: the
    key, the order of keys, and the stable sort. *)
Definition move_key (m : Move.t) : nat * bool :=
  (Move.move_number m, negb (Color_eqb (Move.color m) WHITE)).

Definition key_le (a b : nat * bool) : bool :=
  (a.1 <? b.1) || ((a.1 =? b.1) && implb a.2 b.2).

Fixpoint insert_by_key (x : Move.t) (l : list Move.t) : list Move.t :=
  match l with
  | [] => [x]
  | y :: l' =>
      if key_le (move_key x) (move_key y) then x :: l
      else y :: insert_by_key x l'
  end.

Definition sorted (l : list Move.t) : list Move.t := foldr insert_by_key [] l.

(** [get_game]; [loaded] is [game.moves] as the relationship loads it. *)
Definition get_game (game_code : string) (loaded : list Move.t) (w : World)
    : HTTPException + GameResponse.t :=
  match games (db w) !! game_code with
  | None => inl {| status_code := 404; detail := "Game not found" |}
  | Some game =>
      let sorted_moves := sorted loaded in
      inr {| GameResponse.game_code := Game.game_code game;
             GameResponse.status := Game.status game;
             GameResponse.white_prompt := Game.white_prompt game;
             GameResponse.black_prompt := Game.black_prompt game;
             GameResponse.board_fen := Game.board_fen game;
             GameResponse.current_turn := Game.current_turn game;
             GameResponse.result := Game.result game;
             GameResponse.moves := sorted_moves |}
  end.

(** [game_events]: the response streams [sse_manager.subscribe(game_code)],
    which starts when the server iterates it. *)
Definition game_events (game_code : string) (w : World) : handled string :=
  match games (db w) !! game_code with
  | None => (w, inl {| status_code := 404; detail := "Game not found" |}, [])
  | Some game =>
      if Game.is_paused game && GameStatus_eqb (Game.status game) IN_PROGRESS then
        let w :=
          add_log
            [(INFO, "Game " +:+ game_code
                    +:+ ": Viewer connected, resuming paused game")] w in
        (commit (Game.set_is_paused false game) [] w, inr game_code, [game_code])
      else (w, inr game_code, [])
  end.

(** ** A scripted rules engine

    An instance of the interface for running the loop on concrete positions:
    the positions of the game 1.f3 e5 2.g4 Qh4# with their legal moves, in the
    order python-chess lists them. A move that leaves this line leads to
    [off_script], where the script has no replies. A token names a legal move
    by the notation python-chess writes for it, or by its two squares. *)

Module Scripted.

Record position := {
  placement : string;
  counters : string;
  replies : list (string * string * nat);
  result : option Outcome.t
}.

Definition off_script : position :=
  {| placement := "8/8/8/8/8/8/8/8"; counters := "- - 0 1";
     replies := []; result := None |}.

(** The replies of a position: [(uci, san)] pairs, of which [main] continues
    the line at position [next]. *)
Definition script (next : nat) (main : string) (l : list (string * string))
    : list (string * string * nat) :=
  map (λ '(u, s), (u, s, if String.eqb u main then next else 5)) l.

Definition table : list position :=
  [ {| placement := "rnbqkbnr/pppppppp/8/8/8/8/PPPPPPPP/RNBQKBNR";
       counters := "KQkq - 0 1";
       replies :=
         script 1 "f2f3"
           [ ("g1h3", "Nh3"); ("g1f3", "Nf3"); ("b1c3", "Nc3"); ("b1a3", "Na3");
             ("h2h3", "h3"); ("g2g3", "g3"); ("f2f3", "f3"); ("e2e3", "e3");
             ("d2d3", "d3"); ("c2c3", "c3"); ("b2b3", "b3"); ("a2a3", "a3");
             ("h2h4", "h4"); ("g2g4", "g4"); ("f2f4", "f4"); ("e2e4", "e4");
             ("d2d4", "d4"); ("c2c4", "c4"); ("b2b4", "b4"); ("a2a4", "a4") ];
       result := None |};
    {| placement := "rnbqkbnr/pppppppp/8/8/8/5P2/PPPPP1PP/RNBQKBNR";
       counters := "KQkq - 0 1";
       replies :=
         script 2 "e7e5"
           [ ("g8h6", "Nh6"); ("g8f6", "Nf6"); ("b8c6", "Nc6"); ("b8a6", "Na6");
             ("h7h6", "h6"); ("g7g6", "g6"); ("f7f6", "f6"); ("e7e6", "e6");
             ("d7d6", "d6"); ("c7c6", "c6"); ("b7b6", "b6"); ("a7a6", "a6");
             ("h7h5", "h5"); ("g7g5", "g5"); ("f7f5", "f5"); ("e7e5", "e5");
             ("d7d5", "d5"); ("c7c5", "c5"); ("b7b5", "b5"); ("a7a5", "a5") ];
       result := None |};
    {| placement := "rnbqkbnr/pppp1ppp/8/4p3/8/5P2/PPPPP1PP/RNBQKBNR";
       counters := "KQkq - 0 2";
       replies :=
         script 3 "g2g4"
           [ ("g1h3", "Nh3"); ("e1f2", "Kf2"); ("b1c3", "Nc3"); ("b1a3", "Na3");
             ("f3f4", "f4"); ("h2h3", "h3"); ("g2g3", "g3"); ("e2e3", "e3");
             ("d2d3", "d3"); ("c2c3", "c3"); ("b2b3", "b3"); ("a2a3", "a3");
             ("h2h4", "h4"); ("g2g4", "g4"); ("e2e4", "e4"); ("d2d4", "d4");
             ("c2c4", "c4"); ("b2b4", "b4"); ("a2a4", "a4") ];
       result := None |};
    {| placement := "rnbqkbnr/pppp1ppp/8/4p3/6P1/5P2/PPPPP2P/RNBQKBNR";
       counters := "KQkq - 0 2";
       replies :=
         script 4 "d8h4"
           [ ("g8e7", "Ne7"); ("g8h6", "Nh6"); ("g8f6", "Nf6"); ("f8e7", "Be7");
             ("f8d6", "Bd6"); ("f8c5", "Bc5"); ("f8b4", "Bb4"); ("f8a3", "Ba3");
             ("e8e7", "Ke7"); ("d8e7", "Qe7"); ("d8f6", "Qf6"); ("d8g5", "Qg5");
             ("d8h4", "Qh4#"); ("b8c6", "Nc6"); ("b8a6", "Na6");
             ("h7h6", "h6"); ("g7g6", "g6"); ("f7f6", "f6"); ("d7d6", "d6");
             ("c7c6", "c6"); ("b7b6", "b6"); ("a7a6", "a6"); ("e5e4", "e4");
             ("h7h5", "h5"); ("g7g5", "g5"); ("f7f5", "f5"); ("d7d5", "d5");
             ("c7c5", "c5"); ("b7b5", "b5"); ("a7a5", "a5") ];
       result := None |};
    {| placement := "rnb1kbnr/pppp1ppp/8/4p3/6Pq/5P2/PPPPP2P/RNBQKBNR";
       counters := "KQkq - 1 3";
       replies := [];
       result := Some {| Outcome.termination := CHECKMATE;
                         Outcome.winner := Some false |} |} ].

Record board := {
  white_to_move : bool;
  at_position : nat
}.

Definition here (b : board) : position := nth (at_position b) table off_script.

Definition fen (b : board) : string :=
  placement (here b) +:+ (if white_to_move b then " w " else " b ")
  +:+ counters (here b).

(** [chess.Board(fen)] for the positions of the script; any other text is read
    as the start position. *)
Definition board_of_fen (s : string) : board :=
  default {| white_to_move := true; at_position := 0 |}
    (List.find (λ b, String.eqb (fen b) s)
       (flat_map
          (λ n, [ {| white_to_move := true; at_position := n |};
                  {| white_to_move := false; at_position := n |} ])
          (seq 0 6))).

(** [str(board)]: the ranks of the placement, squares separated by spaces. *)
Fixpoint dots (n : nat) : list ascii :=
  match n with 0 => [] | S n' => "."%char :: dots n' end.

Definition squares_of (c : ascii) : list ascii :=
  if in_range 49 56 c then dots (N.to_nat (code c) - 48) else [c].

Fixpoint spaced (l : list ascii) : list ascii :=
  match l with
  | [] => []
  | [c] => [c]
  | c :: l' => c :: " "%char :: spaced l'
  end.

Fixpoint ranks (acc : list ascii) (l : list ascii) : list (list ascii) :=
  match l with
  | [] => [acc]
  | c :: l' =>
      if Ascii.eqb c "/" then acc :: ranks [] l' else ranks (acc ++ squares_of c) l'
  end.

Definition board_str (b : board) : string :=
  join lf
    (map (λ r, string_of_list_ascii (spaced r))
       (ranks [] (list_ascii_of_string (placement (here b))))).

Definition find_uci (b : board) (m : string) : option (string * string * nat) :=
  List.find (λ '(u, _, _), String.eqb u m) (replies (here b)).

Definition legal_moves (b : board) : list string :=
  map (λ '(u, _, _), u) (replies (here b)).

Definition san (b : board) (m : string) : string :=
  match find_uci b m with
  | Some (_, s, _) => s
  | None => "--"
  end.

Definition push (b : board) (m : string) : board :=
  {| white_to_move := negb (white_to_move b);
     at_position :=
       if String.eqb m "0000" then at_position b
       else match find_uci b m with
            | Some (_, _, n) => n
            | None => 5
            end |}.

(** [SAN_REGEX] of python-chess:
    [^([NBKRQ])?([a-h])?([1-8])?[\-x]?([a-h][1-8])(=?[nbrqkNBRQK])?[\+#]?\Z] *)
Definition SAN_REGEX : regex :=
  (Opt (Chr (one_of "NBKRQ")) +> Opt (Chr (one_of "abcdefgh"))
   +> Opt (Chr (one_of "12345678")) +> Opt (Chr (one_of "-x"))
   +> Chr (one_of "abcdefgh") +> Chr (one_of "12345678")
   +> Opt (Opt (Chr (is_char "=")) +> Chr (one_of "nbrqkNBRQK"))
   +> Opt (Chr (one_of "+#")))%re.

(** [pattern.match(s)] for a pattern between [^] and [\Z]. *)
Definition fullmatch (r : regex) (s : string) : bool :=
  match
    rmatch r None (list_ascii_of_string s) None
      (λ _ rest _, match rest with [] => Some tt | _ => None end)
  with
  | Some _ => true
  | None => false
  end.

(** A token without its check or mate mark. *)
Definition unmarked (s : string) : string :=
  match rev (list_ascii_of_string s) with
  | c :: l => if one_of "+#" c then string_of_list_ascii (rev l) else s
  | [] => s
  end.

(** The squares of a token written as [e2e4], [e2-e4] or [e2xe4]. *)
Definition squares (token : string) : string :=
  string_of_list_ascii
    (List.filter (λ c, negb (one_of "-x+#" c)) (list_ascii_of_string token)).

Definition named_by (token : string) (b : board) : list string :=
  map (λ '(u, _, _), u)
    (filter
       (λ '(u, s, _),
          String.eqb (unmarked s) (unmarked token) || String.eqb u (squares token))
       (replies (here b))).

Definition is_in (s : string) (l : list string) : bool := existsb (String.eqb s) l.

Definition parse_san (b : board) (token : string) : MoveError + string :=
  if is_in token ["O-O"; "O-O+"; "O-O#"; "0-0"; "0-0+"; "0-0#";
                  "O-O-O"; "O-O-O+"; "O-O-O#"; "0-0-0"; "0-0-0+"; "0-0-0#"]
  then
    match named_by token b with
    | m :: _ => inr m
    | [] => inl IllegalMoveError
    end
  else if fullmatch SAN_REGEX token then
    match named_by token b with
    | [m] => inr m
    | [] => inl IllegalMoveError
    | _ => inl AmbiguousMoveError
    end
  else if is_in token ["--"; "Z0"; "0000"; "@@@@"] then inr "0000"
  else inl InvalidMoveError.

(** The syntax [Move.from_uci] accepts: two squares and an optional piece. *)
Definition UCI_REGEX : regex :=
  (Chr (one_of "abcdefgh") +> Chr (one_of "12345678")
   +> Chr (one_of "abcdefgh") +> Chr (one_of "12345678")
   +> Opt (Chr (one_of "nbrqk")))%re.

Definition parse_uci (b : board) (token : string) : MoveError + string :=
  if String.eqb token "0000" then inr "0000"
  else if fullmatch UCI_REGEX token then
    if is_in token (legal_moves b) then inr token else inl IllegalMoveError
  else inl InvalidMoveError.

Definition is_game_over (b : board) : bool :=
  match replies (here b) with [] => true | _ => false end.

Definition engine : RulesEngine :=
  Build_RulesEngine board string board_of_fen white_to_move legal_moves
    parse_san parse_uci san (λ m, m) push fen board_str is_game_over
    (λ b, result (here b)).

End Scripted.

#[global] Existing Instance Scripted.engine.


(** ** A concrete run: one viewer, and an oracle that plays 1.f3 e5 2.g4 Qh4# *)

Definition reply (result : string) (session : string) : oracle :=
  λ _, CliExit 0 "" "" (JSONObject (Some result) (Some (Some session))).

Definition quiet_turn (o : oracle) : TurnEnv :=
  {| before_turn := []; run_oracle := o; random_choice := 0;
     generate_audio := λ _, None; before_publish := [] |}.

Definition sample_game : Game.t :=
  {| Game.game_code := "AB12CD"; Game.status := WAITING_FOR_PROMPTS;
     Game.white_prompt := Some "play badly"; Game.black_prompt := Some "punish";
     Game.white_session_id := None; Game.black_session_id := None;
     Game.board_fen := STARTING_FEN; Game.current_turn := WHITE;
     Game.result := None; Game.is_paused := false |}.

Definition sample_world : World :=
  {| db := {| games := {[ "AB12CD" := sample_game ]}; moves := [] |};
     bus := bus_run Bus_init [Subscribe "AB12CD"];
     persisted := []; published := []; oracle_calls := []; log := [] |}.

Definition fools_mate : Env :=
  {| sleeps := [];
     turns :=
       [ quiet_turn (reply ("MOVE: f3" +:+ lf +:+ "COMMENT: a bold start"
                            +:+ lf +:+ "MY_EMOTION: overjoyed") "w-1");
         quiet_turn (reply ("MOVE: e5" +:+ lf +:+ "COMMENTARY: Black takes the centre!"
                            +:+ lf +:+ "MY_EMOTION: predator") "b-1");
         quiet_turn (reply ("MOVE: g4" +:+ lf +:+ "COMMENT: faster!") "w-1");
         quiet_turn (reply ("MOVE: Qh4#" +:+ lf +:+ "COMMENT: mate") "b-1") ] |}.

(** Further inputs: a loop at the start position, and iterations with a
    particular oracle. *)

Definition no_label_text : string := "I will play e4".

Definition sample_loop : @Loop Scripted.engine :=
  {| game := Game.set_is_paused false (Game.set_status IN_PROGRESS sample_game);
     board := board_of_fen STARTING_FEN;
     move_number := 1 |}.

Definition says_Qh5 : TurnEnv :=
  quiet_turn (reply ("MOVE: Qh5" +:+ lf +:+ "COMMENT: attack!") "w-1").

Definition says_f3_with_feeling : TurnEnv :=
  {| before_turn := [];
     run_oracle :=
       reply ("MOVE: f3" +:+ lf +:+ "COMMENT: a bold start" +:+ lf
              +:+ "COMMENTARY: What an opening!" +:+ lf
              +:+ "MY_EMOTION: predator" +:+ lf
              +:+ "OPPONENT_EMOTION: stone_wall") "w-1";
     random_choice := 0;
     generate_audio := λ _, Some "UklGRg==";
     before_publish := [] |}.

Definition not_found : TurnEnv := quiet_turn (λ _, CliNotFound).

Definition raw_output : TurnEnv :=
  quiet_turn (λ _, CliExit 0 "MOVE: f3" "" JSONDecodeError).

(** An oracle that opens a new session on its second call for white. *)
Definition session_drift : Env :=
  {| sleeps := [];
     turns :=
       [ quiet_turn (reply "MOVE: f3" "w-1");
         quiet_turn (reply "MOVE: e5" "b-1");
         quiet_turn (reply "MOVE: g4" "w-2");
         quiet_turn (reply "MOVE: Qh4#" "b-1") ] |}.

(** * Specification vocabulary

    The predicates and summaries the statements below are written with. *)

(** ** The parser *)

(** The continuation [re.search] starts a match with. *)
Definition found (prev : option ascii) (s : chars) (g : option chars)
    : option rmatch_obj :=
  Some (MatchObj g prev s).

(** A field is absent, or one of the nine tags. *)
Definition emotion_ok (o : option string) : Prop :=
  o = None ∨ ∃ e, o = Some e ∧ e ∈ VALID_EMOTIONS.

(** What the check does with the field the pattern extracted. *)
Definition checked (extracted validated : option string) : Prop :=
  match extracted with
  | None => validated = None
  | Some e =>
      validated = Some (if bool_decide (e ∈ VALID_EMOTIONS) then e else "stone_wall")
  end.

(** The warning the check logs for a value outside the list. *)
Definition emotion_warnings (field : string) (extracted : option string)
    : list log_record :=
  match extracted with
  | Some e =>
      if bool_decide (e ∈ VALID_EMOTIONS) then []
      else [(WARNING, "Invalid " +:+ field +:+ ": " +:+ e
                      +:+ ", defaulting to stone_wall")]
  | None => []
  end.

(** A label is found in a text when some position of the text starts with
    it, letter case ignored. *)
Fixpoint starts_with_ci (label s : chars) : bool :=
  match label, s with
  | [], _ => true
  | c :: label', d :: s' => is_char_ci c d && starts_with_ci label' s'
  | _ :: _, [] => false
  end.

Fixpoint contains_ci (label s : chars) : bool :=
  starts_with_ci label s
  || match s with
     | [] => false
     | _ :: s' => contains_ci label s'
     end.

Definition has_label (label txt : string) : bool :=
  contains_ci (list_ascii_of_string label) (list_ascii_of_string txt).

(** [pattern.match(s, k)]: the attempt to match at position [k]. *)
Definition match_at (r : regex) (s : chars) (k : nat) : option rmatch_obj :=
  rmatch r (last (take k s)) (drop k s) None found.

(** A match at the first position of the text that has one. *)
Definition first_match (r : regex) (s : chars) (m : rmatch_obj) : Prop :=
  ∃ k, k ≤ length s ∧ match_at r s k = Some m
       ∧ ∀ j, j < k → match_at r s j = None.

(** The first match of the move pattern in a text: group 1 of [re.search]. *)
Definition first_potential_move (txt : string) : option string :=
  (λ m, string_of_list_ascii (default [] (group1 m)))
    <$> search POTENTIAL_MOVE_re (list_ascii_of_string txt).

(** ** One iteration of the loop *)

(** The move token an iteration hands to the resolver. *)
Definition turn_token `{RulesEngine} (e : TurnEnv) (st : Loop) : option string :=
  ChessMoveResponse.move
    (parse_chess_response (LLMResponse.text (turn_response e st))).

(** The fields [MoveEvent(...)] keeps of its keyword arguments. *)
Definition move_event (move_number : nat) (color : Color)
    (move_uci move_san : string) (comment : option string) (was_fallback : bool)
    (board_fen board_ascii : string) : kwargs :=
  [ ("type", VStr "move"); ("move_number", VInt move_number);
    ("color", VStr (Color_value color)); ("move_uci", VStr move_uci);
    ("move_san", VStr move_san); ("comment", of_optional comment);
    ("was_fallback", VBool was_fallback); ("board_fen", VStr board_fen);
    ("board_ascii", VStr board_ascii) ].

Definition MoveEvent_fields : list string :=
  [ "type"; "move_number"; "color"; "move_uci"; "move_san"; "comment";
    "was_fallback"; "board_fen"; "board_ascii" ].

Definition dropped_arguments : list string :=
  [ "commentary"; "commentary_audio"; "my_emotion"; "opponent_emotion" ].

(** The game object after the session update of an iteration. *)
Definition with_session `{RulesEngine} (e : TurnEnv) (st : Loop) : Game.t :=
  let sid := LLMResponse.session_id (turn_response e st) in
  if truthy sid then
    if Color_eqb (current_color st) WHITE then Game.set_white_session_id sid (game st)
    else Game.set_black_session_id sid (game st)
  else game st.

Definition other_color (c : Color) : Color :=
  match c with WHITE => BLACK | BLACK => WHITE end.

(** The state of the loop after an iteration that played [m]. *)
Definition after_move `{RulesEngine} (e : TurnEnv) (st : Loop) (m : ChessMove)
    : Loop :=
  {| game :=
       Game.set_position (fen (push (board st) m))
         (other_color (current_color st)) (with_session e st);
     board := push (board st) m;
     move_number :=
       if negb (turn (board st)) then move_number st + 1 else move_number st |}.

(** The row an iteration adds to the [moves] table. *)
Definition move_row `{RulesEngine} (game_code : string) (st : Loop)
    (m : ChessMove) (was_fallback : bool) (comment : option string) : Move.t :=
  {| Move.game_code := game_code; Move.move_number := move_number st;
     Move.color := current_color st; Move.move_uci := uci m;
     Move.move_san := san (board st) m; Move.comment := comment;
     Move.was_fallback := was_fallback |}.

(** The event an iteration publishes. *)
Definition move_event_of `{RulesEngine} (st : Loop) (m : ChessMove)
    (was_fallback : bool) (comment : option string) : kwargs :=
  move_event (move_number st) (current_color st) (uci m) (san (board st) m)
    comment was_fallback (fen (push (board st) m)) (board_str (push (board st) m)).

(** How the move of an iteration was chosen: resolved from the token, or drawn
    from the legal moves when the resolver returned nothing. *)
Definition chosen `{RulesEngine} (e : TurnEnv) (st : Loop) (m : ChessMove)
    (was_fallback : bool) (comment : option string) : Prop :=
  let parsed := parse_chess_response (LLMResponse.text (turn_response e st)) in
  let move_str := ChessMoveResponse.move parsed in
  (validate_and_get_move (board st) move_str = Return (Some m)
   ∧ was_fallback = false ∧ comment = ChessMoveResponse.comment parsed)
  ∨ (validate_and_get_move (board st) move_str = Return None
     ∧ get_random_legal_move (board st) (random_choice e) = Return m
     ∧ was_fallback = true
     ∧ comment = Some (fallback_comment move_str (ChessMoveResponse.comment parsed))).

(** Why an iteration raised: in the resolver, or drawing the fallback move. *)
Definition raised_by `{RulesEngine} (e : TurnEnv) (st : Loop) (x : exn) : Prop :=
  let parsed := parse_chess_response (LLMResponse.text (turn_response e st)) in
  let move_str := ChessMoveResponse.move parsed in
  validate_and_get_move (board st) move_str = Raise x
  ∨ (validate_and_get_move (board st) move_str = Return None
     ∧ get_random_legal_move (board st) (random_choice e) = Raise x).

(** The response of a failed call: no text, and an error message. *)
Definition empty_response (r : LLMResponse.t) : Prop :=
  LLMResponse.text r = "" ∧ is_Some (LLMResponse.error r).

(** The iteration substitutes a legal move, recorded and published with the
    fallback flag and a rationale that begins with the bracketed notice. *)
Definition fallback_played `{RulesEngine} (game_code : string) (e : TurnEnv)
    (st : Loop) (w : World) : Prop :=
  ∃ m w' notice,
    play_turn game_code e st w = (w', Return (after_move e st m))
    ∧ m ∈ legal_moves (board st)
    ∧ String.prefix "[FALLBACK - LLM suggested invalid move '" notice = true
    ∧ moves (db w') = moves (db w) ++ [move_row game_code st m true (Some notice)]
    ∧ published w' =
        published w ++ [(game_code, move_event_of st m true (Some notice))].

Definition session_of (c : Color) (g : Game.t) : option string :=
  match c with
  | WHITE => Game.white_session_id g
  | BLACK => Game.black_session_id g
  end.

(** ** Runs of the loop *)

(** The suspended flag is set only on a match in progress. *)
Definition paused_only_running (g : Game.t) : Prop :=
  Game.is_paused g = true → Game.status g = IN_PROGRESS.

Definition running (g : Game.t) : Prop :=
  Game.status g = IN_PROGRESS ∧ Game.is_paused g = false.

(** What a run wrote, and how the last write relates to the way it ended. *)
Definition ends_with (exit : Exit) (l : list Game.t) : Prop :=
  match exit with
  | GameNotFound => l = []
  | NoViewersAtStart | NoViewers =>
      ∃ g, last l = Some g ∧ Game.is_paused g = true ∧ Game.status g = IN_PROGRESS
  | Finished =>
      ∃ g, last l = Some g ∧ Game.is_paused g = false ∧ Game.status g = COMPLETED
  | Failed _ | StillRunning => True
  end.

(** The [k]-th row of a match, counted from 0, has number [k / 2 + 1] and is
    white's when [k] is even. *)
Definition numbered (game_code : string) (rows : list Move.t) : Prop :=
  ∀ k row,
    rows_of game_code rows !! k = Some row →
    Move.move_number row = k / 2 + 1
    ∧ Move.color row = (if Nat.even k then WHITE else BLACK).

(** The tables agree on a match: its rows are numbered, its row is stored
    under its code, and the side to move of its position is white exactly
    when the number of its rows is even. *)
Definition consistent `{RulesEngine} (game_code : string) (d : Database) : Prop :=
  numbered game_code (moves d)
  ∧ ∀ g, games d !! game_code = Some g →
         Game.game_code g = game_code
         ∧ turn (board_of_fen (Game.board_fen g))
           = Nat.even (length (rows_of game_code (moves d))).

(** Both plies of a full turn carry its number. *)
Definition paired (game_code : string) (rows : list Move.t) : Prop :=
  ∀ j white black,
    rows_of game_code rows !! (2 * j) = Some white →
    rows_of game_code rows !! (2 * j + 1) = Some black →
    Move.move_number white = j + 1 ∧ Move.color white = WHITE
    ∧ Move.move_number black = j + 1 ∧ Move.color black = BLACK.

(** What holds each time the loop reaches its test. *)
Definition numbering_invariant `{RulesEngine} (game_code : string) (st : Loop)
    (w : World) : Prop :=
  let n := length (rows_of game_code (moves (db w))) in
  numbered game_code (moves (db w))
  ∧ games (db w) !! game_code = Some (game st)
  ∧ Game.game_code (game st) = game_code
  ∧ turn (board_of_fen (Game.board_fen (game st))) = turn (board st)
  ∧ turn (board st) = Nat.even n
  ∧ move_number st = n / 2 + 1.

(** ** The event bus *)

(** The queues of the running streams of a match code, oldest first. *)
Definition queues_of (game_code : string) (l : list (string * nat)) : list nat :=
  (filter (λ x, x.1 = game_code) l).*2.

(** What every reachable state of the bus satisfies: the list of a code holds
    the queues of its running streams, no list is empty, queues are distinct
    and allocated, and no generator has raised. *)
Definition bus_invariant (b : Bus) : Prop :=
  (∀ c, default [] (SSEManager._connections (sse_manager b) !! c)
        = queues_of c (streams b))
  ∧ (∀ c, SSEManager._connections (sse_manager b) !! c ≠ Some [])
  ∧ NoDup (streams b).*2
  ∧ Forall (λ q, q < SSEManager.allocated (sse_manager b)) (streams b).*2
  ∧ raised b = [].

(** A running stream ends: the consumer closes it, or it takes the shutdown
    signal from its queue. *)
Definition stream_ends (b : Bus) (c : string) (q : nat) (b' : Bus) : Prop :=
  b' = bus_step b (Disconnect c q)
  ∨ (∃ m, SSEManager.queue_get (sse_manager b) q = Some (None, m)
          ∧ b' = bus_step b (Receive c q)).

(** * Further vocabulary *)

(** ** Texts in the requested format *)

(** [s.strip()] of a string. *)
Definition str_strip (s : string) : string :=
  string_of_list_ascii (strip (list_ascii_of_string s)).

Definition formatted_response
    (move comment commentary my_emotion opponent_emotion : string) : string :=
  "MOVE: " +:+ move +:+ lf
  +:+ "COMMENT: " +:+ comment +:+ lf
  +:+ "COMMENTARY: " +:+ commentary +:+ lf
  +:+ "MY_EMOTION: " +:+ my_emotion +:+ lf
  +:+ "OPPONENT_EMOTION: " +:+ opponent_emotion.

Definition one_line (s : string) : bool :=
  negb (String.eqb s "") && forallb dot (list_ascii_of_string s)
  && String.eqb (str_strip s) s.

Definition is_word (s : string) : bool :=
  negb (String.eqb s "") && forallb not_space (list_ascii_of_string s).

Definition label_free (s : string) : bool :=
  forallb (λ label, negb (has_label label s))
    ["COMMENT:"; "COMMENTARY:"; "MY_EMOTION:"; "OPPONENT_EMOTION:"].

Fixpoint clear_before (label pre s : chars) : bool :=
  match pre with
  | [] => true
  | _ :: pre' => negb (starts_with_ci label (pre ++ s)) && clear_before label pre' s
  end.

Definition sp : ascii := " "%char.

Definition well_formed (move comment commentary my_emotion opponent_emotion : string)
    : bool :=
  one_line move && one_line comment && one_line commentary
  && is_word my_emotion && is_word opponent_emotion
  && label_free move && label_free comment && label_free commentary
  && label_free my_emotion.

(** The emotion the parser returns for a word [e]. *)
Definition emotion_of (e : string) : string :=
  if bool_decide (e ∈ VALID_EMOTIONS) then e else "stone_wall".

Fixpoint eqb_ci (a b : chars) : bool :=
  match a, b with
  | [], [] => true
  | c :: a', d :: b' => is_char_ci c d && eqb_ci a' b'
  | _, _ => false
  end.

(** A label in any letter case. *)
Definition is_label (label s : string) : bool :=
  eqb_ci (list_ascii_of_string label) (list_ascii_of_string s).

Definition blank (s : string) : bool := forallb isspace (list_ascii_of_string s).

(** The start of a line's content: a character other than white space, then
    anything up to the line break. *)
Definition line_content (s : string) : bool :=
  match list_ascii_of_string s with
  | c :: v => negb (isspace c) && forallb dot (c :: v)
  | [] => false
  end.

(** What follows a line: nothing, or a line break and more text. *)
Definition line_end (s : string) : bool :=
  match list_ascii_of_string s with
  | c :: _ => Ascii.eqb c newline
  | [] => true
  end.

Fixpoint group_free (r : regex) : bool :=
  match r with
  | Cat r1 r2 | Alt r1 r2 => group_free r1 && group_free r2
  | Opt r1 => group_free r1
  | Group _ => false
  | _ => true
  end.

(** A field that is present lies within one line and has no white space at
    either end. *)
Definition single_line (field : option string) : Prop :=
  match field with
  | Some v => forallb dot (list_ascii_of_string v) = true ∧ str_strip v = v
  | None => True
  end.

(** ** The steps of a run *)

(** The number of viewers the loop sees for a match. *)
Definition viewers (game_code : string) (w : World) : nat :=
  SSEManager.get_subscriber_count (sse_manager (bus w)) game_code.

(** The world when the pause of an iteration is committed. *)
Definition paused_world `{RulesEngine} (game_code : string) (st : Loop) (w : World)
    : World :=
  commit (Game.set_is_paused true (game st)) []
    (add_log
       [(INFO, "Game " +:+ game_code
               +:+ ": All viewers disconnected, pausing game loop")] w).

(** The runs of the [while] loop of [run_game], iteration by iteration. *)
Inductive loop_run `{RulesEngine} (game_code : string)
    : Loop → World → World → Exit → Prop :=
| loop_over st w :
    is_game_over (board st) = true →
    loop_run game_code st w (finish_game game_code st w).1
      (finish_game game_code st w).2
| loop_cut st w :
    is_game_over (board st) = false →
    loop_run game_code st w w StillRunning
| loop_pause st w e :
    is_game_over (board st) = false →
    viewers game_code (others (before_turn e) w) = 0 →
    loop_run game_code st w
      (paused_world game_code st (others (before_turn e) w)) NoViewers
| loop_raise st w e w' x :
    is_game_over (board st) = false →
    viewers game_code (others (before_turn e) w) ≠ 0 →
    play_turn game_code e st (others (before_turn e) w) = (w', Raise x) →
    loop_run game_code st w w' (Failed x)
| loop_turn st w e w' st' w'' exit :
    is_game_over (board st) = false →
    viewers game_code (others (before_turn e) w) ≠ 0 →
    play_turn game_code e st (others (before_turn e) w) = (w', Return st') →
    loop_run game_code st' w' w'' exit →
    loop_run game_code st w w'' exit.

Definition game_started_event : kwargs := [("type", VStr "game_started")].

Definition game_over_event (result termination : string) : kwargs :=
  [("type", VStr "game_over"); ("result", VStr result);
   ("termination", VStr termination)].

(** The values [get_game_result] can return. *)
Definition GAME_RESULTS : list string :=
  ["white_wins"; "black_wins"; "draw"; "unknown"].

Definition TERMINATIONS : list string :=
  ["checkmate"; "stalemate"; "insufficient_material"; "seventyfive_moves";
   "fivefold_repetition"; "fifty_moves"; "threefold_repetition"; "unknown"].

(** The world after the first statements of [run_game] for a stored match:
    the start is logged and announced, and the row is committed as running. *)
Definition opened (game_code : string) (g0 : Game.t) (w : World) : World :=
  commit (Game.set_is_paused false (Game.set_status IN_PROGRESS g0)) []
    (publish game_code game_started_event
       (add_log [(INFO, "Starting game loop for game " +:+ game_code)] w)).

(** The local variables when the loop is entered. *)
Definition first_state `{RulesEngine} (game_code : string) (g0 : Game.t) (w : World)
    : Loop :=
  {| game := Game.set_is_paused false (Game.set_status IN_PROGRESS g0);
     board := board_of_fen (Game.board_fen g0);
     move_number := length (rows_of game_code (moves (db w))) / 2 + 1 |}.

(** The world when the pause at the end of the wait is committed. *)
Definition timed_out (game_code : string) (g0 : Game.t) (w : World) : World :=
  commit
    (Game.set_is_paused true
       (Game.set_is_paused false (Game.set_status IN_PROGRESS g0))) []
    (add_log
       [(INFO, "Game " +:+ game_code
               +:+ ": No viewers connected after 10s wait, pausing game loop")] w).

(** An event tells what a row records. *)
Definition announces (game_code : string) (row : Move.t) (ev : string * kwargs)
    : Prop :=
  ev.1 = game_code ∧ Move.game_code row = game_code
  ∧ kwargs_get ev.2 "type" = Some (VStr "move")
  ∧ kwargs_get ev.2 "move_number" = Some (VInt (Move.move_number row))
  ∧ kwargs_get ev.2 "color" = Some (VStr (Color_value (Move.color row)))
  ∧ kwargs_get ev.2 "move_uci" = Some (VStr (Move.move_uci row))
  ∧ kwargs_get ev.2 "move_san" = Some (VStr (Move.move_san row))
  ∧ kwargs_get ev.2 "comment" = Some (of_optional (Move.comment row))
  ∧ kwargs_get ev.2 "was_fallback" = Some (VBool (Move.was_fallback row)).

(** What a run of the loop leaves behind: the rows it added, the events it
    published for them, and the closing event of a finished match. *)
Definition loop_trace (game_code : string) (w w' : World) (exit : Exit)
    (rows : list Move.t) (events closing : list (string * kwargs))
    (calls : list (list string)) : Prop :=
  moves (db w') = moves (db w) ++ rows
  ∧ published w' = published w ++ events ++ closing
  ∧ Forall2 (announces game_code) rows events
  ∧ oracle_calls w' = oracle_calls w ++ calls
  ∧ length calls = length rows + (match exit with Failed _ => 1 | _ => 0 end)
  ∧ match exit with
    | Finished =>
        ∃ result termination g,
          closing = [(game_code, game_over_event result termination)]
          ∧ last (persisted w') = Some g
          ∧ Game.status g = COMPLETED ∧ Game.result g = Some result
          ∧ result ∈ GAME_RESULTS ∧ termination ∈ TERMINATIONS
    | _ => closing = []
    end.

(** The world after the first [n] sleeps of the wait. *)
Fixpoint after_sleeps (n : nat) (sleeps : list (list bus_action)) (w : World)
    : World :=
  match n with
  | 0 => w
  | S n' => after_sleeps n' (tail sleeps) (others (hd [] sleeps) w)
  end.

(** A world with the match stored and nobody attached, and a viewer who
    attaches during the last sleep of the wait. *)
Definition nobody_yet : World :=
  {| db := {| games := {[ "AB12CD" := sample_game ]}; moves := [] |};
     bus := Bus_init;
     persisted := []; published := []; oracle_calls := []; log := [] |}.

Definition late_viewer : Env :=
  {| sleeps := replicate 99 [] ++ [[Subscribe "AB12CD"]]; turns := [] |}.

(** The stored side to move is the side to move of the stored position. *)
Definition turn_matches `{RulesEngine} (g : Game.t) : Prop :=
  Game.current_turn g
  = (if turn (board_of_fen (Game.board_fen g)) then WHITE else BLACK).


(** ** Queues and deliveries *)

(** Every running stream has its queue. *)
Definition queues_invariant (b : Bus) : Prop :=
  ∀ c q, (c, q) ∈ streams b → is_Some (SSEManager.queues (sse_manager b) !! q).

(** The items waiting in a queue. *)
Definition pending (b : Bus) (q : nat) : option (list (option sse_message)) :=
  SSEManager.queues (sse_manager b) !! q.

(** The match codes of the subscriptions among some actions, in order: the
    [q]-th one is the code of queue [q]. *)
Definition subscriptions (actions : list bus_action) : list string :=
  omap (λ a, match a with Subscribe c => Some c | _ => None end) actions.

(** The event was broadcast to the match of queue [q] after [q] subscribed. *)
Definition sent_to (actions : list bus_action) (q : nat) (ev : sse_message) : Prop :=
  ∃ before after c,
    actions = before ++ Broadcast c ev :: after
    ∧ subscriptions before !! q = Some c.

(** What the bus never holds: an event in a queue, or delivered, that was not
    sent to the queue. *)
Definition delivery_invariant (actions : list bus_action) (b : Bus) : Prop :=
  SSEManager.allocated (sse_manager b) = length (subscriptions actions)
  ∧ (∀ c l q, SSEManager._connections (sse_manager b) !! c = Some l → q ∈ l →
              subscriptions actions !! q = Some c)
  ∧ (∀ q items ev, SSEManager.queues (sse_manager b) !! q = Some items →
                   Some ev ∈ items → sent_to actions q ev)
  ∧ (∀ q ev, (q, ev) ∈ delivered b → sent_to actions q ev).

(** ** Requests *)

(** An upper-case letter or a digit. *)
Definition code_char (c : ascii) : bool := in_range 65 90 c || in_range 48 57 c.

(** The codes the first [k] attempts of [create_game] drew were all taken. *)
Definition all_taken (rng : Rng) (pos : nat) (w : World) (k : nat) : Prop :=
  ∀ j, j < k →
    ∃ code, generate_game_code rng (pos + 6 * j) 6 = Some code
            ∧ is_Some (games (db w) !! code).

Definition prompt_of (c : Color) (g : Game.t) : option string :=
  match c with
  | WHITE => Game.white_prompt g
  | BLACK => Game.black_prompt g
  end.

(** The row with the prompt of a side stored. *)
Definition with_prompt (c : Color) (p : string) (g : Game.t) : Game.t :=
  match c with
  | WHITE => set_white_prompt (Some p) g
  | BLACK => set_black_prompt (Some p) g
  end.

Definition prompt_submitted_event (c : Color) : kwargs :=
  [("type", VStr "prompt_submitted"); ("color", VStr (Color_value c))].

(** Requests to [submit_prompt] for one match, handled one after the other:
    the world they leave and the background tasks they add. *)
Fixpoint submit_all (game_code : string) (requests : list SubmitPromptRequest.t)
    (w : World) : World * list string :=
  match requests with
  | [] => (w, [])
  | request :: rest =>
      let '(w, _, tasks) := submit_prompt game_code request w in
      let '(w', more) := submit_all game_code rest w in
      (w', tasks ++ more)
  end.

(** The prompt of the first request for a side. *)
Definition first_prompt (c : Color) (requests : list SubmitPromptRequest.t)
    : option string :=
  SubmitPromptRequest.prompt
    <$> List.find (λ r, Color_eqb (SubmitPromptRequest.color r) c) requests.

(** The prompt a row keeps: the one it has, or else the new one. *)
Definition kept (old new : option string) : option string :=
  match old with
  | Some p => Some p
  | None => new
  end.

Definition key_order (x y : Move.t) : Prop :=
  key_le (move_key x) (move_key y) = true.

(** The place of a key in the sequence of plies: white's ply of turn 1 is 2. *)
Definition rank (m : Move.t) : nat :=
  2 * Move.move_number m + (if Color_eqb (Move.color m) WHITE then 0 else 1).

Definition three_plies : list Move.t :=
  [ {| Move.game_code := "AB12CD"; Move.move_number := 1; Move.color := WHITE;
       Move.move_uci := "f2f3"; Move.move_san := "f3"; Move.comment := None;
       Move.was_fallback := false |};
    {| Move.game_code := "ZZ99ZZ"; Move.move_number := 1; Move.color := WHITE;
       Move.move_uci := "e2e4"; Move.move_san := "e4"; Move.comment := None;
       Move.was_fallback := false |};
    {| Move.game_code := "AB12CD"; Move.move_number := 1; Move.color := BLACK;
       Move.move_uci := "e7e5"; Move.move_san := "e5"; Move.comment := None;
       Move.was_fallback := false |};
    {| Move.game_code := "AB12CD"; Move.move_number := 2; Move.color := WHITE;
       Move.move_uci := "g2g4"; Move.move_san := "g4"; Move.comment := None;
       Move.was_fallback := true |} ].

Definition three_plies_world : World :=
  {| db := {| games := {[ "AB12CD" := sample_game ]}; moves := three_plies |};
     bus := Bus_init; persisted := []; published := []; oracle_calls := [];
     log := [] |}.

Definition Qh5_then_stop : Env := {| sleeps := []; turns := [says_Qh5] |}.

(** * Proofs *)

(** ** The matcher *)

Lemma star_greedy_inv {A} p g (k : option ascii → chars → option chars → option A)
    prev s a :
  star_greedy p g k prev s = Some a →
  ∃ pre prev' s', s = pre ++ s' ∧ forallb p pre = true ∧ k prev' s' g = Some a.
Proof.
  revert prev. induction s as [|c s IH]; intros prev; simpl.
  - intros Hk. by exists [], prev, [].
  - destruct (p c) eqn:Hp.
    + destruct (star_greedy p g k (Some c) s) as [a'|] eqn:Hrec.
      * intros [= ->]. destruct (IH _ Hrec) as (pre & prev' & s' & -> & Hall & Hk).
        exists (c :: pre), prev', s'. simpl. by rewrite Hp, Hall.
      * intros Hk. by exists [], prev, (c :: s).
    + intros Hk. by exists [], prev, (c :: s).
Qed.

Lemma plus_lazy_inv {A} p g (k : option ascii → chars → option chars → option A)
    s a :
  plus_lazy p g k s = Some a →
  ∃ pre prev' s', s = pre ++ s' ∧ pre ≠ [] ∧ forallb p pre = true
                  ∧ k prev' s' g = Some a.
Proof.
  induction s as [|c s IH]; simpl; [done|].
  destruct (p c) eqn:Hp; [|done].
  destruct (k (Some c) s g) as [a'|] eqn:Hk.
  - intros [= ->]. exists [c], (Some c), s. simpl. by rewrite Hp.
  - intros Hrec. destruct (IH Hrec) as (pre & prev' & s' & -> & _ & Hall & Hk').
    exists (c :: pre), prev', s'. simpl. by rewrite Hp, Hall.
Qed.

(** Whatever a pattern returns was returned by its continuation, called on a
    suffix of the text. *)
Lemma rmatch_inv {A} r prev s g (k : option ascii → chars → option chars → option A) a :
  rmatch r prev s g k = Some a →
  ∃ pre prev' s' g', s = pre ++ s' ∧ k prev' s' g' = Some a.
Proof.
  revert prev s g k a.
  induction r as [|p|r1 IH1 r2 IH2|r1 IH1 r2 IH2|r1 IH1|p|p|p|r1 IH1| |];
    intros prev s g k a; simpl.
  - intros Hk. by exists [], prev, s, g.
  - destruct s as [|c s]; [done|]. destruct (p c); [|done].
    intros Hk. by exists [c], (Some c), s, g.
  - intros H1. apply IH1 in H1 as (pre1 & prev1 & s1 & g1 & -> & H2).
    apply IH2 in H2 as (pre2 & prev2 & s2 & g2 & -> & Hk).
    exists (pre1 ++ pre2), prev2, s2, g2. by rewrite <-(assoc_L (++)).
  - destruct (rmatch r1 prev s g k) as [a'|] eqn:H1.
    + intros [= ->]. by apply IH1 in H1.
    + apply IH2.
  - destruct (rmatch r1 prev s g k) as [a'|] eqn:H1.
    + intros [= ->]. by apply IH1 in H1.
    + intros Hk. by exists [], prev, s, g.
  - intros H. apply star_greedy_inv in H as (pre & prev' & s' & -> & _ & Hk).
    by exists pre, prev', s', g.
  - destruct s as [|c s]; [done|]. destruct (p c); [|done].
    intros H. apply star_greedy_inv in H as (pre & prev' & s' & -> & _ & Hk).
    by exists (c :: pre), prev', s', g.
  - intros H. apply plus_lazy_inv in H as (pre & prev' & s' & -> & _ & _ & Hk).
    by exists pre, prev', s', g.
  - intros H. apply IH1 in H as (pre & prev' & s' & g' & -> & Hk).
    by exists pre, prev', s', (Some (take (length (pre ++ s') - length s') (pre ++ s'))).
  - destruct (at_dollar s); [|done]. intros Hk. by exists [], prev, s, g.
  - destruct (at_boundary prev s); [|done]. intros Hk. by exists [], prev, s, g.
Qed.

Lemma take_consumed (c : ascii) (pre s' : chars) :
  take (S (length (pre ++ s')) - length s') (c :: pre ++ s') = c :: pre.
Proof.
  replace (S (length (pre ++ s')) - length s') with (length (c :: pre))
    by (simpl; rewrite length_app; lia).
  apply (take_app_length (c :: pre)).
Qed.

(** Group 1 of [(p+)] holds at least one character, all of the class. *)
Lemma group_plus_inv p prev s g m :
  rmatch (Group (Plus p)) prev s g found = Some m →
  ∃ w, group1 m = Some w ∧ w ≠ [] ∧ forallb p w = true.
Proof.
  cbn [rmatch]. destruct s as [|c s]; [done|]. destruct (p c) eqn:Hp; [|done].
  intros H. apply star_greedy_inv in H as (pre & prev' & s' & -> & Hall & Hk).
  injection Hk as <-. exists (c :: pre). cbn [group1].
  rewrite take_consumed. split_and!; [done..|]. simpl. by rewrite Hp, Hall.
Qed.

Lemma search_from_inv r prev s m :
  search_from r prev s = Some m →
  ∃ prev' s', rmatch r prev' s' None found = Some m.
Proof.
  revert prev. induction s as [|c s IH]; intros prev; simpl.
  - fold found. destruct (rmatch r prev [] None found) eqn:H; [|done].
    intros [= ->]. eauto.
  - fold found. destruct (rmatch r prev (c :: s) None found) eqn:H.
    + intros [= ->]. eauto.
    + apply IH.
Qed.

(** The two emotion patterns have the shape [label \s* (\S+)]. *)
Lemma emotion_group label m s :
  search (lit_ci label +> Star isspace +> Group (Plus not_space))%re s = Some m →
  ∃ w, group1 m = Some w ∧ w ≠ [] ∧ forallb not_space w = true.
Proof.
  intros H. apply search_from_inv in H as (prev & s' & H).
  cbn [rmatch] in H. apply rmatch_inv in H as (? & ? & ? & ? & _ & H).
  apply star_greedy_inv in H as (? & ? & ? & _ & _ & H).
  by apply group_plus_inv in H.
Qed.

Lemma lstrip_not_space (w : chars) : forallb not_space w = true → lstrip w = w.
Proof.
  destruct w as [|c w]; [done|]. simpl. unfold not_space at 1.
  by destruct (isspace c).
Qed.

Lemma strip_not_space (w : chars) : forallb not_space w = true → strip w = w.
Proof.
  intros Hw. unfold strip. rewrite (lstrip_not_space w Hw).
  rewrite lstrip_not_space; [apply rev_involutive|].
  apply forallb_forall. intros c Hc%in_rev.
  by eapply forallb_forall in Hw.
Qed.

(** An emotion field, when the pattern finds one, is a non-empty word. *)
Lemma extract_emotion_nonempty label txt e :
  extract_field (lit_ci label +> Star isspace +> Group (Plus not_space))%re txt
    = Some e →
  e ≠ "".
Proof.
  unfold extract_field.
  destruct (search _ _) as [m|] eqn:H; [|done].
  apply emotion_group in H as (w & -> & Hne & Hw). intros [= <-]. simpl.
  rewrite strip_not_space by done. by destruct w.
Qed.

Lemma is_valid_emotion_spec (e : string) :
  is_valid_emotion e = true ↔ e ∈ VALID_EMOTIONS.
Proof.
  unfold is_valid_emotion. rewrite existsb_exists, list_elem_of_In. split.
  - intros (x & Hx & ->%String.eqb_eq). done.
  - intros He. exists e. by rewrite String.eqb_refl.
Qed.

Lemma truthy_nonempty (e : string) : e ≠ "" → truthy (Some e) = true.
Proof.
  intros He. simpl. destruct (String.eqb_spec e ""); done.
Qed.

Lemma validate_emotion_checked field label txt :
  let e := extract_field (lit_ci label +> Star isspace +> Group (Plus not_space))%re txt in
  checked e (fst (validate_emotion field e))
  ∧ emotion_ok (fst (validate_emotion field e))
  ∧ snd (validate_emotion field e) = emotion_warnings field e.
Proof.
  intros e. subst e.
  destruct (extract_field _ txt) as [e|] eqn:He.
  - apply extract_emotion_nonempty in He.
    unfold validate_emotion, invalid_emotion. rewrite truthy_nonempty by done.
    simpl. destruct (is_valid_emotion e) eqn:Hv; simpl.
    + apply is_valid_emotion_spec in Hv. rewrite bool_decide_eq_true_2 by done.
      split_and!; [done| |done]. right. eauto.
    + assert (e ∉ VALID_EMOTIONS) as Hn.
      { rewrite <-is_valid_emotion_spec. by rewrite Hv. }
      rewrite bool_decide_eq_false_2 by done.
      split_and!; [done| |done].
      right. exists "stone_wall". split; [done|]. by apply is_valid_emotion_spec.
  - simpl. split_and!; [done|by left|done].
Qed.

(** C6. For every input text, each emotion field the parser extracts is
    checked against the fixed list of exactly nine tags; a value outside the
    list is replaced by [stone_wall], a value of the list is kept, and an absent
    field stays absent, so both emotion fields of the result are null or among
    the nine tags. Each replacement is logged as a warning, nothing else is
    logged, and the parser returns a result for every text.
    [MY_EMOTION: overjoyed] gives the self-emotion [stone_wall]. *)
Theorem parse_chess_response_emotions (txt : string) :
  let parsed := parse_chess_response txt in
  length VALID_EMOTIONS = 9 ∧ NoDup VALID_EMOTIONS
  ∧ "stone_wall" ∈ VALID_EMOTIONS
  ∧ checked (extract_field MY_EMOTION_re txt) (ChessMoveResponse.my_emotion parsed)
  ∧ checked (extract_field OPPONENT_EMOTION_re txt)
      (ChessMoveResponse.opponent_emotion parsed)
  ∧ emotion_ok (ChessMoveResponse.my_emotion parsed)
  ∧ emotion_ok (ChessMoveResponse.opponent_emotion parsed)
  ∧ snd (parse_chess_response_logged txt)
    = emotion_warnings "my_emotion" (extract_field MY_EMOTION_re txt)
      ++ emotion_warnings "opponent_emotion"
           (extract_field OPPONENT_EMOTION_re txt)
  ∧ Forall (λ r, fst r = WARNING) (snd (parse_chess_response_logged txt))
  ∧ ChessMoveResponse.my_emotion (parse_chess_response "MY_EMOTION: overjoyed")
    = Some "stone_wall".
Proof.
  intros parsed. subst parsed.
  unfold parse_chess_response, parse_chess_response_logged.
  pose proof (validate_emotion_checked "my_emotion" "MY_EMOTION:" txt) as Hmy.
  pose proof (validate_emotion_checked "opponent_emotion" "OPPONENT_EMOTION:" txt)
    as Hop.
  cbv zeta in Hmy, Hop. fold MY_EMOTION_re in Hmy. fold OPPONENT_EMOTION_re in Hop.
  destruct (validate_emotion "my_emotion" _) as [my log1].
  destruct (validate_emotion "opponent_emotion" _) as [op log2].
  simpl in *. destruct Hmy as (? & ? & ->), Hop as (? & ? & ->).
  split_and!; try done.
  - compute_done.
  - by apply is_valid_emotion_spec.
  - assert (∀ field o, Forall (λ r, fst r = WARNING) (emotion_warnings field o))
      as Hwarn.
    { intros field [e|]; cbn; [|constructor].
      destruct (bool_decide (e ∈ VALID_EMOTIONS)); by repeat constructor. }
    apply Forall_app. split; apply Hwarn.
Qed.

(** ** Labels and the second pass *)

Lemma lit_ci_starts {A} label r prev s g
    (k : option ascii → chars → option chars → option A) :
  starts_with_ci label s = false →
  rmatch (lit_chars true label +> r) prev s g k = None.
Proof.
  revert prev s. induction label as [|c label IH]; intros prev s; [done|].
  destruct s as [|d s]; [done|]. cbn [starts_with_ci lit_chars rmatch].
  destruct (is_char_ci c d); [|done]. simpl. intros H. by apply (IH (Some d)).
Qed.

Lemma search_without_label label r prev s :
  contains_ci label s = false →
  search_from (lit_chars true label +> r) prev s = None.
Proof.
  revert prev. induction s as [|d s IH]; intros prev; cbn [contains_ci search_from].
  - rewrite orb_false_r. intros H. by rewrite lit_ci_starts.
  - intros [H1 H2]%orb_false_elim. rewrite lit_ci_starts by done. by apply IH.
Qed.

Lemma search_no_label label r txt :
  has_label label txt = false →
  search (lit_ci label +> r) (list_ascii_of_string txt) = None.
Proof. apply search_without_label. Qed.

Lemma extract_field_without_label label r txt :
  has_label label txt = false →
  extract_field (lit_ci label +> r) txt = None.
Proof.
  intros H. unfold extract_field. by rewrite search_no_label.
Qed.

(** [re.search] returns the match at the first position that has one, and
    nothing when no position has one. *)
Lemma search_from_first r prev s m :
  search_from r prev s = Some m →
  ∃ pre s',
    s = pre ++ s'
    ∧ rmatch r (default prev (Some <$> last pre)) s' None found = Some m
    ∧ ∀ pre1 s1,
        s = pre1 ++ s1 → length pre1 < length pre →
        rmatch r (default prev (Some <$> last pre1)) s1 None found = None.
Proof.
  revert prev. induction s as [|c s IH]; intros prev; cbn [search_from];
    fold found; destruct (rmatch r prev _ None found) as [m'|] eqn:Hhere.
  - intros [= ->]. exists [], []. split_and!; [done..|]. intros ? ? _ H. cbn in H. lia.
  - done.
  - intros [= ->]. exists [], (c :: s). split_and!; [done..|].
    intros ? ? _ H. cbn in H. lia.
  - intros (pre & s' & -> & Hm & Hbefore)%IH.
    exists (c :: pre), s'. split_and!; [done| |].
    + rewrite last_cons. by destruct (last pre).
    + intros [|c1 pre1] s1 Heq Hlen.
      * cbn in Heq. subst s1. exact Hhere.
      * injection Heq as <- Heq. cbn in Hlen.
        rewrite last_cons. specialize (Hbefore pre1 s1 Heq ltac:(lia)).
        by destruct (last pre1).
Qed.

Lemma search_first r s m : search r s = Some m → first_match r s m.
Proof.
  intros (pre & s' & -> & Hm & Hbefore)%search_from_first.
  exists (length pre). unfold match_at. split_and!.
  - rewrite length_app. lia.
  - rewrite take_app_length, drop_app_length.
    by destruct (last pre).
  - intros j Hj.
    specialize (Hbefore (take j (pre ++ s')) (drop j (pre ++ s'))).
    rewrite take_drop in Hbefore. specialize (Hbefore eq_refl).
    rewrite length_take, length_app in Hbefore.
    specialize (Hbefore ltac:(lia)).
    by destruct (last (take j (pre ++ s'))).
Qed.

Lemma search_from_none r prev s :
  search_from r prev s = None →
  ∀ pre s', s = pre ++ s' →
            rmatch r (default prev (Some <$> last pre)) s' None found = None.
Proof.
  revert prev. induction s as [|c s IH]; intros prev; cbn [search_from];
    fold found; destruct (rmatch r prev _ None found) as [m'|] eqn:Hhere;
    try done.
  - intros _ pre s' Heq. symmetry in Heq. apply app_eq_nil in Heq as [-> ->].
    exact Hhere.
  - intros Hrest [|c1 pre] s' Heq.
    + cbn in Heq. subst s'. exact Hhere.
    + injection Heq as <- Heq. rewrite last_cons.
      specialize (IH _ Hrest pre s' Heq). by destruct (last pre).
Qed.

Lemma search_nowhere r s :
  search r s = None → ∀ k, k ≤ length s → match_at r s k = None.
Proof.
  intros Hnone k Hk. unfold match_at.
  pose proof (search_from_none r None s Hnone (take k s) (drop k s)) as H.
  rewrite take_drop in H. specialize (H eq_refl).
  by destruct (last (take k s)).
Qed.

(** The first element of [re.findall] is group 1 of [re.search]. *)
Lemma findall_first r s :
  head (findall r s) = (λ m, default [] (group1 m)) <$> search r s.
Proof.
  unfold findall, search. cbn [findall_from].
  by destruct (search_from r None s).
Qed.

(** C3, as the code has it. For every text in which no [MOVE:] label is found,
    the parser the match loop calls, [parse_chess_response], returns a null
    move token: it makes no second pass over the text. The second pass exists
    in [parse_llm_response] only, which the loop does not call: there the move
    is the first match of the move pattern in the whole text, found at the
    first position where the pattern matches, and null when the pattern
    matches at no position. *)
Theorem move_without_label (txt : string) :
  has_label "MOVE:" txt = false →
  ChessMoveResponse.move (parse_chess_response txt) = None
  ∧ (parse_llm_response txt).1 = first_potential_move txt
  ∧ match search POTENTIAL_MOVE_re (list_ascii_of_string txt) with
    | Some m =>
        first_match POTENTIAL_MOVE_re (list_ascii_of_string txt) m
        ∧ (parse_llm_response txt).1
          = Some (string_of_list_ascii (default [] (group1 m)))
    | None =>
        (∀ k, k ≤ length (list_ascii_of_string txt) →
              match_at POTENTIAL_MOVE_re (list_ascii_of_string txt) k = None)
        ∧ (parse_llm_response txt).1 = None
    end.
Proof.
  intros Hno.
  assert ((parse_llm_response txt).1 = first_potential_move txt) as Hlegacy.
  { unfold parse_llm_response, first_potential_move, LEGACY_MOVE_re.
    rewrite search_no_label by done. simpl.
    pose proof (findall_first POTENTIAL_MOVE_re (list_ascii_of_string txt)) as Hf.
    destruct (findall _ _), (search POTENTIAL_MOVE_re _); by simplify_eq/=. }
  split_and!; [|done|].
  - unfold parse_chess_response, parse_chess_response_logged.
    unfold MOVE_re. rewrite extract_field_without_label by done.
    by do 2 destruct (validate_emotion _ _).
  - rewrite Hlegacy. unfold first_potential_move.
    destruct (search POTENTIAL_MOVE_re _) as [m|] eqn:Hs.
    + split; [by apply search_first|done].
    + split; [by apply search_nowhere|done].
Qed.

Lemma move_without_label_witness :
  has_label "MOVE:" no_label_text = false
  ∧ ChessMoveResponse.move (parse_chess_response no_label_text) = None
  ∧ (parse_llm_response no_label_text).1 = first_potential_move no_label_text.
Proof.
  assert (has_label "MOVE:" no_label_text = false) as Hno by (by vm_compute).
  split; [exact Hno|].
  destruct (move_without_label no_label_text Hno) as (H1 & H2 & _).
  by split.
Defined.

(** C3, as stated, fails: the text ["I will play e4"] has no [MOVE:] label and
    contains the move-shaped substring [e4], the first match of the move
    pattern, yet the parser of the loop returns a null move token. *)
Lemma no_second_pass :
  has_label "MOVE:" no_label_text = false
  ∧ first_potential_move no_label_text = Some "e4"
  ∧ ChessMoveResponse.move (parse_chess_response no_label_text) = None
  ∧ ChessMoveResponse.move (parse_chess_response no_label_text)
    ≠ first_potential_move no_label_text.
Proof. by vm_compute. Qed.

(** ** One iteration of the loop *)

Lemma model_init_MoveEvent n c u s cm fb f a cy au me oe :
  model_init MoveEvent (move_event_kwargs n c u s cm fb f a cy au me oe)
  = Some (move_event n c u s cm fb f a).
Proof. reflexivity. Qed.

Lemma Color_eqb_current `{RulesEngine} (st : Loop) :
  Color_eqb (current_color st) WHITE = turn (board st).
Proof. unfold current_color. by destruct (turn (board st)). Qed.

Lemma other_color_current `{RulesEngine} (st : Loop) :
  (if Color_eqb (current_color st) WHITE then BLACK else WHITE)
  = other_color (current_color st).
Proof. unfold current_color. by destruct (turn (board st)). Qed.

(** Every iteration either raises, leaving the tables and the bus as they
    were, or plays one move: one row, one commit, one event. *)
Lemma play_turn_cases `{RulesEngine} game_code e st w :
  (∃ x w',
     play_turn game_code e st w = (w', Raise x) ∧ raised_by e st x
     ∧ db w' = db w ∧ persisted w' = persisted w ∧ published w' = published w
     ∧ bus w' = bus w ∧ oracle_calls w' = oracle_calls w ++ [turn_cmd st])
  ∨ (∃ m was_fallback comment w',
       play_turn game_code e st w = (w', Return (after_move e st m))
       ∧ chosen e st m was_fallback comment
       ∧ db w' =
           {| games :=
                <[Game.game_code (game (after_move e st m)) := game (after_move e st m)]>
                  (games (db w));
              moves := moves (db w) ++ [move_row game_code st m was_fallback comment] |}
       ∧ persisted w' = persisted w ++ [game (after_move e st m)]
       ∧ published w' =
           published w ++ [(game_code, move_event_of st m was_fallback comment)]
       ∧ oracle_calls w' = oracle_calls w ++ [turn_cmd st]).
Proof.
  unfold play_turn, raised_by, chosen, after_move, with_session, turn_response,
    call_claude_cli, parse_chess_response.
  destruct (call_claude_cli_logged _ _ _ _) as [resp cli_log].
  destruct (parse_chess_response_logged _) as [parsed parse_log]. cbn [fst].
  destruct (validate_and_get_move _ _) as [[m|]|x]; cbn [resolve_or_fallback].
  - right. exists m, false, (ChessMoveResponse.comment parsed).
    rewrite model_init_MoveEvent, other_color_current, Color_eqb_current.
    eexists. split; [reflexivity|]. split_and!; try done. by left.
  - destruct (get_random_legal_move _ _) as [m|x].
    + right. exists m, true. eexists.
      rewrite model_init_MoveEvent, other_color_current, Color_eqb_current.
      eexists. split; [reflexivity|]. split_and!; try done. by right.
    + left. exists x. eexists. split; [reflexivity|]. split_and!; try done.
      by right.
  - left. exists x. eexists. split; [reflexivity|]. split_and!; try done.
    by left.
Qed.

(** The scripted engine keeps the laws. *)
Lemma Scripted_laws : RulesEngineLaws Scripted.engine.
Proof.
  split.
  - done.
  - by vm_compute.
  - intros [side n]. destruct side; do 6 (destruct n as [|n]; [by vm_compute|]);
      by vm_compute.
  - intros b. cbn. unfold Scripted.is_game_over, Scripted.legal_moves.
    by destruct (Scripted.replies (Scripted.here b)).
Qed.

(** ** Move resolution *)

Lemma get_random_legal_move_legal `{E : RulesEngine} {L : RulesEngineLaws E}
    (b : Board) (choice : nat) :
  is_game_over b = false →
  ∃ m, get_random_legal_move b choice = Return m ∧ m ∈ legal_moves b.
Proof.
  intros Hlive%legal_moves_not_over. unfold get_random_legal_move.
  destruct (legal_moves b !! (choice mod length (legal_moves b))) as [m|] eqn:Hm.
  - exists m. split; [done|]. by eapply list_elem_of_lookup_2.
  - apply lookup_ge_None in Hm. destruct (legal_moves b) as [|m l]; [done|].
    pose proof (Nat.mod_upper_bound choice (length (m :: l))) as Hlt.
    simpl in *. lia.
Qed.

Lemma prefix_append (a b : string) : String.prefix a (a +:+ b) = true.
Proof.
  induction a as [|c a IH]; simpl; [by destruct b|].
  by destruct (ascii_dec c c).
Qed.

Lemma fallback_comment_notice (move_str comment : option string) :
  String.prefix "[FALLBACK - LLM suggested invalid move '"
    (fallback_comment move_str comment) = true.
Proof.
  unfold fallback_comment. destruct (truthy comment); apply prefix_append.
Qed.

(** A token the resolver reports unresolved, in a position that is not over:
    the iteration plays a legal move, flagged as fallback. *)
Lemma unresolved_fallback `{E : RulesEngine} {L : RulesEngineLaws E}
    game_code e st w :
  is_game_over (board st) = false →
  validate_and_get_move (board st) (turn_token e st) = Return None →
  fallback_played game_code e st w.
Proof.
  intros Hlive Hnone. unfold turn_token in Hnone.
  destruct (get_random_legal_move_legal (board st) (random_choice e) Hlive)
    as (m & Hm & Hlegal).
  destruct (play_turn_cases game_code e st w)
    as [(x & w' & _ & Hwhy & _)
       |(m' & fb & cm & w' & Hplay & Hch & Hdb & _ & Hpub & _)].
  - unfold raised_by in Hwhy. rewrite Hnone, Hm in Hwhy.
    by destruct Hwhy as [[=]|[_ [=]]].
  - unfold chosen in Hch. rewrite Hnone, Hm in Hch.
    destruct Hch as [[[=] _]|(_ & [= <-] & -> & ->)].
    exists m, w'. eexists. rewrite Hdb, Hpub.
    split_and!; [done|done|apply fallback_comment_notice|done|done].
Qed.

Lemma empty_text_fallback `{E : RulesEngine} {L : RulesEngineLaws E}
    game_code e st w :
  is_game_over (board st) = false →
  LLMResponse.text (turn_response e st) = "" →
  fallback_played game_code e st w.
Proof.
  intros Hlive Htext. apply unresolved_fallback; [done|].
  unfold turn_token. by rewrite Htext.
Qed.

(** C1, on the code. A token that python-chess reads as well-formed notation
    of no legal move makes [parse_san] raise [IllegalMoveError]; the resolver
    swallows [InvalidMoveError] and [AmbiguousMoveError] only, so the error
    leaves [validate_and_get_move], and the iteration that resolved the token
    raises it: no fallback move is drawn, no row is written and no event is
    published. A token that is not notation at all is reported unresolved, and
    for it the iteration does what the claim says of every token: a legal move
    is substituted, recorded with [was_fallback] and published with a rationale
    that begins with the bracketed notice. *)
Theorem illegal_token_raises `{E : RulesEngine} {L : RulesEngineLaws E}
    (b : Board) (token : string) :
  token ≠ "" →
  parse_san b token = inl IllegalMoveError →
  validate_and_get_move b (Some token) = Raise (ChessError IllegalMoveError)
  ∧ (∀ game_code e st w,
       board st = b → turn_token e st = Some token →
       ∃ w', play_turn game_code e st w = (w', Raise (ChessError IllegalMoveError))
             ∧ moves (db w') = moves (db w) ∧ published w' = published w)
  ∧ (∀ other game_code e st w,
       parse_san b other = inl InvalidMoveError →
       parse_uci b other = inl InvalidMoveError →
       validate_and_get_move b (Some other) = Return None
       ∧ (board st = b → is_game_over b = false → turn_token e st = Some other →
          fallback_played game_code e st w)).
Proof.
  intros Hne Hsan.
  assert (validate_and_get_move b (Some token) = Raise (ChessError IllegalMoveError))
    as Hv.
  { unfold validate_and_get_move. rewrite truthy_nonempty by done. simpl.
    by rewrite Hsan. }
  split_and!; [done| |].
  - intros game_code e st w <- Htok.
    destruct (play_turn_cases game_code e st w)
      as [(x & w' & Hplay & Hwhy & Hdb & _ & Hpub & _)
         |(m & fb & cm & w' & _ & Hch & _)].
    + exists w'. unfold raised_by in Hwhy. fold (turn_token e st) in Hwhy.
      rewrite Htok, Hv in Hwhy. destruct Hwhy as [[= <-]|[[=] _]].
      by rewrite Hplay, Hdb, Hpub.
    + unfold chosen in Hch. fold (turn_token e st) in Hch.
      rewrite Htok, Hv in Hch. by destruct Hch as [[[=] _]|[[=] _]].
  - intros other game_code e st w Hsan' Huci.
    assert (validate_and_get_move b (Some other) = Return None) as Hnone.
    { unfold validate_and_get_move.
      destruct (truthy (Some other)); [|done]. simpl. by rewrite Hsan', Huci. }
    split; [done|]. intros <- Hlive Htok.
    apply unresolved_fallback; [done|]. by rewrite Htok.
Qed.

(** In the start position the queen's path to h5 is blocked: [Qh5] is
    well-formed and illegal. The loop that receives it fails. *)
Lemma illegal_token_raises_witness :
  "Qh5" ≠ ""
  ∧ parse_san (board sample_loop) "Qh5" = inl IllegalMoveError
  ∧ validate_and_get_move (board sample_loop) (Some "Qh5")
    = Raise (ChessError IllegalMoveError)
  ∧ (play_turn "AB12CD" says_Qh5 sample_loop sample_world).2
    = Raise (ChessError IllegalMoveError)
  ∧ (run_game "AB12CD" {| sleeps := []; turns := [says_Qh5] |} sample_world).2
    = Failed (ChessError IllegalMoveError).
Proof.
  assert ("Qh5" ≠ "") as Hne by done.
  assert (parse_san (board sample_loop) "Qh5" = inl IllegalMoveError) as Hsan
    by (by vm_compute).
  destruct (@illegal_token_raises Scripted.engine Scripted_laws
              (board sample_loop) "Qh5" Hne Hsan) as (Hv & Hturn & _).
  destruct (Hturn "AB12CD" says_Qh5 sample_loop sample_world eq_refl)
    as (w' & Hplay & _); [by vm_compute|].
  split_and!; [done..|by rewrite Hplay|by vm_compute].
Defined.

(** ** The move event *)

(** C2, on the code. The event published for an executed ply carries the nine
    fields [MoveEvent] declares: the sequence number and side, both notations,
    the rationale, the fallback flag, the new position and the board
    rendering. The narrated commentary, the audio payload and the two emotion
    tags, which [run_game] passes to [MoveEvent(...)], are not fields of the
    model, and the event has none of them. *)
Theorem move_event_fields `{RulesEngine} game_code e st w w' st' :
  play_turn game_code e st w = (w', Return st') →
  ∃ m was_fallback comment,
    chosen e st m was_fallback comment
    ∧ published w' =
        published w ++ [(game_code, move_event_of st m was_fallback comment)]
    ∧ map fst (move_event_of st m was_fallback comment) = MoveEvent_fields
    ∧ kwargs_get (move_event_of st m was_fallback comment) "move_uci"
      = Some (VStr (uci m))
    ∧ kwargs_get (move_event_of st m was_fallback comment) "move_san"
      = Some (VStr (san (board st) m))
    ∧ kwargs_get (move_event_of st m was_fallback comment) "comment"
      = Some (of_optional comment)
    ∧ kwargs_get (move_event_of st m was_fallback comment) "was_fallback"
      = Some (VBool was_fallback)
    ∧ kwargs_get (move_event_of st m was_fallback comment) "board_fen"
      = Some (VStr (fen (board st')))
    ∧ kwargs_get (move_event_of st m was_fallback comment) "board_ascii"
      = Some (VStr (board_str (board st')))
    ∧ Forall
        (λ name, kwargs_get (move_event_of st m was_fallback comment) name = None)
        dropped_arguments.
Proof.
  intros Hplay.
  destruct (play_turn_cases game_code e st w)
    as [(x & w1 & Hraise & _)
       |(m & fb & cm & w1 & Hret & Hch & _ & _ & Hpub & _)].
  { rewrite Hplay in Hraise. by injection Hraise. }
  rewrite Hplay in Hret. injection Hret as -> ->.
  exists m, fb, cm. split_and!; try done. by repeat constructor.
Qed.

(** A ply whose response names a commentary and both emotions, with the audio
    hook returning a payload: the event has none of the four. *)
Lemma move_event_fields_witness :
  ChessMoveResponse.commentary
    (parse_chess_response (LLMResponse.text (turn_response says_f3_with_feeling sample_loop)))
  = Some "What an opening!"
  ∧ ChessMoveResponse.my_emotion
      (parse_chess_response (LLMResponse.text (turn_response says_f3_with_feeling sample_loop)))
    = Some "predator"
  ∧ ∃ event,
      published (play_turn "AB12CD" says_f3_with_feeling sample_loop sample_world).1
      = published sample_world ++ [("AB12CD", event)]
      ∧ map fst event = MoveEvent_fields
      ∧ Forall (λ name, kwargs_get event name = None) dropped_arguments.
Proof.
  split; [by vm_compute|]. split; [by vm_compute|].
  destruct (play_turn "AB12CD" says_f3_with_feeling sample_loop sample_world)
    as [w' [st'|x]] eqn:Hplay.
  - destruct (move_event_fields _ _ _ _ _ _ Hplay)
      as (m & fb & cm & _ & Hpub & Hfields & _ & _ & _ & _ & _ & _ & Hnone).
    by exists (move_event_of sample_loop m fb cm).
  - by vm_compute in Hplay.
Defined.

(** ** Oracle failures *)

(** C4, as the code has it. The oracle call returns a response in every case.
    When the process is not found, exits with a non-zero status or raises, and
    when its output is JSON other than an object, the response has empty text
    and the iteration of a position that is not over substitutes a legal move,
    recorded and published with [was_fallback] set. When the output is not
    JSON at all, the response carries that output as its text, with no error:
    the iteration parses and resolves it like any response. *)
Theorem oracle_failure_turn `{E : RulesEngine} {L : RulesEngineLaws E}
    game_code e st w :
  is_game_over (board st) = false →
  match run_oracle e (turn_cmd st) with
  | CliNotFound =>
      empty_response (turn_response e st)
      ∧ LLMResponse.session_id (turn_response e st) = None
      ∧ fallback_played game_code e st w
  | CliException _ | CliExit _ _ _ (JSONNotObject _) =>
      empty_response (turn_response e st)
      ∧ LLMResponse.session_id (turn_response e st) = session_arg st
      ∧ fallback_played game_code e st w
  | CliExit returncode stdout _ JSONDecodeError =>
      if (returncode =? 0)%Z then
        LLMResponse.text (turn_response e st) = stdout
        ∧ LLMResponse.error (turn_response e st) = None
        ∧ LLMResponse.session_id (turn_response e st) = session_arg st
        ∧ turn_token e st = ChessMoveResponse.move (parse_chess_response stdout)
      else
        empty_response (turn_response e st)
        ∧ LLMResponse.session_id (turn_response e st) = session_arg st
        ∧ fallback_played game_code e st w
  | CliExit returncode _ _ (JSONObject _ _) =>
      (returncode =? 0)%Z = false →
      empty_response (turn_response e st)
      ∧ LLMResponse.session_id (turn_response e st) = session_arg st
      ∧ fallback_played game_code e st w
  end.
Proof.
  intros Hlive.
  pose proof (empty_text_fallback game_code e st w Hlive) as Hfb.
  unfold turn_token. revert Hfb.
  unfold turn_response, call_claude_cli, call_claude_cli_logged. fold (turn_cmd st).
  destruct (run_oracle e (turn_cmd st)) as [|msg|rc out err [|ty|res sid]];
    cbn; try destruct (rc =? 0)%Z; cbn; intros Hfb; try done; try intros _;
    unfold empty_response; cbn; split_and!; eauto.
Qed.

Lemma oracle_failure_turn_witness :
  is_game_over (board sample_loop) = false
  ∧ empty_response (turn_response not_found sample_loop)
  ∧ fallback_played "AB12CD" not_found sample_loop sample_world.
Proof.
  assert (is_game_over (board sample_loop) = false) as Hlive by (by vm_compute).
  pose proof (@oracle_failure_turn Scripted.engine Scripted_laws "AB12CD" not_found
                sample_loop sample_world Hlive) as (Hempty & _ & Hfb).
  by split_and!.
Defined.

(** C4, as stated, fails for a malformed payload: the process exits with
    status 0 and writes [MOVE: f3], which is not JSON. The response text is
    that output, not the empty string, and the iteration plays [f3] without
    fallback. *)
Lemma raw_output_is_played :
  run_oracle raw_output (turn_cmd sample_loop)
  = CliExit 0 "MOVE: f3" "" JSONDecodeError
  ∧ LLMResponse.text (turn_response raw_output sample_loop) = "MOVE: f3"
  ∧ LLMResponse.text (turn_response raw_output sample_loop) ≠ ""
  ∧ map (λ r, (Move.move_san r, Move.was_fallback r))
      (moves (db (play_turn "AB12CD" raw_output sample_loop sample_world).1))
    = [("f3", false)].
Proof. by vm_compute. Qed.

(** ** Session tokens *)

Lemma stored_session_of `{RulesEngine} (st : Loop) :
  stored_session st = session_of (current_color st) (game st).
Proof. unfold stored_session, current_color. by destruct (turn (board st)). Qed.

(** The response repeats the session it was called with, unless the payload
    is an object with a [session_id] of its own. *)
Lemma response_session `{RulesEngine} (e : TurnEnv) (st : Loop) :
  match run_oracle e (turn_cmd st) with
  | CliExit 0 _ _ (JSONObject _ (Some sid)) =>
      LLMResponse.session_id (turn_response e st) = sid
  | CliNotFound => LLMResponse.session_id (turn_response e st) = None
  | _ => LLMResponse.session_id (turn_response e st) = session_arg st
  end.
Proof.
  unfold turn_response, call_claude_cli, call_claude_cli_logged. fold (turn_cmd st).
  destruct (run_oracle e (turn_cmd st)) as [|msg|rc out err [|ty|res [sid|]]];
    try done; by destruct rc.
Qed.

(** C5, as the code has it. An iteration passes the session stored for the
    side to move to the oracle ([--resume]), or the system prompt when none is
    stored. Afterwards the session stored for that side is the one the
    response carries, when that is not empty, and the stored one otherwise; it
    stays as it was unless the payload of the oracle is an object with a
    [session_id] of its own. The session of the other side is not touched. *)
Theorem session_token_turn `{RulesEngine} game_code e st w w' st' :
  play_turn game_code e st w = (w', Return st') →
  let side := current_color st in
  let sid := LLMResponse.session_id (turn_response e st) in
  oracle_calls w' = oracle_calls w ++ [turn_cmd st]
  ∧ turn_cmd st =
      [ "claude"; "-p"; turn_prompt st; "--output-format"; "json"; "--model"; "haiku" ]
      ++ (if truthy (session_of side (game st))
          then ["--resume"; default "" (session_of side (game st))]
          else ["--system-prompt"; build_system_prompt (Color_value side)])
  ∧ session_of side (game st') =
      (if truthy sid then sid else session_of side (game st))
  ∧ session_of (other_color side) (game st')
    = session_of (other_color side) (game st)
  ∧ match run_oracle e (turn_cmd st) with
    | CliExit 0 _ _ (JSONObject _ (Some _)) => True
    | _ => session_of side (game st') = session_of side (game st)
    end.
Proof.
  intros Hplay side sid.
  destruct (play_turn_cases game_code e st w)
    as [(x & w1 & Hraise & _)|(m & fb & cm & w1 & Hret & _ & _ & _ & _ & Hcalls)].
  { rewrite Hplay in Hraise. by injection Hraise. }
  rewrite Hplay in Hret. injection Hret as -> ->.
  assert (session_of side (game (after_move e st m))
          = (if truthy sid then sid else session_of side (game st))
          ∧ session_of (other_color side) (game (after_move e st m))
            = session_of (other_color side) (game st)) as [Hside Hother].
  { subst side sid. unfold after_move, with_session. cbn [game].
    rewrite Color_eqb_current. unfold current_color.
    by destruct (turn (board st)), (truthy _). }
  split_and!; try done.
  - unfold turn_cmd, claude_cmd, session_arg, system_prompt_arg.
    rewrite stored_session_of. fold side.
    by destruct (truthy (session_of side (game st))) eqn:Ht; rewrite ?Ht.
  - rewrite Hside. subst sid.
    pose proof (response_session e st) as Hresp.
    assert (∀ o, o = None ∨ o = session_arg st →
                 (if truthy o then o else session_of side (game st))
                 = session_of side (game st)) as Hkeep.
    { intros o [->| ->]; [done|]. unfold session_arg.
      rewrite stored_session_of. fold side.
      by destruct (truthy (session_of side (game st))) eqn:Ht; rewrite ?Ht. }
    destruct (run_oracle e (turn_cmd st)) as [|msg|rc out err [|ty|res [s|]]];
      try destruct rc; try done; rewrite Hresp; apply Hkeep; by eauto.
Qed.

Lemma session_token_turn_witness :
  ∃ w' st',
    play_turn "AB12CD" says_f3_with_feeling sample_loop sample_world = (w', Return st')
    ∧ drop 7 (turn_cmd sample_loop)
      = ["--system-prompt"; build_system_prompt "white"]
    ∧ session_of WHITE (game st') = Some "w-1"
    ∧ session_of BLACK (game st') = None.
Proof.
  destruct (play_turn "AB12CD" says_f3_with_feeling sample_loop sample_world)
    as [w' [st'|x]] eqn:Hplay; [|by vm_compute in Hplay].
  exists w', st'.
  destruct (session_token_turn _ _ _ _ _ _ Hplay) as (_ & Hcmd & Hside & Hother & _).
  split; [done|]. split; [by rewrite Hcmd|]. split; [exact Hside|exact Hother].
Defined.

(** C5, as stated, fails: white's session is set to [w-1] by the first ply and
    changed to [w-2] by the third, whose call resumed [w-1]. *)
Lemma session_is_rewritten :
  map Game.white_session_id
    (persisted (run_game "AB12CD" session_drift sample_world).1)
  = [None; Some "w-1"; Some "w-1"; Some "w-2"; Some "w-2"; Some "w-2"]
  ∧ map (drop 7) (oracle_calls (run_game "AB12CD" session_drift sample_world).1)
      !! 2 = Some ["--resume"; "w-1"].
Proof. by vm_compute. Qed.

(** ** The persisted states of a run *)

Lemma after_move_running `{RulesEngine} e st m :
  running (game st) → running (game (after_move e st m)).
Proof.
  unfold running, after_move, with_session. cbn [game].
  by destruct (truthy (LLMResponse.session_id (turn_response e st))),
       (Color_eqb (current_color st) WHITE).
Qed.

Lemma wait_for_subscriber_frame n game_code sleeps w :
  let w' := (wait_for_subscriber n game_code sleeps w).2 in
  db w' = db w ∧ persisted w' = persisted w ∧ published w' = published w
  ∧ oracle_calls w' = oracle_calls w.
Proof.
  revert sleeps w. induction n as [|n IH]; intros sleeps w;
    cbn [wait_for_subscriber]; [done|].
  destruct (Nat.ltb 0 _); [done|].
  apply (IH (tail sleeps) (others (hd [] sleeps) w)).
Qed.

Lemma finish_game_persisted `{RulesEngine} game_code st w :
  running (game st) →
  ∃ g, persisted (finish_game game_code st w).1 = persisted w ++ [g]
       ∧ (finish_game game_code st w).2 = Finished
       ∧ Game.is_paused g = false ∧ Game.status g = COMPLETED.
Proof.
  intros [_ Hp]. unfold finish_game. destruct (get_game_result _) as [r t].
  cbn. eexists. split; [reflexivity|]. by split_and!.
Qed.

Lemma game_loop_persisted `{RulesEngine} game_code turns st w :
  running (game st) →
  ∃ l, persisted (game_loop game_code turns st w).1 = persisted w ++ l
       ∧ Forall paused_only_running l
       ∧ ends_with (game_loop game_code turns st w).2 l
       ∧ (game_loop game_code turns st w).2 ≠ GameNotFound
       ∧ (game_loop game_code turns st w).2 ≠ NoViewersAtStart.
Proof.
  revert st w. induction turns as [|e turns IH]; intros st w Hrun;
    cbn [game_loop]; destruct (is_game_over (board st)).
  - destruct (finish_game_persisted game_code st w Hrun) as (g & -> & -> & Hp & Hs).
    exists [g]. split_and!; try done.
    + constructor; [|done]. intros Hp'. congruence.
    + by exists g.
  - exists []. by rewrite app_nil_r.
  - destruct (finish_game_persisted game_code st w Hrun) as (g & -> & -> & Hp & Hs).
    exists [g]. split_and!; try done.
    + constructor; [|done]. intros Hp'. congruence.
    + by exists g.
  - destruct (_ =? 0).
    + exists [Game.set_is_paused true (game st)]. destruct Hrun as [Hs Hp].
      cbn. split_and!; try done.
      * constructor; [|done]. intros _. exact Hs.
      * by eexists.
    + destruct (play_turn_cases game_code e st (others (before_turn e) w))
        as [(x & w' & -> & _ & _ & Hper & _)
           |(m & fb & cm & w' & -> & _ & _ & Hper & _)].
      * exists []. cbn. by rewrite Hper, app_nil_r.
      * destruct (IH (after_move e st m) w' (after_move_running e st m Hrun))
          as (l & Hl & Hall & Hend & Hne1 & Hne2).
        exists (game (after_move e st m) :: l). rewrite Hl, Hper. cbn.
        rewrite <-(assoc_L (++)). split_and!; try done.
        -- constructor; [|done]. intros Hp.
           by destruct (after_move_running e st m Hrun).
        -- destruct (game_loop _ _ _ _).2; try done;
             destruct Hend as (g & Hlast & ?); exists g;
             (split; [|done]); destruct l; done.
Qed.

(** C8. Every state of the match a run of the loop persists has the suspended
    flag set only with the status in progress. The first state written is in
    progress and not suspended; a run that pauses, at the timeout or with no
    viewer left, last writes a suspended state in progress; a run that
    completes last writes a completed state that is not suspended. *)
Theorem persisted_states `{RulesEngine} (game_code : string) (env : Env) (w : World) :
  ∃ l, persisted (run_game game_code env w).1 = persisted w ++ l
       ∧ Forall paused_only_running l
       ∧ ends_with (run_game game_code env w).2 l
       ∧ ((run_game game_code env w).2 ≠ GameNotFound →
          ∃ g, head l = Some g ∧ running g).
Proof.
  unfold run_game. cbn [add_log db].
  destruct (games (db w) !! game_code) as [g0|]; [|exists []; by rewrite app_nil_r].
  cbn [model_init GameStartedEvent kwargs_get].
  set (g := Game.set_is_paused false (Game.set_status IN_PROGRESS g0)).
  set (w1 := commit g [] _).
  assert (running g) as Hg by done.
  assert (persisted w1 = persisted w ++ [g]) as Hw1 by done.
  pose proof (wait_for_subscriber_frame 100 game_code (sleeps env) w1)
    as (_ & Hper & _).
  destruct (wait_for_subscriber 100 game_code (sleeps env) w1) as [[] w2];
    cbn [snd] in Hper.
  - set (st := Build_Loop _ _ _ _).
    destruct (game_loop_persisted game_code (turns env) st w2 Hg)
      as (l & Hl & Hall & Hend & Hne1 & Hne2).
    exists (g :: l). rewrite Hl, Hper, Hw1, <-(assoc_L (++)).
    split_and!; try done.
    + constructor; [|done]. intros Hp. by destruct Hg.
    + destruct (game_loop _ _ _ _).2; try done;
        destruct Hend as (g' & Hlast & ?); exists g';
        (split; [|done]); destruct l; done.
    + intros _. by exists g.
  - exists [g; Game.set_is_paused true g]. cbn. rewrite Hper, Hw1.
    rewrite <-(assoc_L (++)). split_and!; try done.
    + constructor; [by intros _|]. constructor; [|done]. by intros _.
    + by eexists.
    + intros _. by exists g.
Qed.

(** ** Move numbers *)

Lemma half_double (k : nat) : 2 * k / 2 = k ∧ S (2 * k) / 2 = k.
Proof.
  pose proof (Nat.div_mod_eq (2 * k) 2).
  pose proof (Nat.mod_upper_bound (2 * k) 2).
  pose proof (Nat.div_mod_eq (S (2 * k)) 2).
  pose proof (Nat.mod_upper_bound (S (2 * k)) 2). lia.
Qed.

Lemma half_succ (n : nat) :
  S n / 2 = if Nat.even n then n / 2 else n / 2 + 1.
Proof.
  destruct (Nat.even n) eqn:He.
  - apply Nat.even_spec in He as [k ->]. by destruct (half_double k) as [-> ->].
  - assert (Nat.odd n = true) as [k ->]%Nat.odd_spec
      by (by rewrite <-Nat.negb_even, He).
    replace (2 * k + 1) with (S (2 * k)) by lia.
    replace (S (S (2 * k))) with (2 * (k + 1)) by lia.
    destruct (half_double k) as [_ ->]. by destruct (half_double (k + 1)) as [-> _].
Qed.

Lemma numbered_paired game_code rows : numbered game_code rows → paired game_code rows.
Proof.
  intros Hnum j white black [Hw1 Hw2]%Hnum [Hb1 Hb2]%Hnum.
  assert (Nat.even (2 * j) = true) as He by (apply Nat.even_spec; by exists j).
  replace (2 * j + 1) with (S (2 * j)) in * by lia.
  rewrite Nat.even_succ, <-Nat.negb_even, He in Hb2.
  rewrite half_succ, He in Hb1. rewrite He in Hw2.
  destruct (half_double j) as [Hj _]. rewrite Hj in Hw1, Hb1.
  by split_and!.
Qed.

Lemma rows_of_snoc game_code rows row :
  Move.game_code row = game_code →
  rows_of game_code (rows ++ [row]) = rows_of game_code rows ++ [row].
Proof.
  intros <-. unfold rows_of. rewrite filter_app. f_equal.
  rewrite filter_cons_True; [done|]. by rewrite String.eqb_refl.
Qed.

Lemma numbered_snoc game_code rows row :
  numbered game_code rows →
  Move.game_code row = game_code →
  Move.move_number row = length (rows_of game_code rows) / 2 + 1 →
  Move.color row
  = (if Nat.even (length (rows_of game_code rows)) then WHITE else BLACK) →
  numbered game_code (rows ++ [row]).
Proof.
  intros Hnum Hcode Hn Hc k r. rewrite rows_of_snoc by done.
  destruct (decide (k < length (rows_of game_code rows))) as [Hlt|Hge].
  - rewrite lookup_app_l by done. apply Hnum.
  - rewrite lookup_app_r by lia.
    destruct (k - length (rows_of game_code rows)) as [|i] eqn:Hk; [|done].
    intros [= <-]. by replace k with (length (rows_of game_code rows)) by lia.
Qed.

Lemma after_move_game_code `{RulesEngine} e st m :
  Game.game_code (game (after_move e st m)) = Game.game_code (game st).
Proof.
  unfold after_move, with_session. cbn [game].
  by destruct (truthy (LLMResponse.session_id (turn_response e st))),
       (Color_eqb (current_color st) WHITE).
Qed.

Lemma numbering_step `{E : RulesEngine} {L : RulesEngineLaws E}
    game_code e st w w' m was_fallback comment :
  numbering_invariant game_code st w →
  db w' =
    {| games :=
         <[Game.game_code (game (after_move e st m)) := game (after_move e st m)]>
           (games (db w));
       moves := moves (db w) ++ [move_row game_code st m was_fallback comment] |} →
  numbering_invariant game_code (after_move e st m) w'.
Proof.
  intros (Hnum & Hgame & Hcode & Hfen & Hturn & Hmn) Hdb.
  unfold numbering_invariant. rewrite Hdb. cbn [games moves].
  rewrite after_move_game_code, Hcode, rows_of_snoc by done.
  rewrite length_app. cbn [length]. rewrite Nat.add_1_r.
  split_and!.
  - apply numbered_snoc; [done..| |]; cbn [move_row Move.move_number Move.color].
    + done.
    + unfold current_color. by rewrite Hturn.
  - by rewrite lookup_insert_eq.
  - done.
  - cbn [after_move game board Game.set_position Game.board_fen]. apply turn_fen.
  - cbn [after_move board]. rewrite turn_push, Hturn.
    by rewrite Nat.even_succ, <-Nat.negb_even.
  - cbn [after_move move_number]. rewrite half_succ, Hmn, Hturn.
    by destruct (Nat.even _).
Qed.

Lemma numbering_exit `{RulesEngine} game_code st w g :
  numbering_invariant game_code st w →
  Game.game_code g = game_code →
  Game.board_fen g = Game.board_fen (game st) →
  consistent game_code
    {| games := <[Game.game_code g := g]> (games (db w));
       moves := moves (db w) ++ [] |}.
Proof.
  intros (Hnum & Hgame & Hcode & Hfen & Hturn & Hmn) Hg Hb.
  unfold consistent. cbn [games moves]. rewrite app_nil_r, Hg. split; [done|].
  intros g'. rewrite lookup_insert_eq. intros [= <-].
  by rewrite Hg, Hb, Hfen.
Qed.

Lemma numbering_kept `{RulesEngine} game_code st w :
  numbering_invariant game_code st w → consistent game_code (db w).
Proof.
  intros (Hnum & Hgame & Hcode & Hfen & Hturn & Hmn). split; [done|].
  intros g. rewrite Hgame. intros [= <-]. by rewrite Hfen.
Qed.

Lemma game_loop_numbering `{E : RulesEngine} {L : RulesEngineLaws E}
    game_code turns st w :
  numbering_invariant game_code st w →
  consistent game_code (db (game_loop game_code turns st w).1).
Proof.
  revert st w. induction turns as [|e turns IH]; intros st w Hinv;
    cbn [game_loop]; destruct (is_game_over (board st)) eqn:Hover.
  - unfold finish_game. destruct (get_game_result _) as [r t]. cbn.
    by apply (numbering_exit game_code st w
                (Game.set_result (Some r) (Game.set_status COMPLETED (game st))));
      [|apply Hinv|].
  - by eapply numbering_kept.
  - unfold finish_game. destruct (get_game_result _) as [r t]. cbn.
    by apply (numbering_exit game_code st w
                (Game.set_result (Some r) (Game.set_status COMPLETED (game st))));
      [|apply Hinv|].
  - destruct (_ =? 0).
    + cbn. by apply (numbering_exit game_code st w
                       (Game.set_is_paused true (game st))); [|apply Hinv|].
    + assert (numbering_invariant game_code st (others (before_turn e) w)) as Hinv'
        by done.
      destruct (play_turn_cases game_code e st (others (before_turn e) w))
        as [(x & w' & -> & _ & Hdb & _)
           |(m & fb & cm & w' & -> & _ & Hdb & _)].
      * cbn. rewrite Hdb. by eapply numbering_kept.
      * apply IH. by eapply numbering_step.
Qed.

(** C7. Move records are numbered from 1, and the two plies of a full turn
    share a number: in the tables a run of the loop leaves, the [k]-th row of
    the match (from 0) has number [k / 2 + 1], white's row and black's row of
    the same full turn carry the same number, and the counter a later run
    recomputes from the row count continues the sequence. A new match, with the
    start position and no row, is where the numbering starts. *)
Theorem move_numbering `{E : RulesEngine} {L : RulesEngineLaws E}
    (game_code : string) (env : Env) (w : World) :
  consistent game_code (db w) →
  consistent game_code (db (run_game game_code env w).1)
  ∧ numbered game_code (moves (db (run_game game_code env w).1))
  ∧ paired game_code (moves (db (run_game game_code env w).1))
  ∧ consistent game_code
      {| games := {[ game_code := Game.new game_code ]}; moves := [] |}.
Proof.
  intros Hcons.
  assert (consistent game_code (db (run_game game_code env w).1)) as Hpost.
  { unfold run_game. cbn [add_log db].
    destruct (games (db w) !! game_code) as [g0|] eqn:Hg0; [|done].
    cbn [model_init GameStartedEvent kwargs_get].
    set (g := Game.set_is_paused false (Game.set_status IN_PROGRESS g0)).
    set (w1 := commit g [] _).
    destruct Hcons as [Hnum Hrow]. destruct (Hrow g0 Hg0) as [Hcode Hturn].
    assert (db w1 = {| games := <[game_code := g]> (games (db w));
                       moves := moves (db w) |}) as Hw1.
    { subst w1 g. cbn. by rewrite Hcode, app_nil_r. }
    set (st := Build_Loop _ _ _ _).
    assert (numbering_invariant game_code st w1) as Hinv.
    { unfold numbering_invariant. rewrite Hw1. cbn [games moves].
      split_and!; [done|by rewrite lookup_insert_eq|exact Hcode|done|exact Hturn|].
      subst st w1. cbn. by rewrite app_nil_r. }
    pose proof (wait_for_subscriber_frame 100 game_code (sleeps env) w1)
      as (Hdb & _).
    destruct (wait_for_subscriber 100 game_code (sleeps env) w1) as [[] w2];
      cbn [snd] in Hdb.
    - apply game_loop_numbering. unfold numbering_invariant. by rewrite Hdb.
    - cbn. rewrite Hdb.
      by apply (numbering_exit game_code st w1 (Game.set_is_paused true g)). }
  split_and!; [done|apply Hpost|apply numbered_paired, Hpost|].
  split; [by intros k row|]. intros g. cbn [games moves].
  rewrite lookup_singleton_eq.
  intros [= <-]. split; [done|]. apply turn_start.
Qed.

Lemma move_numbering_witness :
  consistent "AB12CD" (db sample_world)
  ∧ numbered "AB12CD" (moves (db (run_game "AB12CD" fools_mate sample_world).1))
  ∧ map (λ r, (Move.move_number r, Move.color r, Move.move_san r))
      (moves (db (run_game "AB12CD" fools_mate sample_world).1))
    = [(1, WHITE, "f3"); (1, BLACK, "e5"); (2, WHITE, "g4"); (2, BLACK, "Qh4#")].
Proof.
  assert (consistent "AB12CD" (db sample_world)) as Hcons.
  { split; [by intros k row|]. intros g. cbn. rewrite lookup_singleton_eq.
    intros [= <-]. split; [done|]. by vm_compute. }
  destruct (@move_numbering Scripted.engine Scripted_laws "AB12CD" fools_mate
              sample_world Hcons) as (_ & Hnum & _).
  split_and!; [done..|by vm_compute].
Defined.

(** ** The event bus *)

(** C9. Broadcasting an event to a match code that has no attached subscriber
    returns with the bus exactly as it was: no queue receives the event and
    nothing is kept of it. What any stream is later handed is therefore what it
    would be handed had the broadcast not happened, and a subscriber that
    attaches afterwards starts from an empty queue. *)
Theorem broadcast_without_subscribers (b : Bus) (game_code : string)
    (event : kwargs) :
  SSEManager.get_subscriber_count (sse_manager b) game_code = 0 →
  SSEManager.broadcast (sse_manager b) game_code event = sse_manager b
  ∧ bus_step b (Broadcast game_code event) = b
  ∧ (∀ later, bus_run (bus_step b (Broadcast game_code event)) later = bus_run b later)
  ∧ SSEManager.queues
      (SSEManager.subscribe_enter
         (SSEManager.broadcast (sse_manager b) game_code event) game_code).2
      !! (SSEManager.subscribe_enter
            (SSEManager.broadcast (sse_manager b) game_code event) game_code).1
    = Some [].
Proof.
  intros Hcount.
  assert (SSEManager.broadcast (sse_manager b) game_code event = sse_manager b) as Hm.
  { unfold SSEManager.broadcast, SSEManager.get_subscriber_count in *.
    destruct (SSEManager._connections (sse_manager b) !! game_code) as [l|]; [|done].
    by destruct l. }
  assert (bus_step b (Broadcast game_code event) = b) as Hb.
  { cbn. rewrite Hm. by destruct b. }
  split_and!; [done|done|by intros later; rewrite Hb|].
  cbn. by rewrite lookup_insert_eq.
Qed.

Lemma broadcast_without_subscribers_witness :
  SSEManager.get_subscriber_count (sse_manager Bus_init) "AB12CD" = 0
  ∧ bus_step Bus_init (Broadcast "AB12CD" [("type", VStr "game_started")]) = Bus_init
  ∧ delivered
      (bus_run
         (bus_step Bus_init (Broadcast "AB12CD" [("type", VStr "game_started")]))
         [Subscribe "AB12CD"; Receive "AB12CD" 0])
    = [].
Proof.
  assert (SSEManager.get_subscriber_count (sse_manager Bus_init) "AB12CD" = 0)
    as Hcount by done.
  destruct (broadcast_without_subscribers Bus_init "AB12CD"
              [("type", VStr "game_started")] Hcount) as (_ & Hb & Hlater & _).
  split_and!; [done|exact Hb|]. by rewrite Hlater.
Defined.

Lemma stream_eqb_spec (x y : string * nat) : stream_eqb x y = true ↔ x = y.
Proof.
  destruct x as [c q], y as [c' q']. unfold stream_eqb. cbn.
  rewrite andb_true_iff, String.eqb_eq, Nat.eqb_eq. split; [by intros [-> ->]|].
  by intros [= -> ->].
Qed.

Lemma is_running_spec b c q : is_running b c q = true ↔ (c, q) ∈ streams b.
Proof.
  unfold is_running. rewrite existsb_exists, list_elem_of_In. split.
  - by intros (x & Hx & ->%stream_eqb_spec).
  - intros Hin. exists (c, q). split; [done|]. by apply stream_eqb_spec.
Qed.

Lemma queues_of_cons c x l :
  queues_of c (x :: l) = if decide (x.1 = c) then x.2 :: queues_of c l else queues_of c l.
Proof. unfold queues_of. rewrite filter_cons. by destruct (decide _). Qed.

Lemma queues_of_snoc c c' q l :
  queues_of c (l ++ [(c', q)])
  = if decide (c' = c) then queues_of c l ++ [q] else queues_of c l.
Proof.
  unfold queues_of. rewrite filter_app, fmap_app, filter_cons. cbn.
  destruct (decide _); cbn; [done|by rewrite app_nil_r].
Qed.

Lemma queues_of_elem c q l : q ∈ queues_of c l ↔ (c, q) ∈ l.
Proof.
  unfold queues_of. rewrite list_elem_of_fmap. split.
  - intros ([c' q'] & -> & [Hin Hc]%list_elem_of_filter). cbn in *. by subst.
  - intros Hin. exists (c, q). split; [done|]. by apply list_elem_of_filter.
Qed.

Lemma list_remove_absent q l : q ∉ l → SSEManager.list_remove q l = l.
Proof.
  induction l as [|y l IH]; [done|]. intros [Hne Hl]%not_elem_of_cons. cbn.
  destruct (Nat.eqb_spec q y); [done|]. by rewrite IH.
Qed.

(** Closing the stream of queue [q] takes [q], and nothing else, out of the
    queues of its code. *)
Lemma queues_of_remove c q l :
  NoDup l.*2 →
  queues_of c (filter (λ x, negb (stream_eqb (c, q) x)) l)
  = SSEManager.list_remove q (queues_of c l).
Proof.
  induction l as [|[c' q'] l IH]; [done|].
  rewrite fmap_cons, NoDup_cons. cbn [snd]. intros [Hq' Hnd].
  rewrite filter_cons, queues_of_cons. cbn [fst snd].
  destruct (decide (c' = c)) as [->|Hc].
  - cbn [SSEManager.list_remove]. destruct (Nat.eqb_spec q q') as [->|Hq].
    + rewrite decide_False; last first.
      { intros Hs. apply Is_true_true in Hs. apply negb_true_iff in Hs.
        assert (stream_eqb (c, q') (c, q') = true) by by apply stream_eqb_spec.
        congruence. }
      rewrite IH by done. apply list_remove_absent.
      intros Hin%queues_of_elem. apply Hq'.
      apply list_elem_of_fmap. by exists (c, q').
    + rewrite decide_True; last first.
      { apply Is_true_true, negb_true_iff.
        destruct (stream_eqb (c, q) (c, q')) eqn:Hs; [|done].
        apply stream_eqb_spec in Hs. congruence. }
      rewrite queues_of_cons, decide_True by done. cbn [snd]. by rewrite IH.
  - rewrite decide_True; last first.
    { apply Is_true_true, negb_true_iff.
      destruct (stream_eqb (c, q) (c', q')) eqn:Hs; [|done].
      apply stream_eqb_spec in Hs. congruence. }
    rewrite queues_of_cons, decide_False by done. by apply IH.
Qed.

Lemma queues_of_remove_other c c' q l :
  c' ≠ c →
  queues_of c' (filter (λ x, negb (stream_eqb (c, q) x)) l) = queues_of c' l.
Proof.
  intros Hne. induction l as [|[c1 q1] l IH]; [done|].
  rewrite filter_cons, !queues_of_cons. cbn [fst snd].
  destruct (decide (Is_true (negb (stream_eqb (c, q) (c1, q1))))) as [Hk|Hk].
  - rewrite queues_of_cons. cbn [fst snd]. by rewrite IH.
  - apply Is_true_false, negb_false_iff, stream_eqb_spec in Hk as [= <- <-].
    by rewrite decide_False.
Qed.

Lemma put_frame item l m :
  SSEManager._connections (foldl (SSEManager.put item) m l)
  = SSEManager._connections m
  ∧ SSEManager.allocated (foldl (SSEManager.put item) m l) = SSEManager.allocated m.
Proof.
  revert m. induction l as [|q l IH]; intros m; [done|]. cbn [foldl].
  by destruct (IH (SSEManager.put item m q)) as [-> ->].
Qed.

Lemma broadcast_frame m c event :
  SSEManager._connections (SSEManager.broadcast m c event) = SSEManager._connections m
  ∧ SSEManager.allocated (SSEManager.broadcast m c event) = SSEManager.allocated m.
Proof.
  unfold SSEManager.broadcast. destruct (_ !! c); [apply put_frame|done].
Qed.

Lemma close_game_frame m c :
  SSEManager._connections (SSEManager.close_game m c) = SSEManager._connections m
  ∧ SSEManager.allocated (SSEManager.close_game m c) = SSEManager.allocated m.
Proof.
  unfold SSEManager.close_game. destruct (_ !! c); [apply put_frame|done].
Qed.

Lemma queue_get_frame m q item m' :
  SSEManager.queue_get m q = Some (item, m') →
  SSEManager._connections m' = SSEManager._connections m
  ∧ SSEManager.allocated m' = SSEManager.allocated m.
Proof.
  unfold SSEManager.queue_get. destruct (_ !! q) as [[|i l]|]; try done.
  by intros [= <- <-].
Qed.

(** The invariant looks at the lists, the allocation count, the streams and
    the exceptions only. *)
Lemma bus_invariant_frame b b' :
  SSEManager._connections (sse_manager b') = SSEManager._connections (sse_manager b) →
  SSEManager.allocated (sse_manager b') = SSEManager.allocated (sse_manager b) →
  streams b' = streams b → raised b' = raised b →
  bus_invariant b → bus_invariant b'.
Proof. unfold bus_invariant. by intros -> -> -> ->. Qed.

Lemma subscribe_invariant b c :
  bus_invariant b → bus_invariant (bus_step b (Subscribe c)).
Proof.
  intros (Hconn & Hne & Hnd & Hall & Hr). unfold bus_invariant.
  cbn [bus_step SSEManager.subscribe_enter sse_manager streams raised
       SSEManager._connections SSEManager.allocated].
  split_and!; [| | | |done].
  - intros c'. rewrite queues_of_snoc. destruct (decide (c = c')) as [->|Hc].
    + by rewrite lookup_insert_eq, <-Hconn.
    + by rewrite lookup_insert_ne.
  - intros c'. destruct (decide (c = c')) as [->|Hc].
    + rewrite lookup_insert_eq. intros [= H]. by destruct (default _ _).
    + by rewrite lookup_insert_ne.
  - rewrite fmap_app. apply NoDup_app. split_and!; [done| |by apply NoDup_singleton].
    intros q Hq ->%list_elem_of_singleton.
    eapply Forall_forall in Hall; [|done]. cbn in Hall. lia.
  - rewrite fmap_app. apply Forall_app. split.
    + eapply Forall_impl; [done|]. cbn. lia.
    + repeat constructor.
Qed.

(** The [finally] clause of a running stream: its queue leaves the list of its
    code, the list is deleted when it was the last, the other lists are not
    touched, and [remove] finds the queue. *)
Lemma stream_end_invariant b c q :
  bus_invariant b → (c, q) ∈ streams b →
  bus_invariant (stream_end b c q)
  ∧ default [] (SSEManager._connections (sse_manager (stream_end b c q)) !! c)
    = SSEManager.list_remove q
        (default [] (SSEManager._connections (sse_manager b) !! c))
  ∧ (∀ c', c' ≠ c →
       SSEManager._connections (sse_manager (stream_end b c q)) !! c'
       = SSEManager._connections (sse_manager b) !! c').
Proof.
  intros (Hconn & Hne & Hnd & Hall & Hr) Hin.
  assert (existsb (Nat.eqb q)
            (default [] (SSEManager._connections (sse_manager b) !! c)) = true)
    as Hfound.
  { apply existsb_exists. exists q. rewrite Nat.eqb_refl. split; [|done].
    apply list_elem_of_In. rewrite Hconn. by apply queues_of_elem. }
  unfold stream_end, SSEManager.subscribe_exit. rewrite Hfound.
  cbn [sse_manager streams raised SSEManager._connections SSEManager.allocated].
  set (l' := SSEManager.list_remove q _).
  assert (∀ c', c' ≠ c →
            match l' with
            | [] => delete c (SSEManager._connections (sse_manager b))
            | _ :: _ => <[c:=l']> (SSEManager._connections (sse_manager b))
            end !! c' = SSEManager._connections (sse_manager b) !! c') as Hother.
  { intros c' Hc. destruct l'; [by rewrite lookup_delete_ne|by rewrite lookup_insert_ne]. }
  assert (default []
            (match l' with
             | [] => delete c (SSEManager._connections (sse_manager b))
             | _ :: _ => <[c:=l']> (SSEManager._connections (sse_manager b))
             end !! c) = l') as Hthis.
  { destruct l'; [by rewrite lookup_delete_eq|by rewrite lookup_insert_eq]. }
  split_and!; [|done|done].
  unfold bus_invariant.
  cbn [sse_manager streams raised SSEManager._connections SSEManager.allocated].
  split_and!.
  - intros c'. destruct (decide (c' = c)) as [->|Hc].
    + rewrite Hthis. subst l'. by rewrite Hconn, queues_of_remove.
    + by rewrite Hother, queues_of_remove_other, Hconn.
  - intros c'. destruct (decide (c' = c)) as [->|Hc].
    + destruct l'; [by rewrite lookup_delete_eq|by rewrite lookup_insert_eq].
    + by rewrite Hother.
  - eapply sublist_NoDup; [done|]. apply fmap_sublist, sublist_filter.
  - apply Forall_forall. intros x Hx. eapply Forall_forall in Hall; [done|].
    eapply elem_of_sublist; [done|]. apply fmap_sublist, sublist_filter.
  - by rewrite Hr.
Qed.

(** Two viewers of one match: an event reaches both queues, the first viewer
    leaves, the second takes the event and then the shutdown signal. *)
Example two_viewers :
  let b :=
    bus_run Bus_init
      [ Subscribe "AB12CD"; Subscribe "AB12CD";
        Broadcast "AB12CD" [("type", VStr "game_started")];
        Disconnect "AB12CD" 0; Receive "AB12CD" 1; CloseGame "AB12CD" ] in
  SSEManager.get_subscriber_count (sse_manager b) "AB12CD" = 1
  ∧ streams b = [("AB12CD", 1)]
  ∧ delivered b = [(1, [("type", VStr "game_started")])]
  ∧ SSEManager.queues (sse_manager b) !! 1 = Some [None]
  ∧ SSEManager.get_subscriber_count
      (sse_manager (bus_step b (Receive "AB12CD" 1))) "AB12CD" = 0
  ∧ SSEManager._connections (sse_manager (bus_step b (Receive "AB12CD" 1)))
      !! "AB12CD" = None.
Proof. by vm_compute. Qed.

Lemma bus_step_invariant b a : bus_invariant b → bus_invariant (bus_step b a).
Proof.
  intros Hinv. destruct a as [c|c q|c q|c event|c]; cbn [bus_step].
  - by apply subscribe_invariant.
  - destruct (is_running b c q) eqn:Hrun; [|done].
    apply is_running_spec in Hrun.
    destruct (SSEManager.queue_get (sse_manager b) q) as [[[event|] m']|] eqn:Hget;
      [| |done]; apply queue_get_frame in Hget as [Hc Ha].
    + by eapply bus_invariant_frame.
    + apply stream_end_invariant; [|done]. by eapply bus_invariant_frame.
  - destruct (is_running b c q) eqn:Hrun; [|done].
    apply is_running_spec in Hrun. by apply stream_end_invariant.
  - destruct (broadcast_frame (sse_manager b) c event) as [Hc Ha].
    by eapply bus_invariant_frame.
  - destruct (close_game_frame (sse_manager b) c) as [Hc Ha].
    by eapply bus_invariant_frame.
Qed.

Lemma bus_run_invariant b actions :
  bus_invariant b → bus_invariant (bus_run b actions).
Proof.
  revert b. induction actions as [|a actions IH]; intros b Hinv; [done|].
  cbn. apply IH. by apply bus_step_invariant.
Qed.

Lemma Bus_init_invariant : bus_invariant Bus_init.
Proof.
  unfold bus_invariant. cbn. split_and!; try done.
  - constructor.
Qed.

Lemma list_remove_length q l :
  q ∈ l → S (length (SSEManager.list_remove q l)) = length l.
Proof.
  induction l as [|y l IH]; [by intros ?%elem_of_nil|]. cbn.
  destruct (Nat.eqb_spec q y) as [->|Hne]; [done|].
  intros [?|Hin]%elem_of_cons; [done|]. cbn. by rewrite IH.
Qed.

(** C10. In every state the bus reaches, the subscriber count of a match code
    is the number of running subscriber streams of that code, and no stream has
    raised. Subscribing appends exactly one new queue to the list of the code;
    a stream that ends, closed by its consumer or by the shutdown signal, takes
    exactly its own queue out of that list and leaves the other lists alone;
    a code whose count is zero has no entry, and broadcasts to it leave the bus
    unchanged. *)
Theorem subscriber_count (actions : list bus_action) (c : string) :
  let b := bus_run Bus_init actions in
  let connections := λ b, SSEManager._connections (sse_manager b) in
  let count := λ b, SSEManager.get_subscriber_count (sse_manager b) c in
  count b = length (queues_of c (streams b))
  ∧ raised b = []
  ∧ (∃ q, (q ∉ (streams b).*2)
          ∧ streams (bus_step b (Subscribe c)) = streams b ++ [(c, q)]
          ∧ connections (bus_step b (Subscribe c)) !! c
            = Some (default [] (connections b !! c) ++ [q])
          ∧ count (bus_step b (Subscribe c)) = S (count b))
  ∧ (∀ q b', (c, q) ∈ streams b → stream_ends b c q b' →
       ((c, q) ∉ streams b')
       ∧ default [] (connections b' !! c)
         = SSEManager.list_remove q (default [] (connections b !! c))
       ∧ (∀ c', c' ≠ c → connections b' !! c' = connections b !! c')
       ∧ S (count b') = count b
       ∧ raised b' = [])
  ∧ (count b = 0 →
     connections b !! c = None
     ∧ ∀ event, SSEManager.broadcast (sse_manager b) c event = sse_manager b).
Proof.
  intros b connections count. subst connections count. cbn beta.
  unfold SSEManager.get_subscriber_count.
  pose proof (bus_run_invariant Bus_init actions Bus_init_invariant) as Hinv.
  fold b in Hinv. destruct (Hinv) as (Hconn & Hne & Hnd & Hall & Hr).
  split_and!.
  - by rewrite Hconn.
  - done.
  - exists (SSEManager.allocated (sse_manager b)). split_and!.
    + intros Hin. eapply Forall_forall in Hall; [|done]. cbn in Hall. lia.
    + done.
    + cbn. by rewrite lookup_insert_eq.
    + cbn. rewrite lookup_insert_eq. cbn. rewrite length_app. cbn. lia.
  - intros q b' Hin Hends.
    assert (∃ b0, bus_invariant b0 ∧ (c, q) ∈ streams b0
                  ∧ SSEManager._connections (sse_manager b0)
                    = SSEManager._connections (sse_manager b)
                  ∧ b' = stream_end b0 c q)
      as (b0 & Hinv0 & Hin0 & Hc0 & ->).
    { destruct Hends as [->|(m & Hget & ->)]; cbn [bus_step];
        rewrite (proj2 (is_running_spec b c q) Hin).
      - by exists b.
      - rewrite Hget. apply queue_get_frame in Hget as [Hc Ha].
        exists {| sse_manager := m; streams := streams b;
                  delivered := delivered b; raised := raised b |}.
        split_and!; [|done|exact Hc|done]. by eapply bus_invariant_frame. }
    destruct (stream_end_invariant b0 c q Hinv0 Hin0) as (Hinv' & Hthis & Hother).
    rewrite <-Hc0. split_and!.
    + unfold stream_end. destruct (SSEManager.subscribe_exit _ _ _). cbn.
      intros [Hk _]%list_elem_of_filter. apply Is_true_true, negb_true_iff in Hk.
      assert (stream_eqb (c, q) (c, q) = true) by by apply stream_eqb_spec.
      congruence.
    + done.
    + done.
    + rewrite Hthis. apply list_remove_length.
      destruct Hinv0 as (Hconn0 & _). rewrite Hconn0. by apply queues_of_elem.
    + by destruct Hinv' as (_ & _ & _ & _ & ?).
  - intros Hzero.
    assert (SSEManager._connections (sse_manager b) !! c = None) as Hnone.
    { specialize (Hne c).
      destruct (SSEManager._connections (sse_manager b) !! c) as [[|]|]; done. }
    split; [done|]. intros event. unfold SSEManager.broadcast. by rewrite Hnone.
Qed.

(** * Further properties *)

(** ** Texts in the requested format *)

Lemma chars_app (a b : string) :
  list_ascii_of_string (a +:+ b) = list_ascii_of_string a ++ list_ascii_of_string b.
Proof.
  induction a as [|c a IH]; [done|].
  change (String c a +:+ b) with (String c (a +:+ b)). cbn [list_ascii_of_string app].
  by rewrite IH.
Qed.

Lemma search_from_clear label r prev pre s :
  clear_before label pre s = true →
  search_from (lit_chars true label +> r) prev (pre ++ s)
  = search_from (lit_chars true label +> r) (default prev (Some <$> last pre)) s.
Proof.
  revert prev. induction pre as [|d pre IH]; intros prev; [done|].
  cbn [clear_before]. intros [Hd Hpre]%andb_true_iff.
  apply negb_true_iff in Hd.
  change ((d :: pre) ++ s) with (d :: (pre ++ s)) in *.
  cbn [search_from]. rewrite lit_ci_starts by done.
  rewrite IH by done. rewrite last_cons. by destruct (last pre).
Qed.

Lemma clear_before_app label p1 p2 s :
  clear_before label (p1 ++ p2) s
  = clear_before label p1 (p2 ++ s) && clear_before label p2 s.
Proof.
  induction p1 as [|d p1 IH]; [done|].
  cbn [clear_before app]. rewrite IH.
  rewrite <-(assoc_L (++)). cbn [app]. by rewrite andb_assoc.
Qed.

Lemma starts_with_newline label x s :
  forallb (λ c, negb (is_char_ci c newline)) label = true →
  starts_with_ci label x = false →
  starts_with_ci label (x ++ newline :: s) = false.
Proof.
  revert x. induction label as [|c label IH]; intros x; [done|].
  cbn [forallb]. intros [Hc Hl]%andb_true_iff. apply negb_true_iff in Hc.
  destruct x as [|d x]; cbn [starts_with_ci app].
  - intros _. by rewrite Hc.
  - destruct (is_char_ci c d); [|done]. cbn. by apply IH.
Qed.

Lemma clear_value label v s :
  forallb (λ c, negb (is_char_ci c newline)) label = true →
  contains_ci label v = false →
  clear_before label v (newline :: s) = true.
Proof.
  intros Hl. induction v as [|d v IH]; [done|].
  cbn [contains_ci clear_before]. intros [H1 H2]%orb_false_elim.
  rewrite (starts_with_newline label (d :: v)) by done. cbn. by apply IH.
Qed.

Lemma rmatch_lit_ci {A} label L' r prev s g
    (k : option ascii → chars → option chars → option A) :
  Forall2 (λ c d, is_char_ci c d = true) label L' →
  rmatch (lit_chars true label +> r) prev (L' ++ s) g k
  = rmatch r (default prev (Some <$> last L')) s g k.
Proof.
  intros H. revert prev. induction H as [|c d label L' Hcd H IH]; intros prev; [done|].
  cbn [lit_chars rmatch app]. rewrite Hcd.
  change (rmatch (lit_chars true label +> r) (Some d) (L' ++ s) g k
          = rmatch r (default prev (Some <$> last (d :: L'))) s g k).
  rewrite IH. rewrite last_cons. by destruct (last L').
Qed.

Lemma star_greedy_run {A} p g (k : option ascii → chars → option chars → option A)
    prev v s a :
  forallb p v = true →
  k (default prev (Some <$> last v)) s g = Some a →
  match s with d :: _ => p d = false | [] => True end →
  star_greedy p g k prev (v ++ s) = Some a.
Proof.
  revert prev. induction v as [|c v IH]; intros prev; cbn [forallb app].
  - intros _ Hk Hs. cbn in Hk. destruct s as [|d s]; cbn; [done|]. by rewrite Hs.
  - intros [Hc Hv]%andb_true_iff Hk Hs. cbn [star_greedy]. rewrite Hc.
    rewrite (IH (Some c)); [done|done| |done].
    rewrite last_cons in Hk. by destruct (last v).
Qed.

Lemma plus_lazy_line {A} p g (k : option ascii → chars → option chars → option A)
    v s a :
  v ≠ [] → forallb p v = true →
  (∀ x b, b ≠ [] → forallb p b = true → k (Some x) (b ++ s) g = None) →
  k (last v) s g = Some a →
  plus_lazy p g k (v ++ s) = Some a.
Proof.
  induction v as [|c v IH]; [done|]. intros _. cbn [forallb app plus_lazy].
  intros [Hc Hv]%andb_true_iff Hin Hend. rewrite Hc.
  destruct v as [|c' v].
  - cbn in *. by rewrite Hend.
  - rewrite (Hin c (c' :: v)) by done. apply IH; [done|done|done|].
    exact Hend.
Qed.

Lemma take_consumed_app (v s : chars) : take (length (v ++ s) - length s) (v ++ s) = v.
Proof.
  rewrite length_app. replace (length v + length s - length s) with (length v) by lia.
  apply take_app_length.
Qed.

(** A labelled field whose value is the rest of a line. *)
Lemma search_field label tail pre L' ws v s p' s' :
  clear_before label pre (L' ++ ws ++ v ++ s) = true →
  Forall2 (λ c d, is_char_ci c d = true) label L' →
  forallb isspace ws = true →
  v ≠ [] → forallb dot v = true →
  match v with c :: _ => isspace c = false | [] => True end →
  (∀ x b g, b ≠ [] → forallb dot b = true →
            rmatch tail (Some x) (b ++ s) g found = None) →
  (∀ g, rmatch tail (last v) s g found = Some (MatchObj g p' s')) →
  search (lit_chars true label +> Star isspace +> Group (PlusLazy dot) +> tail)%re
    (pre ++ L' ++ ws ++ v ++ s)
  = Some (MatchObj (Some v) p' s').
Proof.
  intros Hclear HL Hws Hne Hdot Hhead Hin Hend.
  unfold search. rewrite search_from_clear by done.
  assert (∀ prev, rmatch (lit_chars true label +> Star isspace
                          +> Group (PlusLazy dot) +> tail)%re
                    prev (L' ++ ws ++ v ++ s) None found
                  = Some (MatchObj (Some v) p' s')) as Hhere.
  { intros prev. rewrite rmatch_lit_ci by done. cbn [rmatch].
    apply star_greedy_run; [done| |by destruct v].
    apply plus_lazy_line; [done|done| |].
    - intros x b Hb Hbd. by apply Hin.
    - cbn beta. rewrite take_consumed_app. apply Hend. }
  destruct (L' ++ ws ++ v ++ s) as [|d t] eqn:Ht.
  - cbn [search_from]. fold found. by rewrite Hhere.
  - cbn [search_from]. fold found. by rewrite Hhere.
Qed.

(** A labelled field whose value is a word. *)
Lemma search_word label pre L' ws v s :
  clear_before label pre (L' ++ ws ++ v ++ s) = true →
  Forall2 (λ c d, is_char_ci c d = true) label L' →
  forallb isspace ws = true →
  v ≠ [] → forallb not_space v = true →
  match s with d :: _ => not_space d = false | [] => True end →
  search (lit_chars true label +> Star isspace +> Group (Plus not_space))%re
    (pre ++ L' ++ ws ++ v ++ s)
  = Some (MatchObj (Some v) (last v) s).
Proof.
  intros Hclear HL Hws Hne Hv Hs.
  unfold search. rewrite search_from_clear by done.
  assert (∀ prev, rmatch (lit_chars true label +> Star isspace
                          +> Group (Plus not_space))%re
                    prev (L' ++ ws ++ v ++ s) None found
                  = Some (MatchObj (Some v) (last v) s)) as Hhere.
  { intros prev. rewrite rmatch_lit_ci by done. cbn [rmatch].
    destruct v as [|c v]; [done|]. cbn [forallb] in Hv.
    apply andb_true_iff in Hv as [Hc Hv].
    apply star_greedy_run; [done| |unfold not_space in Hc; by apply negb_true_iff in Hc].
    cbn [app]. rewrite Hc.
    apply star_greedy_run; [done| |done].
    unfold found. f_equal. f_equal.
    - f_equal. apply (take_consumed_app (c :: v) s).
    - rewrite last_cons. by destruct (last v). }
  destruct (L' ++ ws ++ v ++ s) as [|d t] eqn:Ht.
  - cbn [search_from]. fold found. by rewrite Hhere.
  - cbn [search_from]. fold found. by rewrite Hhere.
Qed.

Lemma dot_not_newline (c : ascii) :
  dot c = true → is_char newline c = false ∧ in_range 10 10 c = false.
Proof.
  unfold dot, is_char. intros Hc%negb_true_iff. split.
  - rewrite Ascii.eqb_sym. exact Hc.
  - destruct (in_range 10 10 c) eqn:Hr; [|done].
    unfold in_range, code in Hr. apply andb_true_iff in Hr as [H1 H2].
    apply N.leb_le in H1, H2.
    assert (N_of_ascii c = 10%N) as Hn by lia.
    apply (f_equal ascii_of_N) in Hn. rewrite ascii_N_embedding in Hn.
    subst c. done.
Qed.

(** Inside a line, neither a line break nor the end of the text is next. *)
Lemma line_end_interior r x b s g :
  b ≠ [] → forallb dot b = true →
  rmatch ((Chr (is_char newline) +> r) <|> Dollar)%re (Some x) (b ++ s) g found = None.
Proof.
  destruct b as [|c b]; [done|]. intros _. cbn [forallb app].
  intros [[Hc Hr]%dot_not_newline Hb]%andb_true_iff.
  cbn [rmatch]. rewrite Hc. unfold at_dollar.
  destruct (b ++ s); [by rewrite Hr|done].
Qed.

Lemma line_end_interior_plain x b s g :
  b ≠ [] → forallb dot b = true →
  rmatch (Chr (is_char newline) <|> Dollar)%re (Some x) (b ++ s) g found = None.
Proof.
  destruct b as [|c b]; [done|]. intros _. cbn [forallb app].
  intros [[Hc Hr]%dot_not_newline Hb]%andb_true_iff.
  cbn [rmatch]. rewrite Hc. unfold at_dollar.
  destruct (b ++ s); [by rewrite Hr|done].
Qed.

Lemma lstrip_length (v : chars) : length (lstrip v) ≤ length v.
Proof. induction v as [|c v IH]; [done|]. cbn. destruct (isspace c); cbn; lia. Qed.

Lemma strip_fixed_head (v : chars) :
  strip v = v → match v with c :: _ => isspace c = false | [] => True end.
Proof.
  destruct v as [|c v]; [done|]. intros Hs.
  destruct (isspace c) eqn:Hc; [|done]. exfalso.
  apply (f_equal length) in Hs. unfold strip in Hs.
  rewrite length_rev in Hs.
  pose proof (lstrip_length (rev (lstrip (c :: v)))) as H1.
  rewrite length_rev in H1. cbn [lstrip] in *. rewrite Hc in *.
  pose proof (lstrip_length v). cbn in Hs. lia.
Qed.

Lemma one_line_spec (s : string) :
  one_line s = true →
  let v := list_ascii_of_string s in
  v ≠ [] ∧ forallb dot v = true ∧ strip v = v
  ∧ match v with c :: _ => isspace c = false | [] => True end.
Proof.
  unfold one_line, str_strip. intros H.
  apply andb_true_iff in H as [H Hs]. apply andb_true_iff in H as [Hne Hdot].
  apply String.eqb_eq in Hs. apply negb_true_iff, String.eqb_neq in Hne.
  assert (strip (list_ascii_of_string s) = list_ascii_of_string s) as Hstrip.
  { rewrite <-Hs at 2. by rewrite list_ascii_of_string_of_list_ascii. }
  cbv zeta. split_and!; [|done|done|by apply strip_fixed_head].
  intros Hnil. apply Hne. rewrite <-(string_of_list_ascii_of_string s).
  by rewrite Hnil.
Qed.

Lemma is_word_spec (s : string) :
  is_word s = true →
  let v := list_ascii_of_string s in v ≠ [] ∧ forallb not_space v = true.
Proof.
  unfold is_word. intros [Hne Hw]%andb_true_iff.
  apply negb_true_iff, String.eqb_neq in Hne. cbv zeta. split; [|done].
  intros Hnil. apply Hne. rewrite <-(string_of_list_ascii_of_string s).
  by rewrite Hnil.
Qed.

Lemma formatted_chars (m c k e o : string) :
  list_ascii_of_string (formatted_response m c k e o)
  = list_ascii_of_string "MOVE: " ++ list_ascii_of_string m
    ++ newline :: list_ascii_of_string "COMMENT: " ++ list_ascii_of_string c
    ++ newline :: list_ascii_of_string "COMMENTARY: " ++ list_ascii_of_string k
    ++ newline :: list_ascii_of_string "MY_EMOTION: " ++ list_ascii_of_string e
    ++ newline :: list_ascii_of_string "OPPONENT_EMOTION: " ++ list_ascii_of_string o.
Proof. unfold formatted_response. by rewrite !chars_app. Qed.

Lemma label_free_spec (s : string) :
  label_free s = true →
  has_label "COMMENT:" s = false ∧ has_label "COMMENTARY:" s = false
  ∧ has_label "MY_EMOTION:" s = false ∧ has_label "OPPONENT_EMOTION:" s = false.
Proof.
  unfold label_free. cbn [forallb]. rewrite !andb_true_iff, !negb_true_iff. tauto.
Qed.

Lemma formatted_segments (m c k e o : string) :
  list_ascii_of_string (formatted_response m c k e o)
  = list_ascii_of_string "MOVE:" ++ [sp] ++ list_ascii_of_string m ++ [newline]
    ++ list_ascii_of_string "COMMENT:" ++ [sp] ++ list_ascii_of_string c ++ [newline]
    ++ list_ascii_of_string "COMMENTARY:" ++ [sp] ++ list_ascii_of_string k ++ [newline]
    ++ list_ascii_of_string "MY_EMOTION:" ++ [sp] ++ list_ascii_of_string e ++ [newline]
    ++ list_ascii_of_string "OPPONENT_EMOTION:" ++ [sp] ++ list_ascii_of_string o.
Proof. unfold formatted_response. by rewrite !chars_app. Qed.

Lemma ci_refl (l : chars) : Forall2 (λ c d, is_char_ci c d = true) l l.
Proof.
  induction l as [|c l IH]; constructor; [|done].
  unfold is_char_ci. apply Ascii.eqb_refl.
Qed.

Ltac clear_segments :=
  repeat (rewrite clear_before_app; apply andb_true_iff; split);
  first [ reflexivity | apply clear_value; [reflexivity | assumption] ].

Ltac field_side :=
  first [ done | apply ci_refl | clear_segments
        | intros ? ? ?; apply line_end_interior_plain
        | intros ? ? ?; apply line_end_interior
        | intros ?; reflexivity ].

Lemma formatted_fields (m c k e o : string) :
  one_line m = true → one_line c = true → one_line k = true →
  is_word e = true → is_word o = true →
  label_free m = true → label_free c = true → label_free k = true →
  label_free e = true →
  let txt := formatted_response m c k e o in
  extract_field MOVE_re txt = Some m
  ∧ extract_field COMMENT_re txt = Some c
  ∧ extract_field COMMENTARY_re txt = Some k
  ∧ extract_field MY_EMOTION_re txt = Some e
  ∧ extract_field OPPONENT_EMOTION_re txt = Some o.
Proof.
  intros (Hm1 & Hm2 & Hm3 & Hm4)%one_line_spec (Hc1 & Hc2 & Hc3 & Hc4)%one_line_spec
    (Hk1 & Hk2 & Hk3 & Hk4)%one_line_spec [He1 He2]%is_word_spec [Ho1 Ho2]%is_word_spec
    (Hm5 & Hm6 & Hm7 & Hm8)%label_free_spec (Hc5 & Hc6 & Hc7 & Hc8)%label_free_spec
    (Hk5 & Hk6 & Hk7 & Hk8)%label_free_spec (He5 & He6 & He7 & He8)%label_free_spec.
  unfold has_label in *. cbv zeta in *.
  unfold extract_field. rewrite formatted_segments.
  set (M := list_ascii_of_string m) in *. set (C := list_ascii_of_string c) in *.
  set (K := list_ascii_of_string k) in *. set (E := list_ascii_of_string e) in *.
  set (O := list_ascii_of_string o) in *.
  set (L1 := list_ascii_of_string "MOVE:").
  set (L2 := list_ascii_of_string "COMMENT:").
  set (L3 := list_ascii_of_string "COMMENTARY:").
  set (L4 := list_ascii_of_string "MY_EMOTION:").
  set (L5 := list_ascii_of_string "OPPONENT_EMOTION:").
  split_and!.
  - assert (∃ p' s', search MOVE_re
              (L1 ++ [sp] ++ M ++ [newline] ++ L2 ++ [sp] ++ C ++ [newline]
               ++ L3 ++ [sp] ++ K ++ [newline] ++ L4 ++ [sp] ++ E ++ [newline]
               ++ L5 ++ [sp] ++ O)
            = Some (MatchObj (Some M) p' s')) as (p' & s' & ->).
    { eexists _, _.
      apply (search_field L1 _ [] L1 [sp] M); field_side. }
    cbn [group1 default from_option id]. rewrite Hm3. f_equal. apply string_of_list_ascii_of_string.
  - match goal with |- context [search _ ?t] =>
      replace t with ((L1 ++ [sp] ++ M ++ [newline]) ++ L2 ++ [sp] ++ C
                      ++ newline :: (L3 ++ [sp] ++ K ++ [newline] ++ L4 ++ [sp] ++ E
                                     ++ [newline] ++ L5 ++ [sp] ++ O))
        by (by rewrite <-?(assoc_L (++)))
    end.
    assert (∃ p' s', search COMMENT_re
              ((L1 ++ [sp] ++ M ++ [newline]) ++ L2 ++ [sp] ++ C
               ++ newline :: (L3 ++ [sp] ++ K ++ [newline] ++ L4 ++ [sp] ++ E
                              ++ [newline] ++ L5 ++ [sp] ++ O))
            = Some (MatchObj (Some C) p' s')) as (p' & s' & ->).
    { eexists _, _.
      apply (search_field L2 _ (L1 ++ [sp] ++ M ++ [newline]) L2 [sp] C); field_side. }
    cbn [group1 default from_option id]. rewrite Hc3. f_equal. apply string_of_list_ascii_of_string.
  - match goal with |- context [search _ ?t] =>
      replace t with ((L1 ++ [sp] ++ M ++ [newline] ++ L2 ++ [sp] ++ C ++ [newline])
                      ++ L3 ++ [sp] ++ K
                      ++ newline :: (L4 ++ [sp] ++ E ++ [newline] ++ L5 ++ [sp] ++ O))
        by (by rewrite <-?(assoc_L (++)))
    end.
    assert (∃ p' s', search COMMENTARY_re
              ((L1 ++ [sp] ++ M ++ [newline] ++ L2 ++ [sp] ++ C ++ [newline])
               ++ L3 ++ [sp] ++ K
               ++ newline :: (L4 ++ [sp] ++ E ++ [newline] ++ L5 ++ [sp] ++ O))
            = Some (MatchObj (Some K) p' s')) as (p' & s' & ->).
    { eexists _, _.
      apply (search_field L3 _
               (L1 ++ [sp] ++ M ++ [newline] ++ L2 ++ [sp] ++ C ++ [newline])
               L3 [sp] K); field_side. }
    cbn [group1 default from_option id]. rewrite Hk3. f_equal. apply string_of_list_ascii_of_string.
  - match goal with |- context [search _ ?t] =>
      replace t with ((L1 ++ [sp] ++ M ++ [newline] ++ L2 ++ [sp] ++ C ++ [newline]
                       ++ L3 ++ [sp] ++ K ++ [newline])
                      ++ L4 ++ [sp] ++ E
                      ++ newline :: (L5 ++ [sp] ++ O))
        by (by rewrite <-?(assoc_L (++)))
    end.
    unfold MY_EMOTION_re, lit_ci. fold L4.
    rewrite (search_word L4); try done; [|clear_segments|apply ci_refl].
    cbn [group1 default from_option id]. rewrite strip_not_space by done.
    f_equal. apply string_of_list_ascii_of_string.
  - match goal with |- context [search _ ?t] =>
      replace t with ((L1 ++ [sp] ++ M ++ [newline] ++ L2 ++ [sp] ++ C ++ [newline]
                       ++ L3 ++ [sp] ++ K ++ [newline] ++ L4 ++ [sp] ++ E ++ [newline])
                      ++ L5 ++ [sp] ++ O ++ [])
        by (by rewrite <-?(assoc_L (++)), app_nil_r)
    end.
    unfold OPPONENT_EMOTION_re, lit_ci. fold L5.
    rewrite (search_word L5); try done; [|clear_segments|apply ci_refl].
    cbn [group1 default from_option id]. rewrite strip_not_space by done.
    f_equal. apply string_of_list_ascii_of_string.
Qed.

Lemma validate_emotion_word field (e : string) :
  e ≠ "" →
  validate_emotion field (Some e) = (Some (emotion_of e), emotion_warnings field (Some e)).
Proof.
  intros He. unfold validate_emotion, invalid_emotion, emotion_of, emotion_warnings.
  rewrite truthy_nonempty by done. cbn [andb default from_option id].
  destruct (is_valid_emotion e) eqn:Hv; cbn [negb].
  - apply is_valid_emotion_spec in Hv. by rewrite bool_decide_eq_true_2.
  - assert (e ∉ VALID_EMOTIONS) as Hn.
    { rewrite <-is_valid_emotion_spec. by rewrite Hv. }
    by rewrite bool_decide_eq_false_2.
Qed.

Lemma is_word_nonempty (e : string) : is_word e = true → e ≠ "".
Proof. unfold is_word. intros [H _]%andb_true_iff. by apply negb_true_iff, String.eqb_neq in H. Qed.

Lemma formatted_move_comment (m c k e o : string) :
  well_formed m c k e o = true →
  ChessMoveResponse.move (parse_chess_response (formatted_response m c k e o))
  = Some m
  ∧ ChessMoveResponse.comment (parse_chess_response (formatted_response m c k e o))
    = Some c.
Proof.
  unfold well_formed. rewrite !andb_true_iff.
  intros [[[[[[[[Hm Hc] Hk] He] Ho] Hfm] Hfc] Hfk] Hfe].
  destruct (formatted_fields m c k e o) as (H1 & H2 & _); try done.
  unfold parse_chess_response, parse_chess_response_logged. rewrite H1, H2.
  by do 2 destruct (validate_emotion _ _).
Qed.

(** X1. A response written the way the prompt asks, the five labelled lines
    [MOVE:], [COMMENT:], [COMMENTARY:], [MY_EMOTION:] and [OPPONENT_EMOTION:]
    with well-formed values (move, rationale and commentary non-empty, on one
    line, without white space at their ends; each emotion a single word; no
    later label inside an earlier value), is parsed back into its values: the
    three texts as written, and each emotion itself when it is one of the nine
    tags, [stone_wall] with a logged warning otherwise. *)
Theorem formatted_response_parsed (m c k e o : string) :
  well_formed m c k e o = true →
  parse_chess_response_logged (formatted_response m c k e o)
  = ({| ChessMoveResponse.move := Some m;
        ChessMoveResponse.comment := Some c;
        ChessMoveResponse.commentary := Some k;
        ChessMoveResponse.my_emotion := Some (emotion_of e);
        ChessMoveResponse.opponent_emotion := Some (emotion_of o) |},
     emotion_warnings "my_emotion" (Some e)
     ++ emotion_warnings "opponent_emotion" (Some o)).
Proof.
  unfold well_formed. rewrite !andb_true_iff.
  intros [[[[[[[[Hm Hc] Hk] He] Ho] Hfm] Hfc] Hfk] Hfe].
  destruct (formatted_fields m c k e o) as (H1 & H2 & H3 & H4 & H5); try done.
  unfold parse_chess_response_logged. rewrite H1, H2, H3, H4, H5.
  rewrite !validate_emotion_word by by apply is_word_nonempty.
  done.
Qed.

Lemma formatted_response_parsed_witness :
  well_formed "Nf3" "Knights before bishops: always" "A calm start." "predator"
    "overjoyed" = true
  ∧ parse_chess_response
      (formatted_response "Nf3" "Knights before bishops: always" "A calm start."
         "predator" "overjoyed")
    = {| ChessMoveResponse.move := Some "Nf3";
         ChessMoveResponse.comment := Some "Knights before bishops: always";
         ChessMoveResponse.commentary := Some "A calm start.";
         ChessMoveResponse.my_emotion := Some "predator";
         ChessMoveResponse.opponent_emotion := Some "stone_wall" |}.
Proof.
  assert (well_formed "Nf3" "Knights before bishops: always" "A calm start."
            "predator" "overjoyed" = true) as Hwf by (by vm_compute).
  split; [exact Hwf|]. unfold parse_chess_response.
  by rewrite (formatted_response_parsed _ _ _ _ _ Hwf).
Defined.

(** ** The first label *)

Lemma is_char_ci_other (c c' d : ascii) :
  is_char_ci c d = true → is_char_ci c' d = is_char_ci c' c.
Proof.
  unfold is_char_ci. intros H%Ascii.eqb_eq. by rewrite H.
Qed.

Lemma eqb_ci_spec (a b : chars) :
  eqb_ci a b = true → Forall2 (λ c d, is_char_ci c d = true) a b.
Proof.
  revert b. induction a as [|c a IH]; intros [|d b]; cbn; try done.
  intros [H1 H2]%andb_true_iff. constructor; [done|by apply IH].
Qed.

(** No occurrence of [MOVE:] starts before a label and runs into it. *)
Lemma move_label_straddle (b L' s : chars) :
  Forall2 (λ c d, is_char_ci c d = true) (list_ascii_of_string "MOVE:") L' →
  b ≠ [] →
  starts_with_ci (list_ascii_of_string "MOVE:") b = false →
  starts_with_ci (list_ascii_of_string "MOVE:") (b ++ L' ++ s) = false.
Proof.
  intros HL Hb Hstart. cbn in HL.
  apply Forall2_cons_inv_l in HL as (l1 & L1 & H1 & HL & ->).
  destruct b as [|b1 [|b2 [|b3 [|b4 [|b5 b]]]]]; [done|..];
    cbn [app list_ascii_of_string starts_with_ci] in *;
    rewrite ?(is_char_ci_other _ _ _ H1);
    by rewrite ?andb_false_r.
Qed.

Lemma move_label_clear (pre L' s : chars) :
  Forall2 (λ c d, is_char_ci c d = true) (list_ascii_of_string "MOVE:") L' →
  contains_ci (list_ascii_of_string "MOVE:") pre = false →
  clear_before (list_ascii_of_string "MOVE:") pre (L' ++ s) = true.
Proof.
  intros HL. induction pre as [|d pre IH]; [done|].
  cbn [contains_ci clear_before]. intros [H1 H2]%orb_false_elim.
  rewrite (move_label_straddle (d :: pre)) by done. cbn. by apply IH.
Qed.

Lemma line_content_spec (s : string) :
  line_content s = true →
  let v := list_ascii_of_string s in
  v ≠ [] ∧ forallb dot v = true
  ∧ match v with c :: _ => isspace c = false | [] => True end.
Proof.
  unfold line_content. destruct (list_ascii_of_string s) as [|c v]; [done|].
  intros [Hc Hv]%andb_true_iff. apply negb_true_iff in Hc. by cbv zeta.
Qed.

(** X2. The move token is read at the first [MOVE:] label of the text, in any
    letter case: when no label occurs before it and the label is followed by
    white space, a value that starts with a visible character and stays on its
    line, and then the end of the text or a line break, the token is that
    value without its trailing white space. A label that ends a sentence
    therefore takes the next line as its value: ["Here is my move:\nMOVE: e4"]
    gives the token ["MOVE: e4"]. *)
Theorem first_move_label (pre label ws v rest : string) :
  has_label "MOVE:" pre = false →
  is_label "MOVE:" label = true →
  blank ws = true →
  line_content v = true →
  line_end rest = true →
  ChessMoveResponse.move
    (parse_chess_response (pre +:+ label +:+ ws +:+ v +:+ rest))
  = Some (str_strip v).
Proof.
  intros Hpre HL%eqb_ci_spec Hws (Hv1 & Hv2 & Hv3)%line_content_spec Hrest.
  unfold parse_chess_response, parse_chess_response_logged.
  do 2 destruct (validate_emotion _ _). cbn [fst ChessMoveResponse.move].
  unfold extract_field. rewrite !chars_app.
  assert (∃ p' s', search MOVE_re
            (list_ascii_of_string pre ++ list_ascii_of_string label
             ++ list_ascii_of_string ws ++ list_ascii_of_string v
             ++ list_ascii_of_string rest)
          = Some (MatchObj (Some (list_ascii_of_string v)) p' s')) as (p' & s' & ->).
  { unfold line_end in Hrest.
    destruct (list_ascii_of_string rest) as [|d r] eqn:Hr.
    - eexists _, _.
      apply search_field;
        first [ done | by apply move_label_clear
              | intros ? ? ?; apply line_end_interior_plain
              | intros ?; reflexivity ].
    - apply Ascii.eqb_eq in Hrest as ->.
      eexists _, _.
      apply search_field;
        first [ done | by apply move_label_clear
              | intros ? ? ?; apply line_end_interior_plain
              | intros ?; reflexivity ]. }
  done.
Qed.

Lemma first_move_label_witness :
  has_label "MOVE:" "Here is my " = false
  ∧ ChessMoveResponse.move
      (parse_chess_response ("Here is my move:" +:+ lf +:+ "MOVE: e4"))
    = Some "MOVE: e4".
Proof.
  assert (has_label "MOVE:" "Here is my " = false) as Hpre by (by vm_compute).
  split; [exact Hpre|].
  apply (first_move_label "Here is my " "move:" lf "MOVE: e4" "" Hpre); by vm_compute.
Defined.

(** ** Fields stay on their line *)

Lemma star_greedy_keeps {A} p g (k : option ascii → chars → option chars → option A)
    prev s a :
  star_greedy p g k prev s = Some a → ∃ prev' s', k prev' s' g = Some a.
Proof.
  intros (pre & prev' & s' & _ & _ & Hk)%star_greedy_inv. eauto.
Qed.

Lemma rmatch_keeps_group {A} r prev s g
    (k : option ascii → chars → option chars → option A) a :
  group_free r = true →
  rmatch r prev s g k = Some a → ∃ prev' s', k prev' s' g = Some a.
Proof.
  revert prev s k a.
  induction r as [|p|r1 IH1 r2 IH2|r1 IH1 r2 IH2|r1 IH1|p|p|p|r1 IH1| |];
    intros prev s k a; cbn [group_free rmatch]; try done.
  - eauto.
  - destruct s as [|c s]; [done|]. destruct (p c); [|done]. eauto.
  - intros [H1 H2]%andb_true_iff Hm.
    apply IH1 in Hm as (prev1 & s1 & Hm); [|done]. by apply IH2 in Hm.
  - intros [H1 H2]%andb_true_iff.
    destruct (rmatch r1 prev s g k) as [a'|] eqn:Hm.
    + intros [= ->]. by apply IH1 in Hm.
    + by apply IH2.
  - intros H1. destruct (rmatch r1 prev s g k) as [a'|] eqn:Hm.
    + intros [= ->]. by apply IH1 in Hm.
    + eauto.
  - intros _. apply star_greedy_keeps.
  - intros _. destruct s as [|c s]; [done|]. destruct (p c); [|done].
    apply star_greedy_keeps.
  - intros _ (pre & prev' & s' & _ & _ & _ & Hk)%plus_lazy_inv. eauto.
  - intros _. destruct (at_dollar s); [|done]. eauto.
  - intros _. destruct (at_boundary prev s); [|done]. eauto.
Qed.

(** Group 1 of [label \s* (.+?) tail] is part of one line. *)
Lemma line_group label tail m s :
  group_free tail = true →
  search (lit_chars true label +> Star isspace +> Group (PlusLazy dot) +> tail)%re s
    = Some m →
  ∃ w, group1 m = Some w ∧ forallb dot w = true.
Proof.
  intros Htail (prev & s0 & H)%search_from_inv.
  cbn [rmatch] in H. apply rmatch_inv in H as (? & prev1 & s1 & g1 & _ & H).
  apply star_greedy_inv in H as (? & prev2 & s2 & _ & _ & H).
  apply plus_lazy_inv in H as (w & prev3 & s3 & -> & _ & Hw & H).
  cbn beta in H. rewrite take_consumed_app in H.
  apply rmatch_keeps_group in H as (prev4 & s4 & [= <-]); [|done]. eauto.
Qed.

Lemma lstrip_forallb p (w : chars) : forallb p w = true → forallb p (lstrip w) = true.
Proof.
  induction w as [|c w IH]; [done|]. cbn [lstrip]. destruct (isspace c); [|done].
  cbn. intros [_ H]%andb_true_iff. by apply IH.
Qed.

Lemma rev_forallb p (w : chars) : forallb p w = true → forallb p (rev w) = true.
Proof.
  rewrite !forallb_forall. intros H c Hc%in_rev. by apply H.
Qed.

Lemma strip_forallb p (w : chars) : forallb p w = true → forallb p (strip w) = true.
Proof.
  intros H. unfold strip. by apply rev_forallb, lstrip_forallb, rev_forallb, lstrip_forallb.
Qed.

Lemma lstrip_head (w : chars) :
  match lstrip w with c :: _ => isspace c = false | [] => True end.
Proof.
  induction w as [|c w IH]; [done|]. cbn [lstrip].
  by destruct (isspace c) eqn:Hc.
Qed.

Lemma lstrip_fixed (w : chars) :
  match w with c :: _ => isspace c = false | [] => True end → lstrip w = w.
Proof. destruct w as [|c w]; [done|]. cbn. by intros ->. Qed.

Lemma lstrip_suffix (w : chars) : ∃ ws, w = ws ++ lstrip w.
Proof.
  induction w as [|c w [ws IH]]; [by exists []|]. cbn [lstrip].
  destruct (isspace c); [|by exists []].
  exists (c :: ws). cbn. by rewrite <-IH.
Qed.

(** [strip] leaves no white space at either end. *)
Lemma strip_strip (w : chars) : strip (strip w) = strip w.
Proof.
  unfold strip. set (c := lstrip w). set (b := lstrip (rev c)).
  assert (lstrip (rev b) = rev b) as Hb.
  { apply lstrip_fixed. destruct (rev b) as [|x t] eqn:Hrev; [done|].
    (* the head of [rev b] is the last of [b], which is the head of [c] *)
    destruct (lstrip_suffix (rev c)) as [ws Hws]. fold b in Hws.
    apply (f_equal (@rev _)) in Hws. rewrite rev_involutive, rev_app_distr, Hrev in Hws.
    pose proof (lstrip_head w) as Hc. fold c in Hc. rewrite Hws in Hc. exact Hc. }
  rewrite Hb, rev_involutive.
  assert (lstrip b = b) as ->; [|done].
  subst b. apply lstrip_fixed, lstrip_head.
Qed.

Lemma extract_field_line label tail txt v :
  group_free tail = true →
  extract_field
    (lit_chars true label +> Star isspace +> Group (PlusLazy dot) +> tail)%re txt
  = Some v →
  forallb dot (list_ascii_of_string v) = true ∧ str_strip v = v.
Proof.
  intros Htail. unfold extract_field, str_strip.
  destruct (search _ _) as [m|] eqn:Hs; [|done].
  apply line_group in Hs as (w & -> & Hw); [|done]. intros [= <-].
  cbn [default from_option id]. rewrite list_ascii_of_string_of_list_ascii.
  split; [by apply strip_forallb|by rewrite strip_strip].
Qed.

(** X3. For every text, the move, the rationale and the commentary the parser
    returns are either absent or lie within one line of the text (they hold no
    line break) and have no white space at either end. *)
Theorem fields_single_line (txt : string) :
  let parsed := parse_chess_response txt in
  single_line (ChessMoveResponse.move parsed)
  ∧ single_line (ChessMoveResponse.comment parsed)
  ∧ single_line (ChessMoveResponse.commentary parsed).
Proof.
  intros parsed. subst parsed.
  unfold parse_chess_response, parse_chess_response_logged.
  do 2 destruct (validate_emotion _ _).
  cbn [fst ChessMoveResponse.move ChessMoveResponse.comment
       ChessMoveResponse.commentary].
  unfold single_line. split_and!.
  - destruct (extract_field MOVE_re txt) as [v|] eqn:H; [|done].
    by apply extract_field_line in H.
  - destruct (extract_field COMMENT_re txt) as [v|] eqn:H; [|done].
    by apply extract_field_line in H.
  - destruct (extract_field COMMENTARY_re txt) as [v|] eqn:H; [|done].
    by apply extract_field_line in H.
Qed.


(** ** The steps of a run *)

Lemma game_loop_run `{RulesEngine} game_code turns st w :
  loop_run game_code st w (game_loop game_code turns st w).1
    (game_loop game_code turns st w).2.
Proof.
  revert st w. induction turns as [|e turns IH]; intros st w; cbn [game_loop];
    destruct (is_game_over (board st)) eqn:Hover.
  - by constructor.
  - by constructor.
  - by constructor.
  - fold (viewers game_code (others (before_turn e) w)).
    destruct (Nat.eqb_spec (viewers game_code (others (before_turn e) w)) 0)
      as [Hz|Hnz].
    + by apply loop_pause.
    + destruct (play_turn game_code e st (others (before_turn e) w))
        as [w' [st'|x]] eqn:Hplay.
      * eapply loop_turn; [done..|]. apply IH.
      * by eapply loop_raise.
Qed.

Lemma run_game_cases `{RulesEngine} game_code env w :
  match games (db w) !! game_code with
  | None =>
      run_game game_code env w
      = (add_log [(ERROR, "Game " +:+ game_code +:+ " not found")]
           (add_log [(INFO, "Starting game loop for game " +:+ game_code)] w),
         GameNotFound)
  | Some g0 =>
      match wait_for_subscriber 100 game_code (sleeps env) (opened game_code g0 w) with
      | (false, w2) =>
          run_game game_code env w = (timed_out game_code g0 w2, NoViewersAtStart)
      | (true, w2) =>
          run_game game_code env w
          = game_loop game_code (turns env)
              (first_state game_code g0 (opened game_code g0 w)) w2
      end
  end.
Proof.
  unfold run_game. cbn [add_log db].
  destruct (games (db w) !! game_code) as [g0|]; [|done].
  cbn [model_init GameStartedEvent kwargs_get].
  fold game_started_event. fold (opened game_code g0 w).
  by destruct (wait_for_subscriber 100 game_code (sleeps env) (opened game_code g0 w))
    as [[] w2].
Qed.

Lemma play_turn_return `{RulesEngine} game_code e st w w' st' :
  play_turn game_code e st w = (w', Return st') →
  ∃ m was_fallback comment,
    st' = after_move e st m
    ∧ chosen e st m was_fallback comment
    ∧ db w' =
        {| games :=
             <[Game.game_code (game (after_move e st m)) := game (after_move e st m)]>
               (games (db w));
           moves := moves (db w) ++ [move_row game_code st m was_fallback comment] |}
    ∧ persisted w' = persisted w ++ [game (after_move e st m)]
    ∧ published w' =
        published w ++ [(game_code, move_event_of st m was_fallback comment)]
    ∧ oracle_calls w' = oracle_calls w ++ [turn_cmd st].
Proof.
  intros Hplay.
  destruct (play_turn_cases game_code e st w)
    as [(x & w1 & Hraise & _)|(m & fb & cm & w1 & Hret & Hrest)].
  - rewrite Hplay in Hraise. by injection Hraise.
  - rewrite Hplay in Hret. injection Hret as -> ->. by exists m, fb, cm.
Qed.

Lemma play_turn_raise `{RulesEngine} game_code e st w w' x :
  play_turn game_code e st w = (w', Raise x) →
  raised_by e st x
  ∧ db w' = db w ∧ persisted w' = persisted w ∧ published w' = published w
  ∧ bus w' = bus w ∧ oracle_calls w' = oracle_calls w ++ [turn_cmd st].
Proof.
  intros Hplay.
  destruct (play_turn_cases game_code e st w)
    as [(x' & w1 & Hraise & Hrest)|(m & fb & cm & w1 & Hret & _)].
  - rewrite Hplay in Hraise. by injection Hraise as -> ->.
  - rewrite Hplay in Hret. by injection Hret.
Qed.

Lemma get_game_result_range `{RulesEngine} (b : Board) :
  (get_game_result b).1 ∈ GAME_RESULTS ∧ (get_game_result b).2 ∈ TERMINATIONS.
Proof.
  unfold get_game_result. destruct (outcome b) as [[t [[]|]]|]; cbn [fst snd];
    (split; [|try destruct t]); cbn; set_solver.
Qed.

Lemma move_row_announced `{RulesEngine} game_code st m fb cm :
  announces game_code (move_row game_code st m fb cm)
    (game_code, move_event_of st m fb cm).
Proof. by repeat split. Qed.

Lemma loop_run_trace `{RulesEngine} game_code st w w' exit :
  loop_run game_code st w w' exit →
  ∃ rows events closing calls,
    loop_trace game_code w w' exit rows events closing calls.
Proof.
  induction 1 as [st w Hover|st w Hlive|st w e Hlive Hz|st w e w' x Hlive Hnz Hplay
                  |st w e w' st' w'' exit Hlive Hnz Hplay Hrun IH].
  - unfold finish_game.
    pose proof (get_game_result_range (board st)) as [Hr Ht].
    destruct (get_game_result (board st)) as [r t]. cbn in Hr, Ht.
    cbn [model_init GameOverEvent kwargs_get fst snd].
    exists [], [], [(game_code, game_over_event r t)], [].
    unfold loop_trace. cbn. rewrite !app_nil_r.
    split_and!; try done. eexists r, t, _.
    split_and!; [done|by rewrite last_snoc|done..].
  - exists [], [], [], []. unfold loop_trace. by rewrite !app_nil_r.
  - exists [], [], [], []. unfold loop_trace. cbn. by rewrite !app_nil_r.
  - apply play_turn_raise in Hplay as (_ & Hdb & _ & Hpub & _ & Hcalls).
    exists [], [], [], [turn_cmd st]. unfold loop_trace. rewrite Hdb, Hpub, Hcalls. cbn.
    by rewrite !app_nil_r.
  - apply play_turn_return in Hplay
      as (m & fb & cm & -> & _ & Hdb & _ & Hpub & Hcalls).
    destruct IH
      as (rows & events & closing & calls & Hmoves & Hevents & Hall & Hc & Hn & Hexit).
    exists (move_row game_code st m fb cm :: rows),
      ((game_code, move_event_of st m fb cm) :: events), closing,
      (turn_cmd st :: calls).
    unfold loop_trace. rewrite Hmoves, Hevents, Hc, Hdb, Hpub, Hcalls. cbn.
    rewrite <-!(assoc_L (++)). cbn.
    split_and!; try done.
    + constructor; [apply move_row_announced|done].
    + by rewrite Hn.
Qed.

Lemma finish_game_exit `{RulesEngine} game_code st w :
  (finish_game game_code st w).2 = Finished.
Proof. unfold finish_game. by destruct (get_game_result (board st)). Qed.

Lemma loop_run_exit `{RulesEngine} game_code st w w' exit :
  loop_run game_code st w w' exit →
  exit ≠ GameNotFound ∧ exit ≠ NoViewersAtStart.
Proof.
  induction 1; try done. by rewrite finish_game_exit.
Qed.

(** X5. A run of [run_game] publishes, after what was published before, the
    [game_started] event (unless the match is not found), then one move event
    for each row it adds to the [moves] table, in the same order and with the
    number, side, notations, rationale and fallback flag of the row, then the
    [game_over] event exactly when it finishes the match; it publishes nothing
    else. *)
Theorem events_mirror_rows `{RulesEngine} (game_code : string) (env : Env) (w : World) :
  let w' := (run_game game_code env w).1 in
  let exit := (run_game game_code env w).2 in
  ∃ rows events closing,
    moves (db w') = moves (db w) ++ rows
    ∧ published w' =
        published w
        ++ (match exit with
            | GameNotFound => []
            | _ => [(game_code, game_started_event)]
            end)
        ++ events ++ closing
    ∧ Forall2 (announces game_code) rows events
    ∧ match exit with
      | Finished =>
          ∃ result termination,
            closing = [(game_code, game_over_event result termination)]
      | _ => closing = []
      end.
Proof.
  intros w' exit. subst w' exit.
  pose proof (run_game_cases game_code env w) as Hrun.
  destruct (games (db w) !! game_code) as [g0|].
  - pose proof (wait_for_subscriber_frame 100 game_code (sleeps env)
                  (opened game_code g0 w)) as (Hdb & _ & Hpub & _).
    destruct (wait_for_subscriber 100 game_code (sleeps env) (opened game_code g0 w))
      as [[] w2]; rewrite Hrun; cbn [fst snd] in *.
    + pose proof (game_loop_run game_code (turns env)
                    (first_state game_code g0 (opened game_code g0 w)) w2) as Hloop.
      destruct (loop_run_exit _ _ _ _ _ Hloop) as [Hne1 Hne2].
      apply loop_run_trace in Hloop
        as (rows & events & closing & calls & Hmoves & Hevents & Hall & _ & _ & Hexit).
      exists rows, events, closing. rewrite Hmoves, Hevents, Hdb, Hpub. cbn.
      rewrite app_nil_r, <-!(assoc_L (++)).
      destruct (game_loop _ _ _ _).2; try done.
      destruct Hexit as (r & t & g & -> & _). split_and!; try done. by exists r, t.
    + exists [], [], []. cbn. rewrite Hdb, Hpub. cbn. by rewrite !app_nil_r.
  - rewrite Hrun. exists [], [], []. cbn. by rewrite !app_nil_r.
Qed.

(** X6. A run of [run_game] calls the oracle once for each row it adds to the
    [moves] table, and once more when an iteration raises; a run that does not
    find the match, or ends waiting for a first viewer, calls it never and adds
    no row. *)
Theorem one_call_per_ply `{RulesEngine} (game_code : string) (env : Env) (w : World) :
  let w' := (run_game game_code env w).1 in
  let exit := (run_game game_code env w).2 in
  ∃ rows calls,
    moves (db w') = moves (db w) ++ rows
    ∧ oracle_calls w' = oracle_calls w ++ calls
    ∧ length calls = length rows + (match exit with Failed _ => 1 | _ => 0 end)
    ∧ match exit with
      | GameNotFound | NoViewersAtStart => rows = [] ∧ calls = []
      | _ => True
      end.
Proof.
  intros w' exit. subst w' exit.
  pose proof (run_game_cases game_code env w) as Hrun.
  destruct (games (db w) !! game_code) as [g0|].
  - pose proof (wait_for_subscriber_frame 100 game_code (sleeps env)
                  (opened game_code g0 w)) as (Hdb & _ & _ & Hcalls).
    destruct (wait_for_subscriber 100 game_code (sleeps env) (opened game_code g0 w))
      as [[] w2]; rewrite Hrun; cbn [fst snd] in *.
    + pose proof (game_loop_run game_code (turns env)
                    (first_state game_code g0 (opened game_code g0 w)) w2) as Hloop.
      destruct (loop_run_exit _ _ _ _ _ Hloop) as [Hne1 Hne2].
      apply loop_run_trace in Hloop
        as (rows & events & closing & calls & Hmoves & _ & _ & Hc & Hn & _).
      exists rows, calls. rewrite Hmoves, Hc, Hdb, Hcalls. cbn.
      rewrite app_nil_r. split_and!; try done.
      by destruct (game_loop _ _ _ _).2.
    + exists [], []. cbn. rewrite Hdb, Hcalls. cbn. by rewrite !app_nil_r.
  - rewrite Hrun. exists [], []. cbn. by rewrite !app_nil_r.
Qed.

(** X7. A run that finishes the match publishes the [game_over] event last; the
    result of the event is the result stored with the row of the match, whose
    status is [COMPLETED], and is one of [white_wins], [black_wins], [draw] and
    [unknown]; the termination is one of the names [get_game_result] knows or
    [unknown]. A run that ends any other way publishes no [game_over] event. *)
Theorem game_over_result `{RulesEngine} (game_code : string) (env : Env) (w : World) :
  let w' := (run_game game_code env w).1 in
  let announced := drop (length (published w)) (published w') in
  match (run_game game_code env w).2 with
  | Finished =>
      ∃ result termination g,
        last announced = Some (game_code, game_over_event result termination)
        ∧ last (persisted w') = Some g
        ∧ Game.status g = COMPLETED ∧ Game.result g = Some result
        ∧ result ∈ GAME_RESULTS ∧ termination ∈ TERMINATIONS
  | _ =>
      Forall (λ ev, kwargs_get ev.2 "type" ≠ Some (VStr "game_over")) announced
  end.
Proof.
  intros w' announced. subst w' announced.
  pose proof (run_game_cases game_code env w) as Hrun.
  destruct (games (db w) !! game_code) as [g0|].
  - pose proof (wait_for_subscriber_frame 100 game_code (sleeps env)
                  (opened game_code g0 w)) as (_ & _ & Hpub & _).
    destruct (wait_for_subscriber 100 game_code (sleeps env) (opened game_code g0 w))
      as [[] w2]; rewrite Hrun; cbn [fst snd] in *.
    + pose proof (game_loop_run game_code (turns env)
                    (first_state game_code g0 (opened game_code g0 w)) w2) as Hloop.
      apply loop_run_trace in Hloop
        as (rows & events & closing & calls & _ & Hevents & Hall & _ & _ & Hexit).
      rewrite Hevents, Hpub. cbn [opened commit publish add_log published].
      assert (drop (length (published w))
                ((published w ++ [(game_code, game_started_event)])
                 ++ events ++ closing)
              = (game_code, game_started_event) :: events ++ closing) as ->.
      { by rewrite <-(assoc_L (++)), drop_app_length. }
      assert (Forall (λ ev : string * kwargs,
                        kwargs_get ev.2 "type" ≠ Some (VStr "game_over")) events)
        as Hmoves.
      { clear -Hall. induction Hall as [|row ev rows events Hev _ IH]; constructor;
          [|done]. destruct Hev as (_ & _ & -> & _). done. }
      destruct (game_loop _ _ _ _).2;
        try (subst closing; rewrite app_nil_r; by repeat constructor).
      destruct Hexit as (r & t & g & -> & Hlast & Hs & Hr & Hin).
      exists r, t, g. split_and!; try done; try apply Hin.
      by rewrite app_comm_cons, last_snoc.
    + cbn. rewrite Hpub. cbn. rewrite drop_app_length. by repeat constructor.
  - rewrite Hrun. cbn. rewrite drop_all. constructor.
Qed.

(** ** The wait for a first viewer *)

Lemma wait_for_subscriber_spec n game_code sleeps w :
  match wait_for_subscriber n game_code sleeps w with
  | (true, w') =>
      ∃ i, i < n ∧ w' = after_sleeps i sleeps w ∧ 0 < viewers game_code w'
           ∧ ∀ j, j < i → viewers game_code (after_sleeps j sleeps w) = 0
  | (false, w') =>
      w' = after_sleeps n sleeps w
      ∧ ∀ j, j < n → viewers game_code (after_sleeps j sleeps w) = 0
  end.
Proof.
  revert sleeps w. induction n as [|n IH]; intros sleeps w; cbn [wait_for_subscriber].
  - split; [done|]. intros j Hj. lia.
  - fold (viewers game_code w).
    destruct (Nat.ltb_spec 0 (viewers game_code w)) as [Hpos|Hzero].
    + exists 0. split_and!; [lia|done|done|]. intros j Hj. lia.
    + specialize (IH (tail sleeps) (others (hd [] sleeps) w)).
      destruct (wait_for_subscriber n game_code (tail sleeps)
                  (others (hd [] sleeps) w)) as [[] w'].
      * destruct IH as (i & Hi & -> & Hpos & Hbefore).
        exists (S i). split_and!; [lia|done|done|].
        intros [|j] Hj; [cbn; lia|]. apply Hbefore. lia.
      * destruct IH as [-> Hbefore]. split; [done|].
        intros [|j] Hj; [cbn; lia|]. apply Hbefore. lia.
Qed.

(** X8. [run_game] of a stored match ends waiting for a first viewer exactly
    when the match has no viewer at each of the 100 polls, of which the first
    is made before any sleep and the last after 99 sleeps. The run then pauses
    the match in the world as the 100th sleep leaves it, which is not polled:
    a viewer who attaches during it is not seen. *)
Theorem wait_polls `{RulesEngine} (game_code : string) (env : Env) (w : World) :
  match games (db w) !! game_code with
  | None => (run_game game_code env w).2 = GameNotFound
  | Some g0 =>
      let at_poll j := after_sleeps j (sleeps env) (opened game_code g0 w) in
      ((run_game game_code env w).2 = NoViewersAtStart
       ↔ ∀ j, j < 100 → viewers game_code (at_poll j) = 0)
      ∧ ((run_game game_code env w).2 = NoViewersAtStart →
         (run_game game_code env w).1 = timed_out game_code g0 (at_poll 100))
  end.
Proof.
  pose proof (run_game_cases game_code env w) as Hrun.
  destruct (games (db w) !! game_code) as [g0|]; [|by rewrite Hrun].
  pose proof (wait_for_subscriber_spec 100 game_code (sleeps env)
                (opened game_code g0 w)) as Hwait.
  destruct (wait_for_subscriber 100 game_code (sleeps env) (opened game_code g0 w))
    as [[] w2]; rewrite Hrun; cbn [fst snd].
  - pose proof (game_loop_run game_code (turns env)
                  (first_state game_code g0 (opened game_code g0 w)) w2) as Hloop.
    destruct (loop_run_exit _ _ _ _ _ Hloop) as [_ Hne].
    destruct Hwait as (i & Hi & -> & Hpos & _).
    split; [split|]; [done| |done].
    intros Hzero. specialize (Hzero i Hi). lia.
  - destruct Hwait as [-> Hzero]. by split.
Qed.

(** A viewer who attaches during the last sleep of the wait is not seen. *)
Example late_viewer_unseen :
  (run_game "AB12CD" late_viewer nobody_yet).2 = NoViewersAtStart
  ∧ viewers "AB12CD" (run_game "AB12CD" late_viewer nobody_yet).1 = 1
  ∧ Game.is_paused <$> last (persisted (run_game "AB12CD" late_viewer nobody_yet).1)
    = Some true.
Proof. by vm_compute. Qed.

(** ** The stored side to move *)

Lemma after_move_turn_matches `{E : RulesEngine} {L : RulesEngineLaws E} e st m :
  turn_matches (game (after_move e st m)).
Proof.
  unfold turn_matches, after_move.
  cbn [game Game.set_position Game.current_turn Game.board_fen].
  rewrite turn_fen, turn_push. unfold current_color.
  by destruct (turn (board st)).
Qed.

Lemma loop_run_turn_matches `{E : RulesEngine} {L : RulesEngineLaws E}
    game_code st w w' exit :
  loop_run game_code st w w' exit →
  turn_matches (game st) →
  ∃ l, persisted w' = persisted w ++ l ∧ Forall turn_matches l.
Proof.
  induction 1 as [st w Hover|st w Hlive|st w e Hlive Hz|st w e w' x Hlive Hnz Hplay
                  |st w e w' st' w'' exit Hlive Hnz Hplay Hrun IH]; intros Hst.
  - unfold finish_game. destruct (get_game_result (board st)) as [r t].
    cbn. eexists [_]. split; [done|]. by repeat constructor.
  - exists []. by rewrite app_nil_r.
  - cbn. eexists [_]. split; [done|]. by repeat constructor.
  - apply play_turn_raise in Hplay as (_ & _ & -> & _).
    exists []. by rewrite app_nil_r.
  - apply play_turn_return in Hplay as (m & fb & cm & -> & _ & _ & Hper & _).
    destruct IH as (l & -> & Hall); [apply after_move_turn_matches|].
    exists (game (after_move e st m) :: l). rewrite Hper. cbn.
    rewrite <-(assoc_L (++)). split; [done|].
    constructor; [apply after_move_turn_matches|done].
Qed.

(** X9. When the side to move stored with a match agrees with its stored
    position before a run, it does so in every state of the row the run
    commits: [current_turn] is white exactly when the position of [board_fen]
    has white to move. *)
Theorem stored_turn_matches `{E : RulesEngine} {L : RulesEngineLaws E}
    (game_code : string) (env : Env) (w : World) :
  (∀ g0, games (db w) !! game_code = Some g0 → turn_matches g0) →
  Forall turn_matches
    (drop (length (persisted w)) (persisted (run_game game_code env w).1)).
Proof.
  intros Hstart.
  pose proof (run_game_cases game_code env w) as Hrun.
  destruct (games (db w) !! game_code) as [g0|].
  - specialize (Hstart g0 eq_refl).
    pose proof (wait_for_subscriber_frame 100 game_code (sleeps env)
                  (opened game_code g0 w)) as (_ & Hper & _).
    destruct (wait_for_subscriber 100 game_code (sleeps env) (opened game_code g0 w))
      as [[] w2]; rewrite Hrun; cbn [fst snd] in *.
    + pose proof (game_loop_run game_code (turns env)
                    (first_state game_code g0 (opened game_code g0 w)) w2) as Hloop.
      apply loop_run_turn_matches in Hloop as (l & -> & Hall); [|done].
      rewrite Hper. cbn. rewrite <-(assoc_L (++)), drop_app_length.
      by constructor.
    + cbn. rewrite Hper. cbn. rewrite <-(assoc_L (++)), drop_app_length.
      by repeat constructor.
  - rewrite Hrun. cbn. rewrite drop_all. constructor.
Qed.

Lemma stored_turn_matches_witness :
  (∀ g0, games (db sample_world) !! "AB12CD" = Some g0 → turn_matches g0)
  ∧ Forall turn_matches
      (drop (length (persisted sample_world))
         (persisted (run_game "AB12CD" fools_mate sample_world).1))
  ∧ map Game.current_turn (persisted (run_game "AB12CD" fools_mate sample_world).1)
    = [WHITE; BLACK; WHITE; BLACK; WHITE; WHITE].
Proof.
  assert (∀ g0, games (db sample_world) !! "AB12CD" = Some g0 → turn_matches g0)
    as Hstart.
  { intros g0. cbn. rewrite lookup_singleton_eq. intros [= <-]. by vm_compute. }
  split; [exact Hstart|]. split; [|by vm_compute].
  exact (@stored_turn_matches Scripted.engine Scripted_laws "AB12CD" fools_mate
           sample_world Hstart).
Defined.

(** ** Iterations that raise *)

Lemma raised_by_kind `{E : RulesEngine} {L : RulesEngineLaws E} e st x :
  is_game_over (board st) = false →
  raised_by e st x →
  x = ChessError IllegalMoveError ∨ x = ChessError AmbiguousMoveError.
Proof.
  intros Hlive [Hv|[_ Hr]].
  - unfold validate_and_get_move in Hv.
    destruct (negb (truthy _)); [done|].
    destruct (parse_san _ _) as [[]|m]; try done;
      try (injection Hv as <-; by left);
      destruct (parse_uci _ _) as [[]|m]; try done; injection Hv as <-; eauto.
  - destruct (get_random_legal_move_legal (board st) (random_choice e) Hlive)
      as (m & Hm & _). congruence.
Qed.

(** A run that fails leaves the row of the match in progress and not
    suspended. *)
Lemma loop_run_failed `{E : RulesEngine} {L : RulesEngineLaws E}
    game_code st w w' x :
  loop_run game_code st w w' (Failed x) →
  Game.game_code (game st) = game_code →
  games (db w) !! game_code = Some (game st) →
  running (game st) →
  (x = ChessError IllegalMoveError ∨ x = ChessError AmbiguousMoveError)
  ∧ ∃ g, games (db w') !! game_code = Some g ∧ running g.
Proof.
  intros Hrun. remember (Failed x) as exit eqn:Hexit.
  induction Hrun as [st w Hover|st w Hlive|st w e Hlive Hz|st w e w' x' Hlive Hnz Hplay
                     |st w e w' st' w'' exit Hlive Hnz Hplay Hrun IH];
    intros Hcode Hrow Hst.
  - by rewrite finish_game_exit in Hexit.
  - done.
  - done.
  - injection Hexit as ->.
    apply play_turn_raise in Hplay as (Hwhy & Hdb & _).
    split; [by eapply raised_by_kind|]. exists (game st). by rewrite Hdb.
  - apply play_turn_return in Hplay as (m & fb & cm & -> & _ & Hdb & _).
    apply IH; [done| | |by apply after_move_running].
    + by rewrite after_move_game_code.
    + rewrite Hdb. cbn [games]. rewrite after_move_game_code, Hcode.
      by rewrite lookup_insert_eq.
Qed.

Lemma run_game_failed `{E : RulesEngine} {L : RulesEngineLaws E}
    game_code env w x :
  (∀ g0, games (db w) !! game_code = Some g0 → Game.game_code g0 = game_code) →
  (run_game game_code env w).2 = Failed x →
  (x = ChessError IllegalMoveError ∨ x = ChessError AmbiguousMoveError)
  ∧ ∃ g, games (db (run_game game_code env w).1) !! game_code = Some g ∧ running g.
Proof.
  intros Hkey.
  pose proof (run_game_cases game_code env w) as Hrun.
  destruct (games (db w) !! game_code) as [g0|]; [|by rewrite Hrun].
  specialize (Hkey g0 eq_refl).
  pose proof (wait_for_subscriber_frame 100 game_code (sleeps env)
                (opened game_code g0 w)) as (Hdb & _).
  destruct (wait_for_subscriber 100 game_code (sleeps env) (opened game_code g0 w))
    as [[] w2]; rewrite Hrun; cbn [fst snd] in *; [|done].
  intros Hfail.
  pose proof (game_loop_run game_code (turns env)
                (first_state game_code g0 (opened game_code g0 w)) w2) as Hloop.
  rewrite Hfail in Hloop.
  apply loop_run_failed in Hloop; [done|done| |done].
  rewrite Hdb. cbn. rewrite Hkey. by rewrite lookup_insert_eq.
Qed.

(** ** Responses and the move played *)




Lemma one_line_nonempty (s : string) : one_line s = true → s ≠ "".
Proof.
  unfold one_line. intros H. apply andb_true_iff in H as [H _].
  apply andb_true_iff in H as [H _]. by apply negb_true_iff, String.eqb_neq in H.
Qed.

(** X11. When the oracle exits with status 0 and a JSON object whose result is
    a response in the requested format, and the move of the response is the
    notation of a legal move, the iteration plays that move: the row it adds
    and the event it publishes carry the move and the rationale of the
    response, without the fallback flag. *)
Theorem formatted_turn `{RulesEngine} (game_code : string) (e : TurnEnv) (st : Loop)
    (w : World) (m c k em oe out err : string) (sid : option (option string))
    (mv : ChessMove) :
  run_oracle e (turn_cmd st)
  = CliExit 0 out err (JSONObject (Some (formatted_response m c k em oe)) sid) →
  well_formed m c k em oe = true →
  parse_san (board st) m = inr mv →
  ∃ w',
    play_turn game_code e st w = (w', Return (after_move e st mv))
    ∧ moves (db w') = moves (db w) ++ [move_row game_code st mv false (Some c)]
    ∧ published w' =
        published w ++ [(game_code, move_event_of st mv false (Some c))].
Proof.
  intros Hrun Hwf Hsan.
  assert (LLMResponse.text (turn_response e st) = formatted_response m c k em oe)
    as Htext.
  { unfold turn_response, call_claude_cli, call_claude_cli_logged.
    fold (turn_cmd st). by rewrite Hrun. }
  destruct (formatted_move_comment m c k em oe Hwf) as [Hmove Hcomment].
  assert (m ≠ "") as Hm.
  { apply one_line_nonempty. unfold well_formed in Hwf.
    rewrite !andb_true_iff in Hwf. tauto. }
  assert (validate_and_get_move (board st)
            (ChessMoveResponse.move
               (parse_chess_response (LLMResponse.text (turn_response e st))))
          = Return (Some mv)) as Hv.
  { rewrite Htext, Hmove.
    unfold validate_and_get_move. rewrite truthy_nonempty by done.
    cbn [negb default from_option id]. by rewrite Hsan. }
  destruct (play_turn_cases game_code e st w)
    as [(x & w' & _ & Hwhy & _)
       |(m' & fb & cm & w' & Hplay & Hch & Hdb & _ & Hpub & _)].
  - unfold raised_by in Hwhy. rewrite Hv in Hwhy.
    by destruct Hwhy as [[=]|[[=] _]].
  - unfold chosen in Hch. rewrite Hv in Hch.
    destruct Hch as [([= <-] & -> & ->)|[[=] _]].
    exists w'. by rewrite Hdb, Hpub, Htext, Hcomment.
Qed.

Lemma formatted_turn_witness :
  well_formed "f3" "a bold start" "What an opening!" "predator" "stone_wall" = true
  ∧ map (λ r, (Move.move_san r, Move.was_fallback r, Move.comment r))
      (moves (db (play_turn "AB12CD" says_f3_with_feeling sample_loop sample_world).1))
    = [("f3", false, Some "a bold start")].
Proof.
  assert (well_formed "f3" "a bold start" "What an opening!" "predator" "stone_wall"
          = true) as Hwf by (by vm_compute).
  split; [exact Hwf|].
  destruct (@formatted_turn Scripted.engine "AB12CD" says_f3_with_feeling sample_loop
              sample_world "f3" "a bold start" "What an opening!" "predator"
              "stone_wall" "" "" (Some (Some "w-1")) "f2f3")
    as (w' & Hplay & Hrows & _); [by vm_compute|exact Hwf|by vm_compute|].
  rewrite Hplay. cbn [fst]. rewrite Hrows. by vm_compute.
Defined.

(** X12. [get_random_legal_move] raises [IndexError] on a position without
    legal moves; on any other position it returns the legal move at the drawn
    index, and every legal move is returned for some draw. *)
Theorem random_move_bounds `{RulesEngine} (b : Board) :
  (legal_moves b = [] → ∀ choice, get_random_legal_move b choice = Raise IndexError)
  ∧ (legal_moves b ≠ [] →
     ∀ choice, ∃ m,
       get_random_legal_move b choice = Return m
       ∧ legal_moves b !! (choice mod length (legal_moves b)) = Some m
       ∧ m ∈ legal_moves b)
  ∧ (∀ m, m ∈ legal_moves b → ∃ choice, get_random_legal_move b choice = Return m).
Proof.
  unfold get_random_legal_move. split_and!.
  - intros -> choice. done.
  - intros Hne choice.
    destruct (legal_moves b !! (choice mod length (legal_moves b))) as [m|] eqn:Hm.
    + exists m. split_and!; [done..|]. by eapply list_elem_of_lookup_2.
    + apply lookup_ge_None in Hm. destruct (legal_moves b) as [|m l]; [done|].
      pose proof (Nat.mod_upper_bound choice (length (m :: l))) as Hlt.
      cbn in *. lia.
  - intros m [i Hi]%list_elem_of_lookup_1. exists i.
    rewrite Nat.mod_small by by eapply lookup_lt_Some. by rewrite Hi.
Qed.

(** X13. The response of [call_claude_cli]: a response with an error has empty
    text; there is no error exactly when the process exits with status 0 and
    its output is not JSON of another type than an object; a non-empty text is
    the result field of the JSON object, or the whole output when that is not
    JSON; and the session id is the one passed in, unless the process is not
    found (then it is null) or the JSON object carries its own. *)
Theorem call_claude_cli_response (run : oracle) (prompt : string)
    (session_id system_prompt : option string) :
  let r := call_claude_cli run prompt session_id system_prompt in
  let outcome := run (claude_cmd prompt session_id system_prompt) in
  (is_Some (LLMResponse.error r) → LLMResponse.text r = "")
  ∧ (LLMResponse.error r = None ↔
     ∃ stdout stderr payload,
       outcome = CliExit 0 stdout stderr payload
       ∧ ∀ type_name, payload ≠ JSONNotObject type_name)
  ∧ (LLMResponse.text r ≠ "" →
     ∃ stdout stderr payload,
       outcome = CliExit 0 stdout stderr payload
       ∧ (payload = JSONDecodeError ∧ LLMResponse.text r = stdout
          ∨ ∃ sid, payload = JSONObject (Some (LLMResponse.text r)) sid))
  ∧ (LLMResponse.session_id r = session_id
     ∨ outcome = CliNotFound ∧ LLMResponse.session_id r = None
     ∨ ∃ stdout stderr result,
         outcome = CliExit 0 stdout stderr
                     (JSONObject result (Some (LLMResponse.session_id r)))).
Proof.
  intros r outcome. subst r outcome.
  unfold call_claude_cli, call_claude_cli_logged.
  destruct (run _) as [|msg|rc out err [|ty|res sid]];
    try (destruct (Z.eqb_spec rc 0) as [->|Hrc]); cbn;
    split_and!; try done; try (by intros [? [=]]); try (by left); try (by eauto).
  all: try (split; [by intros [=]|]; intros (? & ? & ? & [=] & Hp); try congruence;
            by subst; try (exfalso; by eapply Hp)).
  all: try (split; [intros _; eexists _, _, _; by split|done]).
  - intros _. eexists _, _, _. split; [done|]. by left.
  - intros Hres. destruct res as [res|]; [|done].
    eexists _, _, _. split; [done|]. right. by eexists.
  - destruct sid as [sid|]; [|by left]. right. right. by eexists _, _, _.
Qed.

(** ** Queues of the bus *)

Lemma put_queues item l m q :
  NoDup l →
  SSEManager.queues (foldl (SSEManager.put item) m l) !! q
  = if decide (q ∈ l) then (λ items, items ++ [item]) <$> SSEManager.queues m !! q
    else SSEManager.queues m !! q.
Proof.
  revert m. induction l as [|q0 l IH]; intros m Hnd; [done|].
  apply NoDup_cons in Hnd as [Hq0 Hnd]. cbn [foldl]. rewrite IH by done.
  cbn [SSEManager.put SSEManager.queues]. rewrite lookup_alter.
  repeat case_decide; subst; try done.
  all: exfalso.
  all: match goal with
       | H : ?q ∈ ?l, H' : ?q ∉ ?l |- _ => by apply H'
       | H : _ ∈ _ :: _ |- _ => apply elem_of_cons in H as [?|?]; by subst
       | H : _ ∉ _ :: _ |- _ => apply H, elem_of_cons; by eauto
       end.
Qed.

Lemma put_is_Some item l m q :
  is_Some (SSEManager.queues m !! q) →
  is_Some (SSEManager.queues (foldl (SSEManager.put item) m l) !! q).
Proof.
  revert m. induction l as [|q0 l IH]; intros m Hq; [done|]. cbn [foldl].
  apply IH. cbn [SSEManager.put SSEManager.queues]. rewrite lookup_alter.
  case_decide; [subst; by apply fmap_is_Some|done].
Qed.

Lemma stream_end_queues b c q :
  SSEManager.queues (sse_manager (stream_end b c q))
  = SSEManager.queues (sse_manager b)
  ∧ delivered (stream_end b c q) = delivered b
  ∧ ∀ x, x ∈ streams (stream_end b c q) → x ∈ streams b.
Proof.
  unfold stream_end, SSEManager.subscribe_exit.
  destruct (existsb _ _); cbn; split_and!; try done;
    by intros x [_ ?]%list_elem_of_filter.
Qed.

Lemma queues_invariant_step b a :
  queues_invariant b → queues_invariant (bus_step b a).
Proof.
  intros Hq. destruct a as [c|c q|c q|c ev|c]; cbn [bus_step].
  - intros c' q'. cbn. intros [Hin|Hnew]%elem_of_app.
    + destruct (decide (SSEManager.allocated (sse_manager b) = q')) as [<-|Hne].
      * by rewrite lookup_insert_eq.
      * rewrite lookup_insert_ne by done. by eapply Hq.
    + apply list_elem_of_singleton in Hnew as [= -> <-]. by rewrite lookup_insert_eq.
  - destruct (is_running b c q); [|done].
    unfold SSEManager.queue_get.
    destruct (SSEManager.queues (sse_manager b) !! q) as [[|[ev|] items]|] eqn:Hget;
      try done.
    + intros c' q' Hin. cbn in *.
      destruct (decide (q = q')) as [<-|Hne];
        [by rewrite lookup_insert_eq|rewrite lookup_insert_ne by done; by eapply Hq].
    + intros c' q' Hin.
      destruct (stream_end_queues
                  {| sse_manager :=
                       {| SSEManager._connections :=
                            SSEManager._connections (sse_manager b);
                          SSEManager.queues :=
                            <[q:=items]> (SSEManager.queues (sse_manager b));
                          SSEManager.allocated := SSEManager.allocated (sse_manager b) |};
                     streams := streams b; delivered := delivered b;
                     raised := raised b |} c q) as (Hqs & _ & Hsub).
      rewrite Hqs. apply Hsub in Hin. cbn in *.
      destruct (decide (q = q')) as [<-|Hne];
        [by rewrite lookup_insert_eq|rewrite lookup_insert_ne by done; by eapply Hq].
  - destruct (is_running b c q); [|done].
    intros c' q' Hin. destruct (stream_end_queues b c q) as (Hqs & _ & Hsub).
    rewrite Hqs. eapply Hq. by apply Hsub.
  - intros c' q' Hin. cbn in *. unfold SSEManager.broadcast.
    destruct (_ !! c); [apply put_is_Some|]; by eapply Hq.
  - intros c' q' Hin. cbn in *. unfold SSEManager.close_game.
    destruct (_ !! c); [apply put_is_Some|]; by eapply Hq.
Qed.

Lemma queues_invariant_run b actions :
  queues_invariant b → queues_invariant (bus_run b actions).
Proof.
  revert b. induction actions as [|a actions IH]; intros b Hq; [done|].
  cbn. apply IH. by apply queues_invariant_step.
Qed.

Lemma queues_invariant_init : queues_invariant Bus_init.
Proof. intros c q Hin. cbn in Hin. by apply elem_of_nil in Hin. Qed.

(** What a broadcast, or the shutdown signal, does to the queues of a bus
    that keeps its invariant. *)
Lemma fan_out b c item :
  bus_invariant b →
  ∀ q, SSEManager.queues
         (foldl (SSEManager.put item) (sse_manager b)
            (default [] (SSEManager._connections (sse_manager b) !! c))) !! q
       = if decide ((c, q) ∈ streams b)
         then (λ items, items ++ [item]) <$> pending b q
         else pending b q.
Proof.
  intros (Hconn & _ & Hnd & _) q. rewrite put_queues.
  - rewrite Hconn.
    destruct (decide (q ∈ queues_of c (streams b))) as [Hin|Hout].
    + rewrite decide_True; [done|]. by apply queues_of_elem.
    + rewrite decide_False; [done|]. by rewrite <-queues_of_elem.
  - rewrite Hconn. unfold queues_of.
    eapply sublist_NoDup; [done|]. apply fmap_sublist, sublist_filter.
Qed.

Lemma broadcast_queues b c ev q :
  bus_invariant b →
  pending (bus_step b (Broadcast c ev)) q
  = if decide ((c, q) ∈ streams b)
    then (λ items, items ++ [Some ev]) <$> pending b q
    else pending b q.
Proof.
  intros Hinv. unfold pending at 1. cbn [bus_step sse_manager].
  unfold SSEManager.broadcast.
  pose proof (fan_out b c (Some ev) Hinv q) as Hfan.
  destruct (SSEManager._connections (sse_manager b) !! c) as [l|] eqn:Hl; [done|].
  cbn in Hfan. exact Hfan.
Qed.

Lemma close_game_queues b c q :
  bus_invariant b →
  pending (bus_step b (CloseGame c)) q
  = if decide ((c, q) ∈ streams b)
    then (λ items, items ++ [None]) <$> pending b q
    else pending b q.
Proof.
  intros Hinv. unfold pending at 1. cbn [bus_step sse_manager].
  unfold SSEManager.close_game.
  pose proof (fan_out b c None Hinv q) as Hfan.
  destruct (SSEManager._connections (sse_manager b) !! c) as [l|] eqn:Hl; [done|].
  cbn in Hfan. exact Hfan.
Qed.

(** X14. In every state of the bus reached from the initial one, a broadcast
    to a match appends the event to the queue of each running stream of the
    match, once, and leaves every other queue, the streams and what was
    delivered as they were. *)
Theorem broadcast_fan_out (actions : list bus_action) (c : string) (ev : kwargs) :
  let b := bus_run Bus_init actions in
  let b' := bus_step b (Broadcast c ev) in
  streams b' = streams b ∧ delivered b' = delivered b
  ∧ (∀ q, (c, q) ∈ streams b →
          ∃ items, pending b q = Some items ∧ pending b' q = Some (items ++ [Some ev]))
  ∧ (∀ q, (c, q) ∉ streams b → pending b' q = pending b q).
Proof.
  intros b b'. subst b'.
  pose proof (bus_run_invariant Bus_init actions Bus_init_invariant) as Hinv.
  pose proof (queues_invariant_run Bus_init actions queues_invariant_init) as Hq.
  fold b in Hinv, Hq. split_and!; [done|done| |].
  - intros q Hin. destruct (Hq c q Hin) as [items Hitems].
    exists items. split; [done|].
    rewrite broadcast_queues, decide_True by done. unfold pending in *.
    by rewrite Hitems.
  - intros q Hout. by rewrite broadcast_queues, decide_False.
Qed.

(** ** Receiving *)

Lemma receive_event b c q ev items :
  is_running b c q = true →
  pending b q = Some (Some ev :: items) →
  let b' := bus_step b (Receive c q) in
  delivered b' = delivered b ++ [(q, ev)]
  ∧ pending b' q = Some items
  ∧ (∀ q', q' ≠ q → pending b' q' = pending b q')
  ∧ streams b' = streams b
  ∧ SSEManager._connections (sse_manager b') = SSEManager._connections (sse_manager b)
  ∧ SSEManager.allocated (sse_manager b') = SSEManager.allocated (sse_manager b)
  ∧ raised b' = raised b.
Proof.
  intros Hrun Hq. unfold pending in *. cbn [bus_step]. rewrite Hrun.
  unfold SSEManager.queue_get. rewrite Hq. cbn.
  rewrite lookup_insert_eq. split_and!; try done.
  intros q' Hne. by rewrite lookup_insert_ne.
Qed.

Lemma receive_events b c q evs rest :
  is_running b c q = true →
  pending b q = Some ((Some <$> evs) ++ rest) →
  let b' := bus_run b (replicate (length evs) (Receive c q)) in
  delivered b' = delivered b ++ ((λ ev, (q, ev)) <$> evs)
  ∧ pending b' q = Some rest
  ∧ (∀ q', q' ≠ q → pending b' q' = pending b q')
  ∧ streams b' = streams b
  ∧ SSEManager._connections (sse_manager b') = SSEManager._connections (sse_manager b)
  ∧ SSEManager.allocated (sse_manager b') = SSEManager.allocated (sse_manager b)
  ∧ raised b' = raised b.
Proof.
  revert b. induction evs as [|ev evs IH]; intros b Hrun Hq.
  - cbn. by rewrite app_nil_r.
  - cbn [length replicate bus_run foldl]. cbn [fmap list_fmap app] in Hq.
    destruct (receive_event b c q ev _ Hrun Hq)
      as (Hd & Hq' & Hother & Hs & Hc & Ha & Hr).
    assert (is_running (bus_step b (Receive c q)) c q = true) as Hrun'.
    { unfold is_running in *. by rewrite Hs. }
    destruct (IH _ Hrun' Hq') as (Hd2 & Hq2 & Hother2 & Hs2 & Hc2 & Ha2 & Hr2).
    unfold bus_run in *. rewrite Hd2, Hq2, Hs2, Hc2, Ha2, Hr2, Hd, Hs, Hc, Ha, Hr.
    cbn. rewrite <-(assoc_L (++)). split_and!; try done.
    intros q' Hne. by rewrite Hother2, Hother.
Qed.

(** X15. A running stream whose queue starts with some events hands them to
    its consumer in the order they were put, one per receive; what follows
    them stays in the queue, and the stream stays attached and counted. *)
Theorem receive_in_order (b : Bus) (c : string) (q : nat)
    (evs : list sse_message) (rest : list (option sse_message)) :
  (c, q) ∈ streams b →
  pending b q = Some ((Some <$> evs) ++ rest) →
  let b' := bus_run b (replicate (length evs) (Receive c q)) in
  delivered b' = delivered b ++ ((λ ev, (q, ev)) <$> evs)
  ∧ pending b' q = Some rest
  ∧ streams b' = streams b
  ∧ SSEManager.get_subscriber_count (sse_manager b') c
    = SSEManager.get_subscriber_count (sse_manager b) c.
Proof.
  intros Hin%is_running_spec Hq.
  destruct (receive_events b c q evs rest Hin Hq) as (Hd & Hq' & _ & Hs & Hc & _).
  cbv zeta. unfold SSEManager.get_subscriber_count. by rewrite Hc.
Qed.

Lemma receive_in_order_witness :
  let b :=
    bus_run Bus_init
      [ Subscribe "AB12CD";
        Broadcast "AB12CD" [("type", VStr "game_started")];
        Broadcast "AB12CD" [("type", VStr "move")] ] in
  ("AB12CD", 0) ∈ streams b
  ∧ delivered (bus_run b (replicate 2 (Receive "AB12CD" 0)))
    = [(0, [("type", VStr "game_started")]); (0, [("type", VStr "move")])].
Proof.
  cbv zeta.
  assert (("AB12CD", 0) ∈ streams
            (bus_run Bus_init
               [ Subscribe "AB12CD";
                 Broadcast "AB12CD" [("type", VStr "game_started")];
                 Broadcast "AB12CD" [("type", VStr "move")] ])) as Hin.
  { apply is_running_spec. by vm_compute. }
  split; [exact Hin|].
  destruct (receive_in_order _ "AB12CD" 0
              [[("type", VStr "game_started")]; [("type", VStr "move")]] [] Hin)
    as (Hd & _); [by vm_compute|].
  exact Hd.
Defined.

(** ** The shutdown signal *)

Lemma broadcasts_queue b c q items later :
  bus_invariant b → (c, q) ∈ streams b → pending b q = Some items →
  let b' := bus_run b (Broadcast c <$> later) in
  pending b' q = Some (items ++ (Some <$> later))
  ∧ streams b' = streams b ∧ delivered b' = delivered b
  ∧ SSEManager._connections (sse_manager b') = SSEManager._connections (sse_manager b)
  ∧ bus_invariant b'.
Proof.
  revert b items. induction later as [|ev later IH]; intros b items Hinv Hin Hq.
  - cbn. by rewrite app_nil_r.
  - cbn [fmap list_fmap bus_run foldl].
    assert (bus_invariant (bus_step b (Broadcast c ev))) as Hinv'
      by by apply bus_step_invariant.
    assert (pending (bus_step b (Broadcast c ev)) q = Some (items ++ [Some ev]))
      as Hq'.
    { rewrite broadcast_queues, decide_True by done. by rewrite Hq. }
    destruct (IH (bus_step b (Broadcast c ev)) _ Hinv' Hin Hq')
      as (Hq2 & Hs2 & Hd2 & Hc2 & Hinv2).
    unfold bus_run in *. rewrite Hq2, Hs2, Hd2, Hc2, <-(assoc_L (++)).
    split_and!; try done. cbn. by destruct (broadcast_frame (sse_manager b) c ev).
Qed.

(** X16. After [close_game], a stream of the match hands over the events that
    were in its queue and then ends: it is detached, the subscriber count of
    the match drops by one, no generator raises, and an event broadcast to the
    match after the shutdown signal is not delivered to it. *)
Theorem close_game_ends_stream (actions : list bus_action) (c : string) (q : nat)
    (evs later : list sse_message) :
  let b := bus_run Bus_init actions in
  (c, q) ∈ streams b →
  pending b q = Some (Some <$> evs) →
  let closed := bus_run (bus_step b (CloseGame c)) (Broadcast c <$> later) in
  let b' := bus_run closed (replicate (S (length evs)) (Receive c q)) in
  delivered b' = delivered b ++ ((λ ev, (q, ev)) <$> evs)
  ∧ ((c, q) ∉ streams b')
  ∧ S (SSEManager.get_subscriber_count (sse_manager b') c)
    = SSEManager.get_subscriber_count (sse_manager b) c
  ∧ raised b' = [].
Proof.
  intros b Hin Hq closed b'. subst closed b'.
  pose proof (bus_run_invariant Bus_init actions Bus_init_invariant) as Hinv.
  fold b in Hinv.
  set (b0 := bus_step b (CloseGame c)).
  assert (bus_invariant b0) as Hinv0 by by apply bus_step_invariant.
  assert (pending b0 q = Some ((Some <$> evs) ++ [None])) as Hq0.
  { subst b0. rewrite close_game_queues, decide_True by done. by rewrite Hq. }
  assert (SSEManager._connections (sse_manager b0)
          = SSEManager._connections (sse_manager b)) as Hc0.
  { subst b0. cbn. by destruct (close_game_frame (sse_manager b) c). }
  destruct (broadcasts_queue b0 c q _ later Hinv0 Hin Hq0)
    as (Hq1 & Hs1 & Hd1 & Hc1 & Hinv1).
  set (b1 := bus_run b0 (Broadcast c <$> later)) in *.
  assert (bus_run b1 (replicate (S (length evs)) (Receive c q))
          = bus_step (bus_run b1 (replicate (length evs) (Receive c q)))
              (Receive c q)) as ->.
  { rewrite replicate_S_end. apply foldl_snoc. }
  assert (is_running b1 c q = true) as Hrun1.
  { apply is_running_spec. by rewrite Hs1. }
  rewrite <-(assoc_L (++)) in Hq1.
  destruct (receive_events b1 c q evs _ Hrun1 Hq1)
    as (Hd2 & Hq2 & _ & Hs2 & Hc2 & Ha2 & Hr2).
  set (b2 := bus_run b1 (replicate (length evs) (Receive c q))) in *.
  assert (bus_invariant b2) as Hinv2 by by eapply bus_invariant_frame.
  cbn [bus_step].
  assert (is_running b2 c q = true) as ->.
  { unfold is_running in *. by rewrite Hs2. }
  unfold pending in Hq2. cbn [app] in Hq2.
  unfold SSEManager.queue_get. rewrite Hq2.
  assert ((c, q) ∈ streams b2) as Hin2 by (rewrite Hs2, Hs1; exact Hin).
  set (b3 := Build_Bus _ _ _ _).
  assert (bus_invariant b3) as Hinv3 by by eapply bus_invariant_frame.
  destruct (stream_end_invariant b3 c q Hinv3 Hin2) as (Hinv4 & Hthis & _).
  destruct (stream_end_queues b3 c q) as (_ & Hd4 & _).
  split_and!.
  - rewrite Hd4. cbn. rewrite Hd2, Hd1. done.
  - unfold stream_end. destruct (SSEManager.subscribe_exit _ _ _). cbn.
    intros [Hk _]%list_elem_of_filter. apply Is_true_true, negb_true_iff in Hk.
    assert (stream_eqb (c, q) (c, q) = true) by by apply stream_eqb_spec.
    congruence.
  - unfold SSEManager.get_subscriber_count. rewrite Hthis. cbn.
    rewrite Hc2, Hc1, Hc0. apply list_remove_length.
    destruct Hinv as (Hconn & _). rewrite Hconn. by apply queues_of_elem.
  - by destruct Hinv4 as (_ & _ & _ & _ & ?).
Qed.

Lemma close_game_ends_stream_witness :
  let b :=
    bus_run Bus_init
      [Subscribe "AB12CD"; Broadcast "AB12CD" [("type", VStr "game_started")]] in
  let b' :=
    bus_run
      (bus_run (bus_step b (CloseGame "AB12CD"))
         (Broadcast "AB12CD" <$> [[("type", VStr "move")]]))
      (replicate 2 (Receive "AB12CD" 0)) in
  ("AB12CD", 0) ∈ streams b
  ∧ delivered b' = [(0, [("type", VStr "game_started")])]
  ∧ SSEManager.get_subscriber_count (sse_manager b') "AB12CD" = 0.
Proof.
  cbv zeta.
  assert (("AB12CD", 0) ∈ streams
            (bus_run Bus_init
               [Subscribe "AB12CD";
                Broadcast "AB12CD" [("type", VStr "game_started")]])) as Hin.
  { apply is_running_spec. by vm_compute. }
  split; [exact Hin|].
  destruct (close_game_ends_stream
              [Subscribe "AB12CD"; Broadcast "AB12CD" [("type", VStr "game_started")]]
              "AB12CD" 0 [[("type", VStr "game_started")]] [[("type", VStr "move")]]
              Hin) as (Hd & _ & Hcount & _); [by vm_compute|].
  split; [exact Hd|]. exact (Nat.succ_inj _ 0 Hcount).
Defined.

(** ** Deliveries *)

Lemma subscriptions_snoc actions a :
  subscriptions (actions ++ [a])
  = subscriptions actions ++ match a with Subscribe c => [c] | _ => [] end.
Proof. unfold subscriptions. rewrite omap_app. by destruct a. Qed.

Lemma subscriptions_lookup_snoc actions a q c :
  subscriptions actions !! q = Some c → subscriptions (actions ++ [a]) !! q = Some c.
Proof. intros H. rewrite subscriptions_snoc. by apply lookup_app_l_Some. Qed.

Lemma sent_to_snoc actions a q ev :
  sent_to actions q ev → sent_to (actions ++ [a]) q ev.
Proof.
  intros (before & after & c & -> & Hq).
  exists before, (after ++ [a]), c. by rewrite <-(assoc_L (++)).
Qed.

Lemma list_remove_elem q q' l : q' ∈ SSEManager.list_remove q l → q' ∈ l.
Proof.
  induction l as [|y l IH]; [done|]. cbn.
  destruct (Nat.eqb q y).
  - intros ?. apply elem_of_cons. by right.
  - intros [->|?]%elem_of_cons; apply elem_of_cons; [by left|right; by apply IH].
Qed.

Lemma subscribe_exit_sub m c q c' l' q' :
  SSEManager._connections (SSEManager.subscribe_exit m c q).1 !! c' = Some l' →
  q' ∈ l' →
  ∃ l, SSEManager._connections m !! c' = Some l ∧ q' ∈ l.
Proof.
  unfold SSEManager.subscribe_exit.
  destruct (existsb _ _); cbn [fst SSEManager._connections].
  - destruct (SSEManager.list_remove q _) as [|y t] eqn:Hrem.
    + destruct (decide (c = c')) as [<-|Hne];
        [by rewrite lookup_delete_eq|rewrite lookup_delete_ne by done; eauto].
    + destruct (decide (c = c')) as [<-|Hne];
        [rewrite lookup_insert_eq|rewrite lookup_insert_ne by done; eauto].
      intros [= <-] Hin. rewrite <-Hrem in Hin. apply list_remove_elem in Hin.
      destruct (SSEManager._connections m !! c) as [l|]; [eauto|].
      by apply elem_of_nil in Hin.
  - destruct (decide (c = c')) as [<-|Hne];
      [rewrite lookup_insert_eq|rewrite lookup_insert_ne by done; eauto].
    intros [= <-] Hin.
    destruct (SSEManager._connections m !! c) as [l|]; [eauto|].
    by apply elem_of_nil in Hin.
Qed.

Lemma put_members item l m q items' x :
  SSEManager.queues (foldl (SSEManager.put item) m l) !! q = Some items' →
  x ∈ items' →
  ∃ items, SSEManager.queues m !! q = Some items ∧ (x ∈ items ∨ x = item ∧ q ∈ l).
Proof.
  revert m items'. induction l as [|q0 l IH]; intros m items' Hq Hx.
  - cbn in Hq. eauto.
  - cbn [foldl] in Hq. destruct (IH _ _ Hq Hx) as (items & Hitems & Hor).
    cbn [SSEManager.put SSEManager.queues] in Hitems. rewrite lookup_alter in Hitems.
    case_decide as Hd.
    + subst q0. destruct (SSEManager.queues m !! q) as [old|] eqn:Hold; [|done].
      injection Hitems as <-. exists old. split; [done|].
      destruct Hor as [[?|Hnew]%elem_of_app|[-> ?]].
      * by left.
      * apply list_elem_of_singleton in Hnew. right. split; [done|].
        apply elem_of_cons. by left.
      * right. split; [done|]. apply elem_of_cons. by right.
    + exists items. split; [done|]. destruct Hor as [?|[-> ?]]; [by left|].
      right. split; [done|]. apply elem_of_cons. by right.
Qed.

Lemma stream_end_delivery actions b c q :
  delivery_invariant actions b → delivery_invariant actions (stream_end b c q).
Proof.
  intros (Ha & Hc & Hq & Hd).
  destruct (stream_end_queues b c q) as (Hqs & Hds & _).
  unfold delivery_invariant. rewrite Hqs, Hds. split_and!; try done.
  - unfold stream_end, SSEManager.subscribe_exit. by destruct (existsb _ _).
  - intros c' l' q' Hl' Hin.
    assert (sse_manager (stream_end b c q)
            = (SSEManager.subscribe_exit (sse_manager b) c q).1) as Heq.
    { unfold stream_end. by destruct (SSEManager.subscribe_exit _ _ _). }
    rewrite Heq in Hl'.
    destruct (subscribe_exit_sub _ _ _ _ _ _ Hl' Hin) as (l & Hl & Hin').
    by eapply Hc.
Qed.

Lemma delivery_invariant_step actions b a :
  delivery_invariant actions b →
  delivery_invariant (actions ++ [a]) (bus_step b a).
Proof.
  intros Hinv.
  assert (delivery_invariant (actions ++ [a]) b
          ∨ ∃ c, a = Subscribe c) as [Hinv'|[c ->]].
  { destruct a as [c| | | |]; [right; by exists c|left..];
      destruct Hinv as (Ha & Hc & Hq & Hd);
      (split_and!;
       [by rewrite subscriptions_snoc, app_nil_r
       |intros; eapply subscriptions_lookup_snoc; by eapply Hc
       |intros; eapply sent_to_snoc; by eapply Hq
       |intros; eapply sent_to_snoc; by eapply Hd]). }
  - destruct a as [c|c q|c q|c ev|c]; cbn [bus_step].
    + destruct Hinv' as (Ha & _). rewrite subscriptions_snoc, length_app in Ha.
      destruct Hinv as (Ha0 & _). cbn in Ha. lia.
    + destruct (is_running b c q); [|done].
      unfold SSEManager.queue_get.
      destruct (SSEManager.queues (sse_manager b) !! q) as [[|[ev|] items]|] eqn:Hget;
        try done.
      * destruct Hinv' as (Ha & Hc & Hq & Hd). split_and!; cbn; try done.
        -- intros q' items' ev'. destruct (decide (q = q')) as [<-|Hne].
           ++ rewrite lookup_insert_eq. intros [= <-] Hin.
              eapply Hq; [done|]. apply elem_of_cons. by right.
           ++ rewrite lookup_insert_ne by done. apply Hq.
        -- intros q' ev' [Hin|Hnew]%elem_of_app; [by apply Hd|].
           apply list_elem_of_singleton in Hnew as [= -> ->].
           eapply Hq; [done|]. apply elem_of_cons. by left.
      * apply stream_end_delivery.
        destruct Hinv' as (Ha & Hc & Hq & Hd). split_and!; cbn; try done.
        intros q' items' ev'. destruct (decide (q = q')) as [<-|Hne].
        -- rewrite lookup_insert_eq. intros [= <-] Hin.
           eapply Hq; [done|]. apply elem_of_cons. by right.
        -- rewrite lookup_insert_ne by done. apply Hq.
    + destruct (is_running b c q); [|done]. by apply stream_end_delivery.
    + destruct Hinv as (Ha0 & Hc0 & _).
      destruct Hinv' as (Ha & Hc & Hq & Hd).
      destruct (broadcast_frame (sse_manager b) c ev) as [Hcf Haf].
      split_and!; cbn [sse_manager delivered]; rewrite ?Hcf, ?Haf; try done.
      intros q items' ev'. unfold SSEManager.broadcast.
      destruct (SSEManager._connections (sse_manager b) !! c) as [l|] eqn:Hl;
        [|apply Hq].
      intros Hitems Hin.
      destruct (put_members _ _ _ _ _ _ Hitems Hin) as (items & Hold & [?|[[= ->] Hql]]).
      * by eapply Hq.
      * exists actions, [], c. split; [done|]. by eapply Hc0.
    + destruct Hinv' as (Ha & Hc & Hq & Hd).
      destruct (close_game_frame (sse_manager b) c) as [Hcf Haf].
      split_and!; cbn [sse_manager delivered]; rewrite ?Hcf, ?Haf; try done.
      intros q items' ev'. unfold SSEManager.close_game.
      destruct (SSEManager._connections (sse_manager b) !! c) as [l|] eqn:Hl;
        [|apply Hq].
      intros Hitems Hin.
      destruct (put_members _ _ _ _ _ _ Hitems Hin) as (items & Hold & [?|[[=] _]]).
      by eapply Hq.
  - destruct Hinv as (Ha & Hc & Hq & Hd).
    cbn [bus_step SSEManager.subscribe_enter].
    unfold delivery_invariant.
    cbn [sse_manager delivered SSEManager._connections SSEManager.queues
         SSEManager.allocated].
    rewrite subscriptions_snoc, length_app. cbn [length]. split_and!.
    + lia.
    + intros c' l q. destruct (decide (c = c')) as [<-|Hne].
      * rewrite lookup_insert_eq. intros [= <-] [Hold|Hnew]%elem_of_app.
        -- apply lookup_app_l_Some.
           destruct (SSEManager._connections (sse_manager b) !! c) as [l|] eqn:Hl;
             [by eapply Hc|by apply elem_of_nil in Hold].
        -- apply list_elem_of_singleton in Hnew as ->. rewrite Ha.
           by rewrite lookup_app_r, Nat.sub_diag.
      * rewrite lookup_insert_ne by done. intros Hl Hin.
        apply lookup_app_l_Some. by eapply Hc.
    + intros q items ev.
      destruct (decide (SSEManager.allocated (sse_manager b) = q)) as [<-|Hne].
      * rewrite lookup_insert_eq. intros [= <-] Hin. by apply elem_of_nil in Hin.
      * rewrite lookup_insert_ne by done. intros Hitems Hin.
        apply sent_to_snoc. by eapply Hq.
    + intros q ev Hin. apply sent_to_snoc. by apply Hd.
Qed.

Lemma delivery_invariant_run actions :
  delivery_invariant actions (bus_run Bus_init actions).
Proof.
  induction actions as [|a actions IH] using rev_ind.
  - split_and!; cbn; try done.
    + intros q ev Hin. by apply elem_of_nil in Hin.
  - unfold bus_run. rewrite foldl_snoc. by apply delivery_invariant_step.
Qed.

(** X17. The bus delivers nothing that was not sent: an event delivered from a
    queue was broadcast, after the subscription that created the queue, to the
    match code of that subscription. *)
Theorem delivered_was_sent (actions : list bus_action) (q : nat) (ev : sse_message) :
  (q, ev) ∈ delivered (bus_run Bus_init actions) →
  ∃ before after c,
    actions = before ++ Broadcast c ev :: after
    ∧ subscriptions before !! q = Some c.
Proof.
  intros Hin. destruct (delivery_invariant_run actions) as (_ & _ & _ & Hd).
  by apply Hd.
Qed.

Lemma delivered_was_sent_witness :
  (0, [("type", VStr "game_started")])
    ∈ delivered
        (bus_run Bus_init
           [ Subscribe "AB12CD"; Subscribe "ZZ9999";
             Broadcast "AB12CD" [("type", VStr "game_started")];
             Receive "AB12CD" 0; Receive "ZZ9999" 1 ])
  ∧ ∃ before after c,
      [ Subscribe "AB12CD"; Subscribe "ZZ9999";
        Broadcast "AB12CD" [("type", VStr "game_started")];
        Receive "AB12CD" 0; Receive "ZZ9999" 1 ]
      = before ++ Broadcast c [("type", VStr "game_started")] :: after
      ∧ subscriptions before !! 0 = Some c.
Proof.
  assert ((0, [("type", VStr "game_started")])
            ∈ delivered
                (bus_run Bus_init
                   [ Subscribe "AB12CD"; Subscribe "ZZ9999";
                     Broadcast "AB12CD" [("type", VStr "game_started")];
                     Receive "AB12CD" 0; Receive "ZZ9999" 1 ])) as Hin.
  { vm_compute. apply elem_of_cons. by left. }
  split; [exact Hin|]. exact (delivered_was_sent _ _ _ Hin).
Defined.

(** ** Match codes *)

Lemma secrets_choice_alphabet (n : nat) :
  ∃ c, secrets_choice (list_ascii_of_string ALPHABET) n = Some c
       ∧ code_char c = true.
Proof.
  unfold secrets_choice.
  assert (n mod 36 < 36) as Hlt by (apply Nat.mod_upper_bound; lia).
  change (length (list_ascii_of_string ALPHABET)) with 36.
  assert (Forall (λ c, code_char c = true) (list_ascii_of_string ALPHABET)) as Hall.
  { by vm_compute; repeat constructor. }
  destruct (list_ascii_of_string ALPHABET !! (n mod 36)) as [c|] eqn:Hc.
  - exists c. split; [done|]. eapply Forall_forall in Hall; [done|].
    by eapply list_elem_of_lookup_2.
  - apply lookup_ge_None in Hc. change (length (list_ascii_of_string ALPHABET)) with 36 in Hc.
    lia.
Qed.

Lemma length_string_of_list_ascii (l : list ascii) :
  String.length (string_of_list_ascii l) = length l.
Proof. induction l as [|c l IH]; [done|]. cbn. by rewrite IH. Qed.

Lemma generate_game_code_length (rng : Rng) (pos n : nat) :
  ∃ code, generate_game_code rng pos n = Some code ∧ String.length code = n.
Proof.
  unfold generate_game_code.
  destruct (mapM (λ i, secrets_choice (list_ascii_of_string ALPHABET) (rng (pos + i)))
              (seq 0 n)) as [l|] eqn:Hl.
  - exists (string_of_list_ascii l). cbn [fmap option_fmap option_map].
    pose proof (length_mapM _ _ _ Hl) as Hlen. rewrite length_seq in Hlen.
    by rewrite length_string_of_list_ascii.
  - apply mapM_None_1, Exists_exists in Hl as (i & _ & Hi).
    destruct (secrets_choice_alphabet (rng (pos + i))) as (c & Hc & _). congruence.
Qed.

(** X18. [generate_game_code] returns a code of the requested length made of
    upper-case letters and digits only; its [i]-th character is the character
    of the 36-letter alphabet at the [i]-th draw. *)
Theorem generate_game_code_shape (rng : Rng) (pos n : nat) :
  ∃ code,
    generate_game_code rng pos n = Some code
    ∧ String.length code = n
    ∧ forallb code_char (list_ascii_of_string code) = true
    ∧ ∀ i, i < n →
        list_ascii_of_string code !! i
        = list_ascii_of_string ALPHABET !! (rng (pos + i) mod 36).
Proof.
  unfold generate_game_code.
  destruct (mapM (λ i, secrets_choice (list_ascii_of_string ALPHABET) (rng (pos + i)))
              (seq 0 n)) as [l|] eqn:Hl.
  - exists (string_of_list_ascii l). cbn [fmap option_fmap option_map].
    pose proof (length_mapM _ _ _ Hl) as Hlen. rewrite length_seq in Hlen.
    apply mapM_Some_1 in Hl.
    rewrite length_string_of_list_ascii, list_ascii_of_string_of_list_ascii.
    split_and!; [done|lia| |].
    + apply forallb_forall. intros c Hc%list_elem_of_In%list_elem_of_lookup_1.
      destruct Hc as [i Hi].
      destruct (Forall2_lookup_r _ _ _ _ _ Hl Hi) as (k & _ & Hk).
      destruct (secrets_choice_alphabet (rng (pos + k))) as (c' & Hc' & Hok).
      congruence.
    + intros i Hi.
      destruct (Forall2_lookup_l _ _ _ i i Hl) as (c & Hc & Hk).
      { by apply lookup_seq_lt. }
      rewrite Hc. by rewrite <-Hk.
  - apply mapM_None_1, Exists_exists in Hl as (i & _ & Hi).
    destruct (secrets_choice_alphabet (rng (pos + i))) as (c & Hc & _). congruence.
Qed.

(** X19. [create_game] draws codes until one is not stored: when it returns,
    the code was free, every code drawn before it was taken, the new row is
    stored under the code in its initial state, and no other row, no move, no
    queue and no event is touched. It raises nothing; it loops exactly for as
    long as the codes it draws are taken. *)
Theorem create_game_fresh (attempts : nat) (rng : Rng) (pos : nat) (w : World) :
  match create_game attempts rng pos w with
  | Created_game game_code pos' w' =>
      games (db w) !! game_code = None
      ∧ games (db w') = <[game_code := Game.new game_code]> (games (db w))
      ∧ moves (db w') = moves (db w)
      ∧ bus w' = bus w ∧ published w' = published w
      ∧ String.length game_code = 6
      ∧ ∃ k, k < attempts ∧ pos' = pos + 6 * S k
             ∧ generate_game_code rng (pos + 6 * k) 6 = Some game_code
             ∧ all_taken rng pos w k
  | Create_raised _ => False
  | Create_looping => all_taken rng pos w attempts
  end.
Proof.
  revert pos. induction attempts as [|attempts IH]; intros pos; cbn [create_game].
  - intros j Hj. lia.
  - destruct (generate_game_code_length rng pos 6) as (code & Hcode & Hlen).
    rewrite Hcode. destruct (games (db w) !! code) as [g|] eqn:Hg.
    + specialize (IH (pos + 6)).
      assert (∀ k, all_taken rng (pos + 6) w k → all_taken rng pos w (S k)) as Hshift.
      { intros k Hk [|j] Hj.
        - exists code. replace (pos + 6 * 0) with pos by lia.
          split; [done|by rewrite Hg].
        - destruct (Hk j ltac:(lia)) as (c & Hc & Hin). exists c.
          replace (pos + 6 * S j) with (pos + 6 + 6 * j) by lia. by split. }
      destruct (create_game attempts rng (pos + 6) w) as [c pos' w'|e|]; [|done|].
      * destruct IH as (H1 & H2 & H3 & H4 & H5 & H6 & k & Hk & -> & Hgen & Htaken).
        split_and!; try done. exists (S k). split_and!; [lia|lia| |by apply Hshift].
        by replace (pos + 6 * S k) with (pos + 6 + 6 * k) by lia.
      * by apply Hshift.
    + cbn [commit add_log db games moves bus published Game.new Game.game_code].
      rewrite app_nil_r. split_and!; try done.
      exists 0. split_and!; [lia|lia| |].
      * by replace (pos + 6 * 0) with pos by lia.
      * intros j Hj. lia.
Qed.

(** ** Prompts *)

(** X20. [submit_prompt] stores a prompt only for a match that waits for
    prompts and has none for that side: it then writes the prompt, publishes
    the [prompt_submitted] event, and starts the run exactly when the other
    side has its prompt already. Otherwise it answers 404 for an unknown code
    and 400 for a started match or a second prompt, and changes nothing. *)
Theorem submit_prompt_once (game_code : string) (request : SubmitPromptRequest.t)
    (w : World) :
  let color := SubmitPromptRequest.color request in
  let '(w', response, tasks) := submit_prompt game_code request w in
  match response with
  | inr r =>
      ∃ game,
        games (db w) !! game_code = Some game
        ∧ Game.status game = WAITING_FOR_PROMPTS
        ∧ prompt_of color game = None
        ∧ db w' =
            {| games :=
                 <[Game.game_code game :=
                     with_prompt color (SubmitPromptRequest.prompt request) game]>
                   (games (db w));
               moves := moves (db w) |}
        ∧ published w' = published w ++ [(game_code, prompt_submitted_event color)]
        ∧ SubmitPromptResponse.game_started r
          = is_not_None (prompt_of (other_color color) game)
        ∧ tasks = (if SubmitPromptResponse.game_started r then [game_code] else [])
  | inl e =>
      w' = w ∧ tasks = []
      ∧ match games (db w) !! game_code with
        | None => e = {| status_code := 404; detail := "Game not found" |}
        | Some game =>
            status_code e = 400
            ∧ (Game.status game ≠ WAITING_FOR_PROMPTS
               ∨ is_Some (prompt_of color game))
        end
  end.
Proof.
  intros color. subst color. unfold submit_prompt.
  destruct (games (db w) !! game_code) as [game|]; [|done].
  destruct (Game.status game) eqn:Hs; cbn [GameStatus_eqb negb];
    [|split_and!; try done; by left..].
  destruct request as [[] p]; cbn [SubmitPromptRequest.color Color_eqb
                                     SubmitPromptRequest.prompt].
  - destruct (Game.white_prompt game) as [old|] eqn:Hw; cbn [is_not_None].
    + split_and!; try done. right. cbn. by rewrite Hw.
    + cbn [model_init PromptSubmittedEvent kwargs_get String.eqb Ascii.eqb
           Bool.eqb Color_value].
      exists game. cbn [set_white_prompt Game.white_prompt Game.black_prompt
                        is_not_None andb].
      destruct (Game.black_prompt game) as [b|] eqn:Hb; cbn; rewrite app_nil_r;
        by rewrite ?Hb.
  - destruct (Game.black_prompt game) as [old|] eqn:Hb; cbn [is_not_None].
    + split_and!; try done. right. cbn. by rewrite Hb.
    + cbn [model_init PromptSubmittedEvent kwargs_get String.eqb Ascii.eqb
           Bool.eqb Color_value].
      exists game. cbn [set_black_prompt Game.white_prompt Game.black_prompt
                        is_not_None andb].
      destruct (Game.white_prompt game) as [b|] eqn:Hw; cbn; rewrite app_nil_r;
        by rewrite ?Hw.
Qed.

Lemma submit_all_prompts game_code requests w g0 :
  games (db w) !! game_code = Some g0 →
  Game.game_code g0 = game_code →
  Game.status g0 = WAITING_FOR_PROMPTS →
  let white := kept (Game.white_prompt g0) (first_prompt WHITE requests) in
  let black := kept (Game.black_prompt g0) (first_prompt BLACK requests) in
  games (db (submit_all game_code requests w).1) !! game_code
  = Some (set_white_prompt white (set_black_prompt black g0))
  ∧ (submit_all game_code requests w).2
    = if is_not_None (Game.white_prompt g0) && is_not_None (Game.black_prompt g0)
      then []
      else if is_not_None white && is_not_None black then [game_code] else [].
Proof.
  revert w g0. induction requests as [|[c p] requests IH]; intros w g0 Hg Hkey Hs.
  - cbn. destruct g0 as [? ? [wp|] [bp|] ? ? ? ? ? ?]; by cbn in *.
  - cbn [submit_all]. unfold submit_prompt. rewrite Hg, Hs.
    cbn [GameStatus_eqb negb SubmitPromptRequest.color SubmitPromptRequest.prompt].
    destruct c; cbn [Color_eqb].
    + destruct (Game.white_prompt g0) as [old|] eqn:Hw; cbn [is_not_None].
      * specialize (IH w g0 Hg Hkey Hs). rewrite Hw in IH. cbn [kept] in IH.
        destruct (submit_all game_code requests w) as [w' more].
        cbn [fst snd app kept] in *. exact IH.
      * cbn [model_init PromptSubmittedEvent kwargs_get String.eqb Ascii.eqb
             Bool.eqb Color_value].
        set (g1 := set_white_prompt (Some p) g0).
        match goal with
        | |- context [submit_all game_code requests ?x] => set (w1 := x)
        end.
        assert (games (db w1) !! game_code = Some g1) as Hg1.
        { subst w1. destruct (is_not_None _ && _); cbn; rewrite Hkey;
            by rewrite lookup_insert_eq. }
        specialize (IH w1 g1 Hg1 Hkey Hs).
        destruct (submit_all game_code requests w1) as [w' more].
        cbn [fst snd] in *. destruct IH as [IH1 IH2].
        cbn [first_prompt List.find SubmitPromptRequest.color Color_eqb kept
             fmap option_fmap option_map SubmitPromptRequest.prompt].
        split; [exact IH1|]. rewrite IH2. subst g1.
        cbn [set_white_prompt Game.white_prompt Game.black_prompt is_not_None
             andb kept].
        unfold first_prompt.
        by destruct (Game.black_prompt g0), (List.find _ requests).
    + destruct (Game.black_prompt g0) as [old|] eqn:Hb; cbn [is_not_None].
      * specialize (IH w g0 Hg Hkey Hs). rewrite Hb in IH. cbn [kept] in IH.
        destruct (submit_all game_code requests w) as [w' more].
        cbn [fst snd app kept] in *. exact IH.
      * cbn [model_init PromptSubmittedEvent kwargs_get String.eqb Ascii.eqb
             Bool.eqb Color_value].
        set (g1 := set_black_prompt (Some p) g0).
        match goal with
        | |- context [submit_all game_code requests ?x] => set (w1 := x)
        end.
        assert (games (db w1) !! game_code = Some g1) as Hg1.
        { subst w1. destruct (is_not_None _ && _); cbn; rewrite Hkey;
            by rewrite lookup_insert_eq. }
        specialize (IH w1 g1 Hg1 Hkey Hs).
        destruct (submit_all game_code requests w1) as [w' more].
        cbn [fst snd] in *. destruct IH as [IH1 IH2].
        cbn [first_prompt List.find SubmitPromptRequest.color Color_eqb kept
             fmap option_fmap option_map SubmitPromptRequest.prompt].
        split; [exact IH1|]. rewrite IH2. subst g1.
        cbn [set_black_prompt Game.white_prompt Game.black_prompt is_not_None
             andb kept].
        unfold first_prompt.
        by destruct (Game.white_prompt g0), (List.find _ requests).
Qed.

(** X21. Of the requests sent for a new match, handled one after the other, the
    first one of each side sets the prompt of the side, later ones are
    refused; the match keeps waiting for prompts, and one run is started, when
    both sides have sent one, and none before. *)
Theorem first_prompt_wins (game_code : string)
    (requests : list SubmitPromptRequest.t) (w : World) :
  games (db w) !! game_code = Some (Game.new game_code) →
  ∃ g,
    games (db (submit_all game_code requests w).1) !! game_code = Some g
    ∧ Game.white_prompt g = first_prompt WHITE requests
    ∧ Game.black_prompt g = first_prompt BLACK requests
    ∧ Game.status g = WAITING_FOR_PROMPTS
    ∧ (submit_all game_code requests w).2
      = if is_not_None (first_prompt WHITE requests)
           && is_not_None (first_prompt BLACK requests)
        then [game_code] else [].
Proof.
  intros Hg.
  destruct (submit_all_prompts game_code requests w (Game.new game_code) Hg)
    as [Hrow Htasks]; [done..|].
  eexists. split; [exact Hrow|]. by rewrite Htasks.
Qed.

Lemma first_prompt_wins_witness :
  let requests :=
    [ {| SubmitPromptRequest.color := WHITE; SubmitPromptRequest.prompt := "attack" |};
      {| SubmitPromptRequest.color := WHITE; SubmitPromptRequest.prompt := "defend" |};
      {| SubmitPromptRequest.color := BLACK; SubmitPromptRequest.prompt := "punish" |};
      {| SubmitPromptRequest.color := BLACK; SubmitPromptRequest.prompt := "wait" |} ] in
  let w :=
    {| db := {| games := {[ "AB12CD" := Game.new "AB12CD" ]}; moves := [] |};
       bus := Bus_init; persisted := []; published := []; oracle_calls := [];
       log := [] |} in
  games (db w) !! "AB12CD" = Some (Game.new "AB12CD")
  ∧ (submit_all "AB12CD" requests w).2 = ["AB12CD"]
  ∧ ∃ g, games (db (submit_all "AB12CD" requests w).1) !! "AB12CD" = Some g
         ∧ Game.white_prompt g = Some "attack"
         ∧ Game.black_prompt g = Some "punish".
Proof.
  cbv zeta.
  set (requests := [_; _; _; _]). set (w := Build_World _ _ _ _ _ _).
  assert (games (db w) !! "AB12CD" = Some (Game.new "AB12CD")) as Hg
    by apply lookup_singleton_eq.
  destruct (first_prompt_wins "AB12CD" requests w Hg)
    as (g & Hrow & Hw & Hb & _ & Htasks).
  split; [exact Hg|]. split; [exact Htasks|]. by exists g.
Defined.

(** ** Viewers and resumption *)

(** X22. [game_events] answers 404 for an unknown code. For a stored match that
    is suspended and in progress it clears the suspended flag and adds one
    [run_game] task, so that a second request right after adds none; for any
    other match it changes nothing and adds no task. It attaches no stream
    itself and touches no move. *)
Theorem game_events_resumes (game_code : string) (w : World) :
  let '(w', response, tasks) := game_events game_code w in
  bus w' = bus w ∧ moves (db w') = moves (db w)
  ∧ match games (db w) !! game_code with
    | None =>
        response = inl {| status_code := 404; detail := "Game not found" |}
        ∧ w' = w ∧ tasks = []
    | Some game =>
        response = inr game_code
        ∧ if Game.is_paused game && GameStatus_eqb (Game.status game) IN_PROGRESS
          then
            tasks = [game_code]
            ∧ games (db w')
              = <[Game.game_code game := Game.set_is_paused false game]>
                  (games (db w))
            ∧ (Game.game_code game = game_code →
               (game_events game_code w').2 = []
               ∧ db (game_events game_code w').1.1 = db w')
          else tasks = [] ∧ w' = w
    end.
Proof.
  unfold game_events at 1.
  destruct (games (db w) !! game_code) as [game|] eqn:Hg; [|done].
  destruct (Game.is_paused game && GameStatus_eqb (Game.status game) IN_PROGRESS)
    eqn:Hp; [|done].
  cbn [commit add_log bus db moves games]. rewrite app_nil_r.
  split_and!; try done. intros Hkey.
  unfold game_events.
  cbn [commit add_log db games Game.set_is_paused Game.game_code]. rewrite Hkey.
  rewrite lookup_insert_eq.
  cbn [Game.is_paused Game.set_is_paused andb fst snd]. split; [done|]. cbn [commit add_log db games moves Game.set_is_paused Game.game_code]. by rewrite app_nil_r, Hkey.
Qed.

(** ** The listing of a match *)

Lemma key_order_rank x y : key_order x y ↔ rank x ≤ rank y.
Proof.
  unfold key_order, key_le, move_key, rank. cbn [fst snd].
  destruct (Nat.ltb_spec (Move.move_number x) (Move.move_number y)),
    (Nat.eqb_spec (Move.move_number x) (Move.move_number y)),
    (Color_eqb (Move.color x) WHITE), (Color_eqb (Move.color y) WHITE);
    cbn; split; try done; try lia.
Qed.

#[local] Instance key_order_trans : Transitive key_order.
Proof. intros x y z. rewrite !key_order_rank. lia. Qed.

#[local] Instance key_order_dec x y : Decision (key_order x y).
Proof. unfold key_order. apply _. Defined.

Lemma insert_by_key_perm x l : insert_by_key x l ≡ₚ x :: l.
Proof.
  induction l as [|y l IH]; [done|]. cbn.
  destruct (key_le _ _); [done|]. rewrite IH. apply Permutation_swap.
Qed.

Lemma sorted_perm l : sorted l ≡ₚ l.
Proof.
  induction l as [|x l IH]; [done|]. cbn. rewrite insert_by_key_perm.
  by constructor.
Qed.

Lemma insert_by_key_sorted x l :
  Sorted key_order l → Sorted key_order (insert_by_key x l).
Proof.
  induction l as [|y l IH]; intros Hl; cbn.
  - by repeat constructor.
  - destruct (key_le (move_key x) (move_key y)) eqn:Hxy.
    + constructor; [done|]. by constructor.
    + apply Sorted_inv in Hl as [Hl Hhd].
      assert (key_order y x) as Hyx.
      { apply key_order_rank.
        assert (¬ key_order x y) as Hn by (unfold key_order; by rewrite Hxy).
        rewrite key_order_rank in Hn. lia. }
      constructor; [by apply IH|].
      destruct l as [|z l]; cbn.
      * by constructor.
      * destruct (key_le (move_key x) (move_key z)); constructor; [done|].
        by apply HdRel_inv in Hhd.
Qed.

Lemma sorted_sorted l : Sorted key_order (sorted l).
Proof.
  induction l as [|x l IH]; [constructor|]. cbn. by apply insert_by_key_sorted.
Qed.

Lemma numbered_rank game_code rows k row :
  numbered game_code rows →
  rows_of game_code rows !! k = Some row → rank row = k + 2.
Proof.
  intros Hnum Hk. destruct (Hnum k row Hk) as [Hn Hc]. unfold rank.
  rewrite Hn, Hc.
  pose proof (Nat.div_mod_eq k 2) as Hdiv.
  destruct (Nat.even k) eqn:He; cbn [Color_eqb].
  - apply Nat.even_spec in He as [j ->].
    destruct (half_double j) as [-> _]. lia.
  - assert (Nat.odd k = true) as [j ->]%Nat.odd_spec
      by (by rewrite <-Nat.negb_even, He).
    replace (2 * j + 1) with (S (2 * j)) by lia.
    destruct (half_double j) as [_ ->]. lia.
Qed.

Lemma numbered_sorted game_code rows :
  numbered game_code rows → Sorted key_order (rows_of game_code rows).
Proof.
  intros Hnum. apply StronglySorted_Sorted.
  assert (∀ i j x y, i < j →
            rows_of game_code rows !! i = Some x →
            rows_of game_code rows !! j = Some y → key_order x y) as Hord.
  { intros i j x y Hij Hx Hy. apply key_order_rank.
    rewrite (numbered_rank _ _ _ _ Hnum Hx), (numbered_rank _ _ _ _ Hnum Hy). lia. }
  clear Hnum. revert Hord. generalize (rows_of game_code rows). intros l.
  induction l as [|x l IH]; intros Hord; constructor.
  - apply IH. intros i j a b Hij Ha Hb. by apply (Hord (S i) (S j) a b); [lia|..].
  - apply Forall_forall. intros y [j Hj]%list_elem_of_lookup_1.
    by apply (Hord 0 (S j) x y); [lia|..].
Qed.

(** X23. When the rows of a match are numbered as the loop numbers them,
    [get_game] lists them in the order they were played, whatever order the
    relationship loads them in, together with the stored status, position and
    result; it answers 404 exactly when the code is unknown. *)
Theorem get_game_in_order (game_code : string) (loaded : list Move.t) (w : World) :
  numbered game_code (moves (db w)) →
  loaded ≡ₚ rows_of game_code (moves (db w)) →
  match get_game game_code loaded w with
  | inr r =>
      GameResponse.moves r = rows_of game_code (moves (db w))
      ∧ ∃ game, games (db w) !! game_code = Some game
                ∧ GameResponse.status r = Game.status game
                ∧ GameResponse.board_fen r = Game.board_fen game
                ∧ GameResponse.result r = Game.result game
  | inl e =>
      games (db w) !! game_code = None
      ∧ e = {| status_code := 404; detail := "Game not found" |}
  end.
Proof.
  intros Hnum Hperm. unfold get_game.
  destruct (games (db w) !! game_code) as [game|]; [|done].
  cbn [GameResponse.moves GameResponse.status GameResponse.board_fen
       GameResponse.result].
  split; [|by exists game].
  apply (Sorted_unique_strong key_order).
  - intros x1 x2 Hx1 Hx2 H12 H21.
    rewrite sorted_perm, Hperm in Hx1.
    apply list_elem_of_lookup_1 in Hx1 as [i Hi].
    apply list_elem_of_lookup_1 in Hx2 as [j Hj].
    apply key_order_rank in H12, H21.
    rewrite (numbered_rank _ _ _ _ Hnum Hi), (numbered_rank _ _ _ _ Hnum Hj) in *.
    assert (i = j) as -> by lia. congruence.
  - apply sorted_sorted.
  - by apply numbered_sorted.
  - by rewrite sorted_perm.
Qed.

Lemma get_game_in_order_witness :
  let loaded := reverse (rows_of "AB12CD" three_plies) in
  numbered "AB12CD" (moves (db three_plies_world))
  ∧ loaded ≡ₚ rows_of "AB12CD" (moves (db three_plies_world))
  ∧ ∃ r, get_game "AB12CD" loaded three_plies_world = inr r
         ∧ map Move.move_san (GameResponse.moves r) = ["f3"; "e5"; "g4"].
Proof.
  cbv zeta.
  assert (numbered "AB12CD" (moves (db three_plies_world))) as Hnum.
  { intros k row Hk. vm_compute in Hk.
    destruct k as [|[|[|k]]]; [by injection Hk as <-..|done]. }
  assert (reverse (rows_of "AB12CD" three_plies)
          ≡ₚ rows_of "AB12CD" (moves (db three_plies_world))) as Hperm.
  { apply reverse_Permutation. }
  split; [exact Hnum|]. split; [exact Hperm|].
  pose proof (get_game_in_order "AB12CD" (reverse (rows_of "AB12CD" three_plies))
                three_plies_world Hnum Hperm) as Hget.
  destruct (get_game "AB12CD" (reverse (rows_of "AB12CD" three_plies))
              three_plies_world) as [e|r].
  - destruct Hget as [Hnone _]. by vm_compute in Hnone.
  - exists r. split; [done|]. destruct Hget as [-> _]. by vm_compute.
Defined.

(** ** A run that failed *)

Lemma GameStatus_eqb_eq (a b : GameStatus) : GameStatus_eqb a b = true ↔ a = b.
Proof. by destruct a, b. Qed.

(** X24. When a run of [run_game] ends with an exception, the row of the match
    is left in progress and not suspended. [game_events] then adds no task for
    it and changes nothing, and [submit_prompt] refuses with 400: no request
    starts the loop of that match again. *)
Theorem failed_run_stranded `{E : RulesEngine} {L : RulesEngineLaws E}
    (game_code : string) (env : Env) (w : World) (x : exn)
    (request : SubmitPromptRequest.t) :
  (∀ g0, games (db w) !! game_code = Some g0 → Game.game_code g0 = game_code) →
  (run_game game_code env w).2 = Failed x →
  let w' := (run_game game_code env w).1 in
  (∃ g, games (db w') !! game_code = Some g
        ∧ Game.status g = IN_PROGRESS ∧ Game.is_paused g = false)
  ∧ game_events game_code w' = (w', inr game_code, [])
  ∧ ∃ e, submit_prompt game_code request w' = (w', inl e, [])
         ∧ status_code e = 400.
Proof.
  intros Hkey Hfail w'.
  destruct (run_game_failed game_code env w x Hkey Hfail) as (_ & g & Hg & Hs & Hp).
  fold w' in Hg. split; [by exists g|]. split.
  - unfold game_events. by rewrite Hg, Hp.
  - unfold submit_prompt. rewrite Hg, Hs. cbn [GameStatus_eqb negb]. by eexists.
Qed.

Lemma failed_run_stranded_witness :
  let w' := (run_game "AB12CD" Qh5_then_stop sample_world).1 in
  (∀ g0, games (db sample_world) !! "AB12CD" = Some g0 → Game.game_code g0 = "AB12CD")
  ∧ (run_game "AB12CD" Qh5_then_stop sample_world).2
    = Failed (ChessError IllegalMoveError)
  ∧ game_events "AB12CD" w' = (w', inr "AB12CD", []).
Proof.
  cbv zeta.
  assert (∀ g0, games (db sample_world) !! "AB12CD" = Some g0
                → Game.game_code g0 = "AB12CD") as Hkey.
  { intros g0. cbn. rewrite lookup_singleton_eq. by intros [= <-]. }
  assert ((run_game "AB12CD" Qh5_then_stop sample_world).2
          = Failed (ChessError IllegalMoveError)) as Hfail by (by vm_compute).
  split; [exact Hkey|]. split; [exact Hfail|].
  exact (proj1 (proj2
    (@failed_run_stranded Scripted.engine Scripted_laws "AB12CD" Qh5_then_stop
       sample_world _
       {| SubmitPromptRequest.color := WHITE; SubmitPromptRequest.prompt := "attack" |}
       Hkey Hfail))).
Defined.
